(** * Darwin browser finder: discovery and ranking of browser executables

    A shallow embedding of [src/Source/darwinFinderBase.ts] (the abstract
    [DarwinFinderBase] and the concrete [DarwinFirefoxBrowserFinder]) together
    with the properties the specification states about it.

    Layout:
    - [JsString]: the string primitives the source calls ([trim], [split],
      truthiness of a string);
    - [Re]: the fragment of ECMAScript regular expressions the source builds
      with [new RegExp(...)]: a one-pass parser of the pattern text and a
      backtracking-order matcher ([test], [replace]);
    - the host (collaborators, promises, the state-and-exception monad);
    - [Index] and [Util]: what the source imports from [.] and [./util];
    - [Darwin] and [Firefox]: the two classes of the source;
    - the vocabulary of the properties and sample hosts;
    - the properties. *)

From Stdlib Require Import List Ascii String ZArith Lia Bool Arith.
Import ListNotations.

(** JavaScript strings are modelled as lists of code units, restricted to the
    code units 0..255. *)
Abbreviation str := (list ascii) (only parsing).

(** A string literal of the source. *)
Definition lit (s : string) : str := list_ascii_of_string s.

(** ** Outcomes of fallible code

    [Ok] is a normal return (or a fulfilled promise), [Throw] a thrown
    exception (or a rejected promise).  [OutOfModel] marks a pattern text that
    uses regular-expression syntax outside the fragment embedded in [Re]:
    nothing is claimed about such a run. *)
Inductive error : Type :=
| SyntaxError                      (* thrown by [new RegExp] *)
| ExternalCommandFailure (msg : str). (* rejection of [execa.command] *)

Inductive result (A : Type) : Type :=
| Ok (a : A)
| Throw (e : error)
| OutOfModel.

Arguments Ok {A} a.
Arguments Throw {A} e.
Arguments OutOfModel {A}.

Definition rbind {A B} (r : result A) (k : A -> result B) : result B :=
  match r with
  | Ok a => k a
  | Throw e => Throw e
  | OutOfModel => OutOfModel
  end.

(** A normal return.  A text outside the fragment of [Re] is not counted as
    one: where [isOk] is false nothing is said of such a text. *)
Definition isOk {A} (r : result A) : bool :=
  match r with Ok _ => true | _ => false end.

(** ** String primitives *)
Module JsString.

Definition eqb (a b : str) : bool :=
  if list_eq_dec ascii_dec a b then true else false.

(** [!!s]: a string is truthy when it is not empty. *)
Definition truthy (s : str) : bool :=
  match s with [] => false | _ :: _ => true end.

(** WhiteSpace and LineTerminator code units below 256:
    TAB, LF, VT, FF, CR, SP, NBSP. *)
Definition isWhiteSpace (c : ascii) : bool :=
  let n := nat_of_ascii c in
  ((9 <=? n) && (n <=? 13)) || (n =? 32) || (n =? 160).

Fixpoint trimStart (s : str) : str :=
  match s with
  | [] => []
  | c :: t => if isWhiteSpace c then trimStart t else s
  end.

Definition trimEnd (s : str) : str := rev (trimStart (rev s)).

(** [String.prototype.trim] *)
Definition trim (s : str) : str := trimEnd (trimStart s).

(** [s.split(sep)] for a one-character separator. *)
Fixpoint split (sep : ascii) (s : str) : list str :=
  match s with
  | [] => [[]]
  | c :: t =>
      if Ascii.eqb c sep then [] :: split sep t
      else match split sep t with
           | h :: r => (c :: h) :: r
           | [] => [[c]]
           end
  end.

(** [lines.join(sep)], the inverse of [split] on separator-free lines. *)
Fixpoint join (sep : ascii) (l : list str) : str :=
  match l with
  | [] => []
  | [x] => x
  | x :: r => x ++ sep :: join sep r
  end.

(** [s.startsWith(p)] *)
Fixpoint startsWith (p s : str) : bool :=
  match p, s with
  | [], _ => true
  | a :: p', b :: s' => Ascii.eqb a b && startsWith p' s'
  | _ :: _, [] => false
  end.

(** [s.includes(p)] *)
Fixpoint includes (p s : str) : bool :=
  startsWith p s ||
  match s with
  | [] => false
  | _ :: t => includes p t
  end.

End JsString.

(** ** Regular expressions

    The fragment of ECMAScript patterns (no flags, Annex B syntax) that the
    source can build: literal characters, identity escapes of punctuation,
    [.], [^], [$], groups, alternation, the quantifiers [*], [+], [?] with
    their lazy forms, and character classes of characters and ranges.
    A pattern using anything else ([{], [(?], letter and digit escapes)
    is [OutOfModel].  [RegExp] is part of the language, not of the
    repository: the parser and the matcher below follow the ECMAScript
    grammar and its backtracking semantics for this fragment.  A lazy
    quantifier is given the matches of the greedy one in the greedy order:
    [test] does not depend on the order, and the one pattern used with
    [replace] has no lazy quantifier. *)
Module Re.

Inductive regex : Type :=
| Eps
| Chr (c : ascii)
| Any                                         (* [.] *)
| Cls (neg : bool) (rs : list (ascii * ascii)) (* [[...]] *)
| Bol                                         (* [^] *)
| Eol                                         (* [$] *)
| Seq (a b : regex)
| Alt (a b : regex)
| Star (a : regex).

Definition Plus (a : regex) : regex := Seq a (Star a).
Definition Opt (a : regex) : regex := Alt a Eps.

(** *** Matching

    A position is the index into the subject together with the rest of the
    subject from there.  [ends r p] lists the positions where a match of
    [r] started at [p] can end, in the order backtracking tries them. *)
Abbreviation pos := (nat * list ascii)%type (only parsing).

Definition isLineTerminator (c : ascii) : bool :=
  let n := nat_of_ascii c in (n =? 10) || (n =? 13).

Definition inRange (c : ascii) (r : ascii * ascii) : bool :=
  (nat_of_ascii (fst r) <=? nat_of_ascii c) &&
  (nat_of_ascii c <=? nat_of_ascii (snd r)).

Definition inClass (neg : bool) (rs : list (ascii * ascii)) (c : ascii) : bool :=
  xorb neg (existsb (inRange c) rs).

(** One character accepted by [ok]. *)
Definition one (ok : ascii -> bool) (p : pos) : list pos :=
  match snd p with
  | c :: t => if ok c then [(S (fst p), t)] else []
  | [] => []
  end.

(** Greedy iteration; an iteration that consumes nothing is not repeated. *)
Fixpoint star (f : pos -> list pos) (fuel : nat) (p : pos) : list pos :=
  match fuel with
  | O => [p]
  | S k =>
      flat_map (fun q => if fst q =? fst p then [] else star f k q) (f p)
      ++ [p]
  end.

Fixpoint ends (r : regex) (p : pos) : list pos :=
  match r with
  | Eps => [p]
  | Chr c => one (Ascii.eqb c) p
  | Any => one (fun x => negb (isLineTerminator x)) p
  | Cls neg rs => one (inClass neg rs) p
  | Bol => if fst p =? 0 then [p] else []
  | Eol => match snd p with [] => [p] | _ :: _ => [] end
  | Seq a b => flat_map (ends b) (ends a p)
  | Alt a b => ends a p ++ ends b p
  | Star a => star (ends a) (S (List.length (snd p))) p
  end.

(** [RegExp.prototype.exec] from index [i] on: the leftmost start with a
    match, and the end backtracking reaches first. *)
Fixpoint execFrom (r : regex) (i : nat) (s : str) : option (nat * pos) :=
  match ends r (i, s) with
  | q :: _ => Some (i, q)
  | [] =>
      match s with
      | [] => None
      | _ :: t => execFrom r (S i) t
      end
  end.

Definition exec (r : regex) (s : str) : option (nat * pos) := execFrom r 0 s.

(** [re.test(s)] *)
Definition test (r : regex) (s : str) : bool :=
  match exec r s with Some _ => true | None => false end.

(** [s.replace(re, by)] for a pattern without the global flag and a
    replacement text without [$]: the first match is replaced. *)
Definition replace (r : regex) (s by_ : str) : str :=
  match exec r s with
  | None => s
  | Some (i, (_, rest)) => firstn i s ++ by_ ++ rest
  end.

(** *** Parsing the pattern text

    [new RegExp(text)] reads the text left to right.  The parser state
    holds the alternatives and terms of the group being read, the term a
    quantifier would apply to, and the enclosing groups. *)
Inductive pending : Type :=
| PNone                  (* nothing to repeat *)
| PGroupStart            (* just after [(] *)
| PAtom (r : regex)      (* an atom, not yet quantified *)
| PQuant (r : regex)     (* a quantified atom: only a lazy [?] may follow *)
| PLazy (r : regex).     (* a lazily quantified atom *)

(** Alternatives and terms are kept most recent first. *)
Record frame : Type := { alts : list regex; terms : list regex }.

(** Inside a class: no pending character, a character that may open a
    range, or a character followed by [-]. *)
Inductive cstate : Type :=
| CNone
| CAtom (c : ascii)
| CDash (c : ascii).

Inductive mode : Type :=
| MNormal
| MEscape                                        (* after a backslash *)
| MClassOpen                                     (* after [[] *)
| MClass (neg : bool) (items : list (ascii * ascii)) (cs : cstate)
| MClassEscape (neg : bool) (items : list (ascii * ascii)) (cs : cstate).

Record pstate : Type :=
  { pmode : mode; cur : frame; pend : pending; stack : list frame }.

Definition init : pstate :=
  {| pmode := MNormal; cur := {| alts := []; terms := [] |};
     pend := PNone; stack := [] |}.

Inductive tok : Type :=
| TBackslash | TLBracket | TRBracket | TLParen | TRParen | TBar
| TStar | TPlus | TQuest | TCaret | TDollar | TDot | TLBrace | TRBrace
| TSlash | TDash | TOther.

Definition classify (c : ascii) : tok :=
  if Ascii.eqb c "\" then TBackslash
  else if Ascii.eqb c "[" then TLBracket
  else if Ascii.eqb c "]" then TRBracket
  else if Ascii.eqb c "(" then TLParen
  else if Ascii.eqb c ")" then TRParen
  else if Ascii.eqb c "|" then TBar
  else if Ascii.eqb c "*" then TStar
  else if Ascii.eqb c "+" then TPlus
  else if Ascii.eqb c "?" then TQuest
  else if Ascii.eqb c "^" then TCaret
  else if Ascii.eqb c "$" then TDollar
  else if Ascii.eqb c "." then TDot
  else if Ascii.eqb c "{" then TLBrace
  else if Ascii.eqb c "}" then TRBrace
  else if Ascii.eqb c "/" then TSlash
  else if Ascii.eqb c "-" then TDash
  else TOther.

(** SyntaxCharacter of the grammar: [^$\.*+?()[]{}|]. *)
Definition isSyntaxChar (c : ascii) : bool :=
  match classify c with
  | TSlash | TDash | TOther => false
  | _ => true
  end.

(** The escapes read as the escaped character itself. *)
Definition isIdentityEscape (c : ascii) : bool :=
  match classify c with
  | TOther => false
  | _ => true
  end.

Definition flush (st : pstate) : frame :=
  match pend st with
  | PAtom r | PQuant r | PLazy r =>
      {| alts := alts (cur st); terms := r :: terms (cur st) |}
  | PNone | PGroupStart => cur st
  end.

Definition setMode (st : pstate) (m : mode) : pstate :=
  {| pmode := m; cur := cur st; pend := pend st; stack := stack st |}.

Definition setPend (st : pstate) (p : pending) : pstate :=
  {| pmode := pmode st; cur := cur st; pend := p; stack := stack st |}.

Definition pushAtom (st : pstate) (r : regex) : pstate :=
  {| pmode := MNormal; cur := flush st; pend := PAtom r; stack := stack st |}.

Definition pushAssertion (st : pstate) (r : regex) : pstate :=
  {| pmode := MNormal;
     cur := {| alts := alts (flush st); terms := r :: terms (flush st) |};
     pend := PNone; stack := stack st |}.

Definition seqOf (ts : list regex) : regex := fold_right Seq Eps ts.

Fixpoint altOf (l : list regex) : regex :=
  match l with
  | [] => Eps
  | [a] => a
  | a :: r => Alt a (altOf r)
  end.

Definition closeFrame (f : frame) : regex :=
  altOf (rev (seqOf (rev (terms f)) :: alts f)).

Definition quantify (q : regex -> regex) (st : pstate) : result pstate :=
  match pend st with
  | PAtom r => Ok (setPend st (PQuant (q r)))
  | _ => Throw SyntaxError
  end.

Definition stepNormal (st : pstate) (c : ascii) : result pstate :=
  match classify c with
  | TBackslash => Ok (setMode st MEscape)
  | TLBracket => Ok (setMode st MClassOpen)
  | TLParen =>
      Ok {| pmode := MNormal; cur := {| alts := []; terms := [] |};
            pend := PGroupStart; stack := flush st :: stack st |}
  | TRParen =>
      match stack st with
      | [] => Throw SyntaxError
      | parent :: rest =>
          Ok {| pmode := MNormal; cur := parent;
                pend := PAtom (closeFrame (flush st)); stack := rest |}
      end
  | TBar =>
      Ok {| pmode := MNormal;
            cur := {| alts := seqOf (rev (terms (flush st))) :: alts (flush st);
                      terms := [] |};
            pend := PNone; stack := stack st |}
  | TStar => quantify Star st
  | TPlus => quantify Plus st
  | TQuest =>
      match pend st with
      | PAtom r => Ok (setPend st (PQuant (Opt r)))
      | PQuant r => Ok (setPend st (PLazy r))
      | PGroupStart => OutOfModel
      | PNone | PLazy _ => Throw SyntaxError
      end
  | TCaret => Ok (pushAssertion st Bol)
  | TDollar => Ok (pushAssertion st Eol)
  | TDot => Ok (pushAtom st Any)
  | TLBrace => OutOfModel
  | TRBracket | TRBrace | TSlash | TDash | TOther => Ok (pushAtom st (Chr c))
  end.

Definition classAtom (neg : bool) (items : list (ascii * ascii))
           (cs : cstate) (x : ascii) (dash : bool) : result mode :=
  match cs with
  | CNone => Ok (MClass neg items (CAtom x))
  | CAtom c =>
      if dash then Ok (MClass neg items (CDash c))
      else Ok (MClass neg ((c, c) :: items) (CAtom x))
  | CDash c =>
      if nat_of_ascii c <=? nat_of_ascii x
      then Ok (MClass neg ((c, x) :: items) CNone)
      else Throw SyntaxError
  end.

Definition closeItems (items : list (ascii * ascii)) (cs : cstate)
  : list (ascii * ascii) :=
  match cs with
  | CNone => items
  | CAtom c => (c, c) :: items
  | CDash c => ("-"%char, "-"%char) :: (c, c) :: items
  end.

Definition stepClass (st : pstate) (neg : bool)
           (items : list (ascii * ascii)) (cs : cstate) (c : ascii)
  : result pstate :=
  match classify c with
  | TRBracket => Ok (pushAtom st (Cls neg (rev (closeItems items cs))))
  | TBackslash => Ok (setMode st (MClassEscape neg items cs))
  | TDash => rbind (classAtom neg items cs c true) (fun m => Ok (setMode st m))
  | _ => rbind (classAtom neg items cs c false) (fun m => Ok (setMode st m))
  end.

Definition step (st : pstate) (c : ascii) : result pstate :=
  match pmode st with
  | MNormal => stepNormal st c
  | MEscape =>
      if isIdentityEscape c then Ok (pushAtom st (Chr c)) else OutOfModel
  | MClassOpen =>
      match classify c with
      | TCaret => Ok (setMode st (MClass true [] CNone))
      | _ => stepClass st false [] CNone c
      end
  | MClass neg items cs => stepClass st neg items cs c
  | MClassEscape neg items cs =>
      if isIdentityEscape c
      then rbind (classAtom neg items cs c false) (fun m => Ok (setMode st m))
      else OutOfModel
  end.

Fixpoint steps (st : pstate) (s : str) : result pstate :=
  match s with
  | [] => Ok st
  | c :: t => rbind (step st c) (fun st' => steps st' t)
  end.

(** At the end of the text every group and class must be closed. *)
Definition finish (st : pstate) : result regex :=
  match pmode st, stack st with
  | MNormal, [] => Ok (closeFrame (flush st))
  | _, _ => Throw SyntaxError
  end.

Definition compile (s : str) : result regex := rbind (steps init s) finish.

(** A [RegExp] object: its pattern text and what it matches. *)
Record RegExp : Type := { source : str; matcher : regex }.

(** [new RegExp(text)] *)
Definition new_RegExp (text : str) : result RegExp :=
  rbind (compile text) (fun r => Ok {| source := text; matcher := r |}).

(** [re.test(s)] and [s.replace(re, by)] on the object. *)
Definition testRe (re : RegExp) (s : str) : bool := test (matcher re) s.
Definition replaceRe (re : RegExp) (s by_ : str) : str :=
  replace (matcher re) s by_.

End Re.

(** ** The host: collaborators and observable state *)

(** [NodeJS.ProcessEnv]: a variable is a string or undefined. *)
Definition ProcessEnv : Type := str -> option str.

(** The collaborators handed to the constructor, and [path.posix.join].
    [execa_command n cmd] is what [execa.command(cmd, ...)] settles to when
    [n] commands were run before it: [inr stdout], or [inl e] when the
    command fails.  [fs_access p] tells whether [fs.access(p)] resolves. *)
Record Host : Type :=
  { execa_command : nat -> str -> error + str;
    fs_access : str -> bool;
    posix_join : str -> str -> str }.

(** What the source imports from the package index [.], which is not under
    src/. *)
Module Index.

(** Modelled from the spec: the enumeration [Quality] of the package index,
    the release channels of the data model. *)
Inductive Quality : Type := Stable | Dev | Canary | Custom | Unknown.

(** Modelled from the spec: the interface [IExecutable] of the package
    index, a path with its quality. *)
Record IExecutable : Type := { path : str; quality : Quality }.

End Index.

Import Index.

(** A promise of the executables: [pid] tells promise objects apart (it is
    the number of scans the finder started before the one that made it),
    [settled] is what awaiting it gives. *)
Record Promise : Type :=
  { pid : nat; settled : result (list IExecutable) }.

(** What the finder has done to its collaborators: the command lines given
    to [execa.command] and the paths probed with [fs.access], both in call
    order. *)
Record World : Type := { commands : list str; probes : list str }.

(** A finder object: its field [foundAll], the number of times it ran
    [findAllInner], and the collaborators' record. *)
Record State : Type :=
  { foundAll : option Promise; scans : nat; world : World }.

(** [new DarwinFinderBase(env, fs, execa)] *)
Definition newFinder (w : World) : State :=
  {| foundAll := None; scans := 0; world := w |}.

(** Code that reads and updates a state [S] and can throw.  An [async]
    function is run to its end when it is called: the state it leaves and
    the value or exception it ends with are those of its promise. *)
Definition ST (S A : Type) : Type := S -> result A * S.

Definition ret {S A} (a : A) : ST S A := fun st => (Ok a, st).

Definition bind {S A B} (c : ST S A) (k : A -> ST S B) : ST S B :=
  fun st =>
    match c st with
    | (Ok a, st') => k a st'
    | (Throw e, st') => (Throw e, st')
    | (OutOfModel, st') => (OutOfModel, st')
    end.

Definition liftR {S A} (r : result A) : ST S A := fun st => (r, st).

(** [W]: code that only talks to the collaborators; [M]: the public methods
    of a finder, which also use its fields. *)
Definition W : Type -> Type := ST World.
Definition M : Type -> Type := ST State.

Definition liftW {A} (c : W A) : M A :=
  fun st =>
    let (r, w) := c (world st) in
    (r, {| foundAll := foundAll st; scans := scans st; world := w |}).

Declare Scope finder_scope.
Delimit Scope finder_scope with finder.
Notation "x <- c ;; k" := (bind c (fun x => k))
  (at level 61, c at next level, right associativity) : finder_scope.
Local Open Scope finder_scope.

(** [for (const x of l) body], threading the loop's local state. *)
Fixpoint forOf {S A T : Type} (l : list A) (body : T -> A -> ST S T) (acc : T)
  : ST S T :=
  match l with
  | [] => ret acc
  | x :: t => acc' <- body acc x ;; forOf t body acc'
  end.

(** [await this.execa.command(cmd, ...)] *)
Definition execaCommand (h : Host) (cmd : str) : W str :=
  fun w =>
    let w' := {| commands := commands w ++ [cmd]; probes := probes w |} in
    match execa_command h (List.length (commands w)) cmd with
    | inr stdout => (Ok stdout, w')
    | inl e => (Throw e, w')
    end.

(** [await fs.access(p)] under [try]/[catch]: did it resolve? *)
Definition fsAccess (h : Host) (p : str) : W bool :=
  fun w =>
    (Ok (fs_access h p),
     {| commands := commands w; probes := probes w ++ [p] |}).

(** [await promise] *)
Definition await {S} (p : Promise) : ST S (list IExecutable) :=
  fun st => (settled p, st).

(** ** What the source imports from [./util] *)
Module Util.

(** Modelled from the spec: the interface [IPriority] of [./util], with the
    three fields [createPriorities] fills in. *)
Record IPriority : Type :=
  { regex : Re.RegExp; weight : Z; quality : Quality }.

(** Modelled from the spec: [escapeRegexSpecialChars] of [./util], which is
    not under src/.  Every character the matcher reads as syntax, and the
    path separator, is preceded by a backslash. *)
Definition escapeRegexSpecialChars (s : str) : str :=
  flat_map (fun c =>
              if Re.isSyntaxChar c || Ascii.eqb c "/"
              then ["\"%char; c] else [c]) s.

(** Modelled from the spec: [canAccess] of [./util], which is not under
    src/: the accessibility check of one path. *)
Definition canAccess (h : Host) (p : str) : W bool := fsAccess h p.

(** Modelled from the spec: the rule lookup of [sort] in [./util], which is
    not under src/.  Rules are tried in order and the first one whose
    pattern matches the candidate wins. *)
Definition findPriority (priorities : list IPriority) (inst : str)
  : option IPriority :=
  find (fun p => Re.testRe (regex p) inst) priorities.

(** Insertion after the entries that weigh at least as much. *)
Fixpoint insertByWeight (x : str * IPriority) (l : list (str * IPriority))
  : list (str * IPriority) :=
  match l with
  | [] => [x]
  | y :: t =>
      if (weight (snd y) <? weight (snd x))%Z then x :: l
      else y :: insertByWeight x t
  end.

(** Modelled from the spec: [sort] of [./util], which is not under src/.
    Each candidate takes the weight and quality of its first matching
    rule; a candidate no rule matches is left out; the result is in
    descending weight, candidates of equal weight in their input order. *)
Definition sort (installations : list str) (priorities : list IPriority)
  : list IExecutable :=
  let ranked :=
    flat_map (fun inst =>
                match findPriority priorities inst with
                | Some p => [(inst, p)]
                | None => []
                end) installations in
  map (fun x => {| Index.path := fst x; Index.quality := quality (snd x) |})
      (fold_right insertByWeight [] (rev ranked)).

End Util.

(** ** [DarwinFinderBase] *)
Module Darwin.

(** The elements of the argument of [createPriorities].  Weights are taken
    to be integers; the source adds and subtracts 100 on doubles, which gives
    the integer sums for integers of magnitude up to 2^53 - 100. *)
Record VariantSpec : Type :=
  { name : str; weight : Z; quality : Quality }.

(** [/( \(0x[a-f0-9]+\))/.source] *)
Definition pathSuffixSource : str := lit "( \(0x[a-f0-9]+\))".

(** [const pathSuffixRe = /( \(0x[a-f0-9]+\))/] *)
Definition pathSuffixRe : Re.RegExp :=
  match Re.new_RegExp pathSuffixSource with
  | Ok re => re
  | _ => {| Re.source := pathSuffixSource; Re.matcher := Re.Eps |}
  end.

Definition lsRegisterCommand : str :=
  lit "/System/Library/Frameworks/CoreServices.framework"
  ++ lit "/Versions/A/Frameworks/LaunchServices.framework"
  ++ lit "/Versions/A/Support/lsregister -dump".

(** [String.prototype.toLowerCase] on code units below 256. *)
Definition toLowerCase (s : str) : str :=
  map (fun c =>
         let n := nat_of_ascii c in
         if ((65 <=? n) && (n <=? 90))
            || ((192 <=? n) && (n <=? 222) && negb (n =? 215))
         then ascii_of_nat (n + 32) else c) s.

Definition dquote : ascii := ascii_of_nat 34.

(** The command line given to [execa.command]. *)
Definition registryCommand (pattern : str) : str :=
  lsRegisterCommand ++ lit " | awk 'tolower($0) ~ /"
  ++ toLowerCase pattern ++ pathSuffixSource
  ++ lit "?$/ { $1=" ++ [dquote; dquote] ++ lit "; print $0 }'".

(** [`${x}`] for a string that may be undefined. *)
Definition template (x : option str) : str :=
  match x with
  | Some s => s
  | None => lit "undefined"
  end.

(** [installations.add(p)] on an insertion-ordered [Set<string>]. *)
Definition setAdd (p : str) (installations : list str) : list str :=
  if existsb (JsString.eqb p) installations then installations
  else installations ++ [p].

(** [Array.prototype.reduce] with a callback that can throw. *)
Fixpoint reduce {A B : Type} (f : B -> A -> result B) (l : list A) (acc : B)
  : result B :=
  match l with
  | [] => Ok acc
  | x :: t => rbind (f acc x) (reduce f t)
  end.

Section Base.

(** The constructor's arguments and the members a concrete finder
    supplies. *)
Variable h : Host.
Variable env : ProcessEnv.
Variable wellKnownPaths : list IExecutable.
Variable findAllInner : W (list IExecutable).
Variable getPreferredPath : ProcessEnv -> option str.

(** [findAll]: [this.foundAll ??= this.findAllInner(); return this.foundAll]. *)
Definition findAll : M Promise :=
  fun st =>
    match foundAll st with
    | Some p => (Ok p, st)
    | None =>
        let (r, w) := findAllInner (world st) in
        let p := {| pid := scans st; settled := r |} in
        (Ok p, {| foundAll := Some p; scans := S (scans st); world := w |})
    end.

(** The loop of [findWhere] over the well-known paths. *)
Fixpoint findWellKnown (predicate : IExecutable -> bool)
         (l : list IExecutable) : W (option IExecutable) :=
  match l with
  | [] => ret None
  | test :: rest =>
      if predicate test
      then ok <- Util.canAccess h (path test) ;;
           if ok then ret (Some test)
           else findWellKnown predicate rest
      else findWellKnown predicate rest
  end.

Definition findWhere (predicate : IExecutable -> bool)
  : M (option IExecutable) :=
  known <- liftW (findWellKnown predicate wellKnownPaths) ;;
  match known with
  | Some test => ret (Some test)
  | None =>
      p <- findAll ;;
      all <- await p ;;
      ret (find predicate all)
  end.

(** The registry lines turned into installation paths. *)
Definition registryPaths (stdout : str) : list str :=
  map (fun l => Re.replaceRe pathSuffixRe (JsString.trim l) [])
      (JsString.split "010" stdout).

(** What [findLaunchRegisteredApps] does with the output of the command. *)
Definition installationsOf (stdout : str) (defaultPaths suffixes : list str)
  : W (list str) :=
  let paths :=
    filter JsString.truthy (defaultPaths ++ registryPaths stdout) in
  let preferred := getPreferredPath env in
  let paths :=
    match preferred with
    | Some p => if JsString.truthy p then paths ++ [p] else paths
    | None => paths
    end in
  forOf paths
    (fun installations inst =>
       forOf suffixes
         (fun installations suffix =>
            let execPath := posix_join h (JsString.trim inst) suffix in
            ok <- fsAccess h execPath ;;
            ret (if ok then setAdd execPath installations
                 else installations))
         installations)
    [].

Definition findLaunchRegisteredApps (pattern : str)
           (defaultPaths suffixes : list str) : W (list str) :=
  stdout <- execaCommand h (registryCommand pattern) ;;
  installationsOf stdout defaultPaths suffixes.

(** The three rules [createPriorities] makes of one variant. *)
Definition locationRules (home : option str) (p : VariantSpec)
  : result (list Util.IPriority) :=
  rbind (Re.new_RegExp (lit "^/Applications/.*" ++ name p)) (fun r1 =>
  rbind (Re.new_RegExp
           (lit "^" ++ template home ++ lit "/Applications/.*" ++ name p))
        (fun r2 =>
  rbind (Re.new_RegExp (lit "^/Volumes/.*" ++ name p)) (fun r3 =>
  Ok [ {| Util.regex := r1; Util.weight := weight p + 100;
          Util.quality := quality p |};
       {| Util.regex := r2; Util.weight := weight p;
          Util.quality := quality p |};
       {| Util.regex := r3; Util.weight := weight p - 100;
          Util.quality := quality p |} ]))).

(** [this.env.HOME && escapeRegexSpecialChars(this.env.HOME)] *)
Definition escapedHome : option str :=
  match env (lit "HOME") with
  | Some v =>
      if JsString.truthy v then Some (Util.escapeRegexSpecialChars v)
      else Some v
  | None => None
  end.

Definition createPriorities (priorities : list VariantSpec)
  : result (list Util.IPriority) :=
  let home := escapedHome in
  let preferred := getPreferredPath env in
  rbind (reduce (fun acc p =>
                   rbind (locationRules home p)
                         (fun rules => Ok (acc ++ rules)))
                priorities [])
        (fun mapped =>
           match preferred with
           | Some p =>
               if JsString.truthy p
               then rbind (Re.new_RegExp (Util.escapeRegexSpecialChars p))
                      (fun re =>
                         Ok ({| Util.regex := re; Util.weight := 151;
                                Util.quality := Custom |} :: mapped))
               else Ok mapped
           | None => Ok mapped
           end).

End Base.

End Darwin.

(** ** [DarwinFirefoxBrowserFinder] *)
Module Firefox.

Definition wellKnownPaths : list IExecutable :=
  [ {| path := lit "/Applications/Firefox.app/Contents/MacOS/firefox";
       quality := Stable |};
    {| path := lit "/Applications/Firefox Developer Edition.app/Contents/MacOS/firefox";
       quality := Dev |};
    {| path := lit "/Applications/Firefox Nightly.app/Contents/MacOS/firefox";
       quality := Canary |} ].

Definition getPreferredPath (env : ProcessEnv) : option str :=
  env (lit "FIREFOX_PATH").

Definition variants : list Darwin.VariantSpec :=
  [ {| Darwin.name := lit "Firefox.app"; Darwin.weight := 0;
       Darwin.quality := Stable |};
    {| Darwin.name := lit "Firefox Nightly.app"; Darwin.weight := 1;
       Darwin.quality := Canary |};
    {| Darwin.name := lit "Firefox Developer Edition.app"; Darwin.weight := 2;
       Darwin.quality := Dev |} ].

Definition suffixes : list str := [lit "/Contents/MacOS/firefox"].
Definition defaultPaths : list str := [lit "/Applications/Firefox.app"].
Definition pattern : str := lit "Firefox[A-Za-z ]*.app".

Section Finder.

Variable h : Host.
Variable env : ProcessEnv.
(** [sort] of [./util], which is not under src/: any function. *)
Variable sort : list str -> list Util.IPriority -> list IExecutable.

Definition findAllInner : W (list IExecutable) :=
  installations <-
    Darwin.findLaunchRegisteredApps h env getPreferredPath
      pattern defaultPaths suffixes ;;
  priorities <-
    liftR (Darwin.createPriorities env getPreferredPath variants) ;;
  ret (sort installations priorities).

Definition findAll : M Promise := Darwin.findAll findAllInner.

Definition findWhere (predicate : IExecutable -> bool)
  : M (option IExecutable) :=
  Darwin.findWhere h wellKnownPaths findAllInner predicate.

End Finder.

End Firefox.

(** ** Vocabulary of the properties *)

(** A use of the finder by a caller. *)
Inductive call : Type :=
| CallFindAll
| CallFindWhere (predicate : IExecutable -> bool).

Section Calls.

Variable h : Host.
Variable wellKnownPaths : list IExecutable.
Variable findAllInner : W (list IExecutable).

(** One call: the promises [findAll] handed to the caller, and the state
    the call leaves. *)
Definition runCall (c : call) (st : State) : list Promise * State :=
  match c with
  | CallFindAll =>
      match Darwin.findAll findAllInner st with
      | (Ok p, st') => ([p], st')
      | (_, st') => ([], st')
      end
  | CallFindWhere predicate =>
      ([], snd (Darwin.findWhere h wellKnownPaths findAllInner predicate st))
  end.

Fixpoint runCalls (cs : list call) (st : State) : list Promise * State :=
  match cs with
  | [] => ([], st)
  | c :: t =>
      let (ps, st1) := runCall c st in
      let (qs, st2) := runCalls t st1 in
      (ps ++ qs, st2)
  end.

End Calls.

(** The well-known paths [findWhere] probes: those satisfying the predicate,
    up to the first accessible one. *)
Fixpoint probedWellKnown (h : Host) (predicate : IExecutable -> bool)
         (l : list IExecutable) : list str :=
  match l with
  | [] => []
  | t :: rest =>
      if predicate t
      then path t ::
           (if fs_access h (path t) then []
            else probedWellKnown h predicate rest)
      else probedWellKnown h predicate rest
  end.

Definition addProbes (st : State) (ps : list str) : State :=
  {| foundAll := foundAll st; scans := scans st;
     world := {| commands := commands (world st);
                 probes := probes (world st) ++ ps |} |}.

(** The finder's memo and its scan count agree: no scan was run while the
    memo is empty, one was run once it is filled. *)
Definition memoInv (st : State) : Prop :=
  match foundAll st with
  | None => scans st = 0
  | Some _ => scans st = 1
  end.

Definition isFindAll (c : call) : bool :=
  match c with CallFindAll => true | CallFindWhere _ => false end.

(** The reading of the retry-after-failure sentence: once the promise of a
    first [findAll] has rejected, the next [findAll] runs a new scan. *)
Definition retriesAfterFailure : Prop :=
  forall h env sort w p st1 e,
    Firefox.findAll h env sort (newFinder w) = (Ok p, st1) ->
    settled p = Throw e ->
    scans (snd (Firefox.findAll h env sort st1)) = S (scans st1).

(** ** Sample hosts

    [path.posix.join] of Node for two arguments, and hosts to run the finder
    on. *)
Module Posix.

Definition isDot (s : str) : bool := JsString.eqb s (lit ".").
Definition isDotDot (s : str) : bool := JsString.eqb s (lit "..").

(** Segments are resolved left to right; [acc] is most recent first. *)
Fixpoint resolve (allowAbove : bool) (segs acc : list str) : list str :=
  match segs with
  | [] => rev acc
  | s :: t =>
      if JsString.truthy s && negb (isDot s) then
        if isDotDot s then
          match acc with
          | top :: acc' =>
              if isDotDot top then resolve allowAbove t (s :: acc)
              else resolve allowAbove t acc'
          | [] => resolve allowAbove t (if allowAbove then [s] else [])
          end
        else resolve allowAbove t (s :: acc)
      else resolve allowAbove t acc
  end.

Definition normalize (p : str) : str :=
  match p with
  | [] => lit "."
  | _ :: _ =>
      let isAbsolute := JsString.startsWith (lit "/") p in
      let trailing := JsString.startsWith (lit "/") (rev p) in
      let body :=
        JsString.join "/" (resolve (negb isAbsolute) (JsString.split "/" p) []) in
      match body with
      | [] => if isAbsolute then lit "/"
              else if trailing then lit "./" else lit "."
      | _ :: _ =>
          (if isAbsolute then lit "/" else []) ++ body
          ++ (if trailing then lit "/" else [])
      end
  end.

Definition join (a b : str) : str :=
  match a, b with
  | [], [] => lit "."
  | [], _ => normalize b
  | _, [] => normalize a
  | _, _ => normalize (a ++ lit "/" ++ b)
  end.

End Posix.

Definition newline : ascii := "010"%char.

(** HOME is /Users/me; nothing else is set. *)
Definition sampleEnv : ProcessEnv :=
  fun k => if JsString.eqb k (lit "HOME") then Some (lit "/Users/me") else None.

Definition emptyWorld : World := {| commands := []; probes := [] |}.

Definition sampleStdout : str :=
  lit " /Applications/Firefox.app (0x1a2b3c)" ++ [newline]
  ++ lit " /Volumes/Disk/Firefox Nightly.app" ++ [newline].

(** The registry lists two installations and both executables are there. *)
Definition sampleHost : Host :=
  {| execa_command := fun _ _ => inr sampleStdout;
     fs_access := fun p =>
       JsString.eqb p (lit "/Applications/Firefox.app/Contents/MacOS/firefox")
       || JsString.eqb p
            (lit "/Volumes/Disk/Firefox Nightly.app/Contents/MacOS/firefox");
     posix_join := Posix.join |}.

(** The first command fails; a later one would answer. *)
Definition flakyHost : Host :=
  {| execa_command := fun n _ =>
       if n =? 0 then inl (ExternalCommandFailure (lit "exit code 127"))
       else inr sampleStdout;
     fs_access := fun _ => true;
     posix_join := Posix.join |}.

(** ** Vocabulary of the pattern properties *)

(** The parser state after reading the characters of [s] as literals. *)
Definition pushLits (st : Re.pstate) (s : str) : Re.pstate :=
  fold_left (fun st c => Re.pushAtom st (Re.Chr c)) s st.

(** A piece of pattern text that reads as the literal [l]. *)
Definition readsAs (text l : str) : Prop :=
  forall st, Re.pmode st = Re.MNormal -> Re.steps st text = Ok (pushLits st l).

(** Characters that stand for themselves in a pattern. *)
Definition isPlain (c : ascii) : bool :=
  match Re.classify c with
  | Re.TRBracket | Re.TRBrace | Re.TSlash | Re.TDash | Re.TOther => true
  | _ => false
  end.

(** The outermost group being read. *)
Definition bottom (st : Re.pstate) : Re.frame :=
  last (Re.stack st) (Re.cur st).

(** The outermost group has no alternative yet and its terms began with
    those of [P] (most recent first). *)
Definition beginsWith (P : list Re.regex) (st : Re.pstate) : Prop :=
  exists X, Re.terms (bottom st) = X ++ P /\ Re.alts (bottom st) = [].

(** What of a parser state decides whether the rest of the text is
    accepted. *)
Inductive pendingKind : Type := KNone | KGroupStart | KAtom | KQuant | KLazy.

Definition kindOf (p : Re.pending) : pendingKind :=
  match p with
  | Re.PNone => KNone
  | Re.PGroupStart => KGroupStart
  | Re.PAtom _ => KAtom
  | Re.PQuant _ => KQuant
  | Re.PLazy _ => KLazy
  end.

Definition shape (st : Re.pstate) : Re.mode * pendingKind * nat :=
  (Re.pmode st, kindOf (Re.pend st), List.length (Re.stack st)).

(** Two runs end the same way: both normally (with related values), both
    with the same exception, or both outside the fragment. *)
Definition sameOutcome {A B : Type} (R : A -> B -> Prop)
           (r1 : result A) (r2 : result B) : Prop :=
  match r1, r2 with
  | Ok a, Ok b => R a b
  | Throw e1, Throw e2 => e1 = e2
  | OutOfModel, OutOfModel => True
  | _, _ => False
  end.

(** No [|] in a piece of pattern text. *)
Definition noBar (s : str) : bool :=
  forallb (fun c => negb (Ascii.eqb c "|")) s.

(** The state of the parser after [^], a text that reads as the literal [l],
    and a dot. *)
Definition afterAnchor (l : str) : Re.pstate :=
  Re.pushAtom (pushLits (Re.pushAssertion Re.init Re.Bol) l) Re.Any.

(** What a rule is made of: its pattern text, weight and quality. *)
Definition ruleView (r : Util.IPriority) : str * Z * Quality :=
  (Re.source (Util.regex r), Util.weight r, Util.quality r).

(** The rule's matcher is what its pattern text compiles to. *)
Definition wellFormedRule (r : Util.IPriority) : Prop :=
  Re.compile (Re.source (Util.regex r)) = Ok (Re.matcher (Util.regex r)).

(** The home directory as the home rule spells it: the value of HOME, or
    the text [undefined] when HOME is not set. *)
Definition homeText (env : ProcessEnv) : str :=
  Darwin.template (env (lit "HOME")).

(** The three location rules of one variant, as the rule builder of the spec
    lists them: Applications at [weight + 100], the home Applications at
    [weight], Volumes at [weight - 100], each with the variant's quality. *)
Definition locationTriple (env : ProcessEnv) (v : Darwin.VariantSpec)
           (t : list Util.IPriority) : Prop :=
  exists r1 r2 r3,
    t = [r1; r2; r3]
    /\ ruleView r1 = (lit "^/Applications/.*" ++ Darwin.name v,
                      (Darwin.weight v + 100)%Z, Darwin.quality v)
    /\ ruleView r2 = (lit "^" ++ Darwin.template (Darwin.escapedHome env)
                        ++ lit "/Applications/.*" ++ Darwin.name v,
                      Darwin.weight v, Darwin.quality v)
    /\ ruleView r3 = (lit "^/Volumes/.*" ++ Darwin.name v,
                      (Darwin.weight v - 100)%Z, Darwin.quality v)
    /\ wellFormedRule r1 /\ wellFormedRule r2 /\ wellFormedRule r3.

(** The rule put first for a preferred path: none when the path is undefined
    or empty. *)
Definition overrideRule (preferred : option str) (o : list Util.IPriority)
  : Prop :=
  match preferred with
  | Some p =>
      if JsString.truthy p
      then exists r,
          o = [r]
          /\ ruleView r = (Util.escapeRegexSpecialChars p, 151%Z, Custom)
          /\ wellFormedRule r
      else o = []
  | None => o = []
  end.

(** A variant name that can stand at the end of a location pattern. *)
Definition nameOk (v : Darwin.VariantSpec) : bool :=
  isOk (Re.compile (lit "^/Applications/.*" ++ Darwin.name v)).

(** ... and that has no alternation of its own. *)
Definition safeName (v : Darwin.VariantSpec) : bool :=
  nameOk v && noBar (Darwin.name v).

(** The candidate is not ranked by the rule of the preferred path. *)
Definition overrideMisses (preferred : option str) (c : str) : bool :=
  match preferred with
  | Some p => negb (JsString.truthy p && JsString.includes p c)
  | None => true
  end.

(** The reading of the outranking sentence: the rule of a supplied preferred
    path comes first, is [Custom], and weighs more than [weight + 100] of
    every variant, whatever the variants' weights. *)
Definition overrideOutranksEveryVariant : Prop :=
  forall env getPreferredPath ps p rules,
    getPreferredPath env = Some p ->
    JsString.truthy p = true ->
    Darwin.createPriorities env getPreferredPath ps = Ok rules ->
    exists o rest,
      rules = o :: rest
      /\ Util.quality o = Custom
      /\ forall v, In v ps -> (Util.weight o > Darwin.weight v + 100)%Z.

(** The reading of the exact-match sentence: the rule of the preferred path
    matches a candidate exactly when the candidate is that path. *)
Definition overrideMatchesOnlyPreferred : Prop :=
  forall env getPreferredPath ps p o rest c,
    getPreferredPath env = Some p ->
    JsString.truthy p = true ->
    Darwin.createPriorities env getPreferredPath ps = Ok (o :: rest) ->
    (Re.testRe (Util.regex o) c = true <-> c = p).

(** HOME and the preferred path are as given. *)
Definition envOf (home preferred : option str) : ProcessEnv :=
  fun k =>
    if JsString.eqb k (lit "HOME") then home
    else if JsString.eqb k (lit "FIREFOX_PATH") then preferred
    else None.

(** A variant heavier than the ones of the source. *)
Definition heavyVariant : Darwin.VariantSpec :=
  {| Darwin.name := lit "Firefox.app"; Darwin.weight := 100;
     Darwin.quality := Stable |}.

Definition stableVariant : Darwin.VariantSpec :=
  {| Darwin.name := lit "Firefox.app"; Darwin.weight := 0;
     Darwin.quality := Stable |}.

(** HOME and a preferred path full of pattern syntax. *)
Definition trickyEnv : ProcessEnv :=
  envOf (Some (lit "/Users/a.b (c)*")) (Some (lit "/opt/fire.fox[1]+")).

(** ** Vocabulary of the marker property *)

(** The digits the marker pattern accepts: [[a-f0-9]]. *)
Definition isLowerHex (c : ascii) : bool :=
  Re.inClass false [("a"%char, "f"%char); ("0"%char, "9"%char)] c.

(** How many such digits [s] begins with. *)
Fixpoint hexRun (s : str) : nat :=
  match s with
  | c :: t => if isLowerHex c then S (hexRun t) else 0
  | [] => 0
  end.

(** The length of the marker [ (0x...)] that [s] begins with, if any. *)
Definition markerAt (s : str) : option nat :=
  if JsString.startsWith (lit " (0x") s then
    match skipn 4 s with
    | c :: r =>
        if isLowerHex c then
          match skipn (hexRun r) r with
          | d :: _ => if Ascii.eqb ")" d then Some (6 + hexRun r) else None
          | [] => None
          end
        else None
    | [] => None
    end
  else None.

(** The class [[a-f0-9]] of the marker pattern. *)
Definition hexClass : Re.regex :=
  Re.Cls false [("a"%char, "f"%char); ("0"%char, "9"%char)].

(** The string without its first marker. *)
Fixpoint stripMarker (s : str) : str :=
  match markerAt s with
  | Some n => skipn n s
  | None =>
      match s with
      | [] => []
      | c :: t => c :: stripMarker t
      end
  end.

(** The marker with the digits [hex]. *)
Definition marker (hex : str) : str := lit " (0x" ++ hex ++ lit ")".

(** No marker anywhere in [s]. *)
Definition noMarker (s : str) : Prop := forall i, markerAt (skipn i s) = None.

(** A line of the output has no line feed. *)
Definition noNewline (l : str) : bool :=
  forallb (fun c => negb (Ascii.eqb c newline)) l.

(** A hexadecimal digit, of either case. *)
Definition isHexDigit (c : ascii) : bool :=
  Re.inClass false [("0"%char, "9"%char); ("a"%char, "f"%char);
                    ("A"%char, "F"%char)] c.

(** The reading of the marker sentence: among the lines of the command's
    output, a line followed by a marker of hexadecimal digits gives the
    installations the line without the marker gives. *)
Definition markerAlwaysStripped : Prop :=
  forall h env getPreferredPath defaultPaths suffixes before after line hex w,
    hex <> [] ->
    forallb isHexDigit hex = true ->
    forallb noNewline (before ++ line :: after) = true ->
    Darwin.installationsOf h env getPreferredPath
      (JsString.join newline (before ++ (line ++ marker hex) :: after))
      defaultPaths suffixes w
    = Darwin.installationsOf h env getPreferredPath
        (JsString.join newline (before ++ line :: after))
        defaultPaths suffixes w.

(** Every path is accessible; the command prints nothing. *)
Definition openHost : Host :=
  {| execa_command := fun _ _ => inr [];
     fs_access := fun _ => true;
     posix_join := Posix.join |}.

(** ** Vocabulary of the scan properties *)

(** The array [paths] of [findLaunchRegisteredApps], as it stands when the
    loops begin: the default paths and the registry paths that are not empty,
    then the preferred path when it is not empty. *)
Definition scanPaths (env : ProcessEnv)
           (getPreferredPath : ProcessEnv -> option str)
           (stdout : str) (defaultPaths : list str) : list str :=
  let paths :=
    filter JsString.truthy (defaultPaths ++ Darwin.registryPaths stdout) in
  match getPreferredPath env with
  | Some p => if JsString.truthy p then paths ++ [p] else paths
  | None => paths
  end.

(** The executable paths the two loops go through, in their order: for each
    path, for each suffix, [posix.join(inst.trim(), suffix)]. *)
Definition candidates (h : Host) (paths suffixes : list str) : list str :=
  flat_map (fun inst =>
              map (fun suffix => posix_join h (JsString.trim inst) suffix)
                  suffixes)
           paths.

(** The elements of a list in the order of their first occurrence. *)
Fixpoint firstOccurrences (l : list str) : list str :=
  match l with
  | [] => []
  | x :: t => x :: filter (fun y => negb (JsString.eqb x y)) (firstOccurrences t)
  end.

(** The collaborators' record after one more command, and after more
    probes. *)
Definition ran (w : World) (cmd : str) : World :=
  {| commands := commands w ++ [cmd]; probes := probes w |}.

Definition probed (w : World) (ps : list str) : World :=
  {| commands := commands w; probes := probes w ++ ps |}.

(** A line with a character that is not white space. *)
Definition visible (l : str) : bool := JsString.truthy (JsString.trim l).

(** A preferred path as the source tests it: an empty one counts as none. *)
Definition given (preferred : option str) : option str :=
  match preferred with
  | Some p => if JsString.truthy p then Some p else None
  | None => None
  end.

(** One probe of the inner loop: the path joins the set when it is
    accessible. *)
Definition probeAdd (h : Host) (installations : list str) (p : str)
  : list str :=
  if fs_access h p then Darwin.setAdd p installations else installations.

(** A variant whose name is not a pattern: its group is never closed. *)
Definition unbalancedVariant : Darwin.VariantSpec :=
  {| Darwin.name := lit "Firefox (beta.app"; Darwin.weight := 3;
     Darwin.quality := Unknown |}.

(** ** Vocabulary of the matching of location rules *)

(** The parser state after reading a run of atoms. *)
Definition pushAtoms (st : Re.pstate) (rs : list Re.regex) : Re.pstate :=
  fold_left Re.pushAtom rs st.

(** A name made of dots and of characters that stand for themselves, as the
    names of the Firefox variants are. *)
Definition simpleName (n : str) : bool :=
  forallb (fun c => isPlain c || Ascii.eqb c ".") n.

(** What a character of such a name is read as. *)
Definition atomOf (c : ascii) : Re.regex :=
  if Ascii.eqb c "." then Re.Any else Re.Chr c.

(** [s] begins with the name, a dot of the name standing for any one
    character that is not a line terminator. *)
Fixpoint fitsName (n s : str) : bool :=
  match n, s with
  | [], _ => true
  | a :: n', b :: s' =>
      (if Ascii.eqb a "." then negb (Re.isLineTerminator b) else Ascii.eqb a b)
      && fitsName n' s'
  | _ :: _, [] => false
  end.

(** The name is found in [s] after characters none of which is a line
    terminator. *)
Fixpoint reachesName (n s : str) : bool :=
  fitsName n s ||
  match s with
  | [] => false
  | c :: t => negb (Re.isLineTerminator c) && reachesName n t
  end.

(** The candidate begins with the root and the name is found below it on
    the same line. *)
Definition belowRoot (root n c : str) : bool :=
  JsString.startsWith root c && reachesName n (skipn (List.length root) c).

(** The name is found somewhere in [s]. *)
Fixpoint holdsName (n s : str) : bool :=
  fitsName n s ||
  match s with
  | [] => false
  | _ :: t => holdsName n t
  end.

(** ** Vocabulary of the outcome of [createPriorities] *)

(** What [new RegExp] makes of the Applications pattern of each variant name
    in turn: the first name that is not accepted decides, with its
    [SyntaxError], or as a text outside the fragment of [Re]. *)
Fixpoint namesOutcome (ps : list Darwin.VariantSpec) : result unit :=
  match ps with
  | [] => Ok tt
  | v :: t =>
      rbind (Re.compile (lit "^/Applications/.*" ++ Darwin.name v))
            (fun _ => namesOutcome t)
  end.

(** ** The command line under the shell

    [execa.command(line, { shell: true })] gives the line to [/bin/sh -c].
    The line of the source is a pipeline, [lsregister -dump | awk '...']:
    the shell starts both programs, what the dump writes to its standard
    output is the input of awk whatever the dump ends with, and the exit
    status of the line is the exit status of awk, its last command (the line
    asks the shell for nothing else).  A dump that cannot be started writes
    nothing and ends with status 127.  [execa] rejects when the status of the
    line is not 0 and resolves with the standard output of the line when it
    is. *)

(** What a program ends with. *)
Record Exit : Type := { status : nat; output : str }.

(** The machine the line runs on: the [n]-th run of the registry dump, awk as
    started by a command line on an input, and the file system. *)
Record Machine : Type :=
  { dump : nat -> Exit;
    awk : str -> str -> Exit;
    access : str -> bool;
    pathJoin : str -> str -> str }.

Fixpoint digits (fuel n : nat) (acc : str) : str :=
  match fuel with
  | O => acc
  | S fuel' =>
      let acc' := ascii_of_nat (48 + n mod 10) :: acc in
      if n / 10 =? 0 then acc' else digits fuel' (n / 10) acc'
  end.

(** The rejection of [execa] for a line that ended with a status other
    than 0. *)
Definition exitFailure (code : nat) : error :=
  ExternalCommandFailure
    (lit "Command failed with exit code " ++ digits (S code) code []).

(** The collaborators on such a machine. *)
Definition pipelineHost (m : Machine) : Host :=
  {| execa_command := fun n line =>
       let piped := output (dump m n) in
       let last := awk m line piped in
       if status last =? 0 then inr (output last)
       else inl (exitFailure (status last));
     fs_access := access m;
     posix_join := pathJoin m |}.

(** The same machine with other exit statuses of the dump. *)
Definition withDumpStatus (m : Machine) (code : nat -> nat) : Machine :=
  {| dump := fun n => {| status := code n; output := output (dump m n) |};
     awk := awk m;
     access := access m;
     pathJoin := pathJoin m |}.



(** The dump prints the sample output; awk passes it on, or fails when told
    to. *)
Definition sampleMachine (awkStatus : nat) : Machine :=
  {| dump := fun _ => {| status := 0; output := sampleStdout |};
     awk := fun _ input => {| status := awkStatus; output := input |};
     access := fs_access sampleHost;
     pathJoin := Posix.join |}.

(** ** Vocabulary of the precedence of locations *)


(** The home Applications folder lies under neither /Applications/ nor
    /Volumes/: HOME is not empty, and is neither on a mounted volume nor
    inside /Applications/. *)
Definition homeApart (env : ProcessEnv) : bool :=
  negb (JsString.startsWith (lit "/Applications/")
          (homeText env ++ lit "/Applications/"))
  && negb (JsString.startsWith (lit "/Volumes/")
             (homeText env ++ lit "/Applications/")).



(** * Properties *)

(** ** The collaborators' record *)

Lemma forOf_commands {A T : Type} (body : T -> A -> W T) :
  (forall acc x w, commands (snd (body acc x w)) = commands w) ->
  forall l acc w, commands (snd (forOf l body acc w)) = commands w.
Proof.
  intros Hbody l; induction l as [|x t IH]; intros acc w; simpl.
  - reflexivity.
  - unfold bind. specialize (Hbody acc x w).
    destruct (body acc x w) as [[a| e |] w']; simpl in *; try assumption.
    rewrite IH. assumption.
Qed.

Lemma forOf_ok {A T : Type} (body : T -> A -> W T) :
  (forall acc x w, isOk (fst (body acc x w)) = true) ->
  forall l acc w, isOk (fst (forOf l body acc w)) = true.
Proof.
  intros Hbody l; induction l as [|x t IH]; intros acc w; simpl.
  - reflexivity.
  - unfold bind. specialize (Hbody acc x w).
    destruct (body acc x w) as [[a| e |] w']; simpl in *;
      try discriminate. apply IH.
Qed.

Section RegistryScan.

Variable h : Host.
Variable env : ProcessEnv.
Variable getPreferredPath : ProcessEnv -> option str.

(** The scan runs exactly one command, whatever the command answers. *)
Lemma findLaunchRegisteredApps_commands pattern defaultPaths suffixes w :
  commands (snd (Darwin.findLaunchRegisteredApps h env getPreferredPath
                   pattern defaultPaths suffixes w))
  = commands w ++ [Darwin.registryCommand pattern].
Proof.
  unfold Darwin.findLaunchRegisteredApps, bind, execaCommand.
  destruct (execa_command h _ _) as [e|stdout]; simpl; [reflexivity|].
  unfold Darwin.installationsOf. cbv zeta.
  rewrite forOf_commands; [reflexivity|].
  intros acc x w0. apply forOf_commands.
  intros acc' y w1. reflexivity.
Qed.

(** A failing command is the scan's failure. *)
Lemma findLaunchRegisteredApps_throw pattern defaultPaths suffixes w e :
  execa_command h (List.length (commands w)) (Darwin.registryCommand pattern)
  = inl e ->
  fst (Darwin.findLaunchRegisteredApps h env getPreferredPath
         pattern defaultPaths suffixes w) = Throw e.
Proof.
  intros He.
  unfold Darwin.findLaunchRegisteredApps, bind, execaCommand.
  rewrite He. reflexivity.
Qed.

(** A command that answers lets the scan end normally. *)
Lemma findLaunchRegisteredApps_ok pattern defaultPaths suffixes w stdout :
  execa_command h (List.length (commands w)) (Darwin.registryCommand pattern)
  = inr stdout ->
  isOk (fst (Darwin.findLaunchRegisteredApps h env getPreferredPath
               pattern defaultPaths suffixes w)) = true.
Proof.
  intros He.
  unfold Darwin.findLaunchRegisteredApps, bind, execaCommand.
  rewrite He. unfold Darwin.installationsOf. cbv zeta. apply forOf_ok.
  intros acc x w0. apply forOf_ok.
  intros acc' y w1. reflexivity.
Qed.

End RegistryScan.

Lemma findWellKnown_run h predicate l w :
  Darwin.findWellKnown h predicate l w
  = (Ok (find (fun t => predicate t && fs_access h (path t)) l),
     {| commands := commands w;
        probes := probes w ++ probedWellKnown h predicate l |}).
Proof.
  revert w; induction l as [|t rest IH]; intros w; simpl.
  - unfold ret. rewrite app_nil_r. destruct w; reflexivity.
  - destruct (predicate t); simpl.
    + unfold bind, Util.canAccess, fsAccess.
      destruct (fs_access h (path t)); simpl.
      * reflexivity.
      * rewrite IH. simpl. rewrite <- app_assoc. reflexivity.
    + apply IH.
Qed.

(** ** [findWhere] *)

Lemma findWhere_run h wellKnownPaths findAllInner predicate st :
  Darwin.findWhere h wellKnownPaths findAllInner predicate st
  = let st0 := addProbes st (probedWellKnown h predicate wellKnownPaths) in
    match find (fun t => predicate t && fs_access h (path t)) wellKnownPaths with
    | Some t => (Ok (Some t), st0)
    | None =>
        let (rp, st1) := Darwin.findAll findAllInner st0 in
        (rbind rp (fun p => rbind (settled p)
                              (fun all => Ok (find predicate all))), st1)
    end.
Proof.
  unfold Darwin.findWhere, bind, liftW.
  rewrite findWellKnown_run. cbn zeta. unfold addProbes.
  destruct (find _ wellKnownPaths) as [t|]; [reflexivity|].
  unfold Darwin.findAll; simpl.
  destruct (foundAll st) as [p|]; simpl.
  - unfold await. destruct (settled p); reflexivity.
  - destruct (findAllInner _) as [r w1]; simpl.
    unfold await; simpl. destruct r; reflexivity.
Qed.

(** C9. [findWhere] walks the well-known paths in declaration order and
    returns the first that satisfies the predicate and is accessible; in that
    case the finder's memo, its scan count and the commands run are left as
    they were (only accessibility probes were made).  When no well-known path
    qualifies, it calls [findAll] and answers with the first element of the
    awaited list that satisfies the predicate, if any. *)
Theorem findWhere_fast_path_then_findAll
        h wellKnownPaths findAllInner predicate st :
  let qualifies := fun t => predicate t && fs_access h (path t) in
  let st0 := addProbes st (probedWellKnown h predicate wellKnownPaths) in
  (forall t,
      find qualifies wellKnownPaths = Some t ->
      Darwin.findWhere h wellKnownPaths findAllInner predicate st
      = (Ok (Some t), st0)
      /\ foundAll st0 = foundAll st
      /\ scans st0 = scans st
      /\ commands (world st0) = commands (world st))
  /\ (find qualifies wellKnownPaths = None ->
      exists p st1,
        Darwin.findAll findAllInner st0 = (Ok p, st1)
        /\ Darwin.findWhere h wellKnownPaths findAllInner predicate st
           = (rbind (settled p) (fun all => Ok (find predicate all)), st1)).
Proof.
  intros qualifies st0. subst qualifies st0.
  rewrite findWhere_run. cbv zeta. split.
  - intros t Ht. rewrite Ht. repeat split; reflexivity.
  - intros Hnone. rewrite Hnone.
    destruct (Darwin.findAll findAllInner _) as [rp st1] eqn:Hall.
    assert (Hp : exists p, rp = Ok p).
    { unfold Darwin.findAll in Hall.
      destruct (foundAll _) as [p|].
      - inversion Hall; eauto.
      - destruct (findAllInner _); inversion Hall; eauto. }
    destruct Hp as [p ->]. exists p, st1. split; reflexivity.
Qed.

(** The end-to-end scenario of the spec on the sample host. *)
Example firefox_scan_sample :
  fst (Firefox.findAllInner sampleHost sampleEnv Util.sort emptyWorld)
  = Ok [ {| path := lit "/Applications/Firefox.app/Contents/MacOS/firefox";
            quality := Stable |};
         {| path := lit "/Volumes/Disk/Firefox Nightly.app/Contents/MacOS/firefox";
            quality := Canary |} ].
Proof. vm_compute. reflexivity. Qed.

Lemma findWhere_fast_path_witness :
  Darwin.findWhere sampleHost Firefox.wellKnownPaths
    (Firefox.findAllInner sampleHost sampleEnv Util.sort)
    (fun _ => true) (newFinder emptyWorld)
  = (Ok (Some {| path := lit "/Applications/Firefox.app/Contents/MacOS/firefox";
                 quality := Stable |}),
     addProbes (newFinder emptyWorld)
       [lit "/Applications/Firefox.app/Contents/MacOS/firefox"]).
Proof.
  destruct (findWhere_fast_path_then_findAll sampleHost Firefox.wellKnownPaths
              (Firefox.findAllInner sampleHost sampleEnv Util.sort)
              (fun _ => true) (newFinder emptyWorld)) as [Hfast _].
  destruct (Hfast {| path := lit "/Applications/Firefox.app/Contents/MacOS/firefox";
                     quality := Stable |} eq_refl) as [Hrun _].
  exact Hrun.
Defined.

(** ** Memoization of [findAll] *)

Lemma findAll_memo findAllInner st :
  memoInv st ->
  exists p st',
    Darwin.findAll findAllInner st = (Ok p, st')
    /\ foundAll st' = Some p
    /\ memoInv st'
    /\ (forall q, foundAll st = Some q -> p = q /\ st' = st).
Proof.
  unfold memoInv, Darwin.findAll. intros Hinv.
  destruct (foundAll st) as [q|] eqn:Hq.
  - exists q, st. rewrite Hq. repeat split; auto; congruence.
  - destruct (findAllInner (world st)) as [r w'].
    eexists; eexists; split; [reflexivity|]. simpl.
    repeat split; auto; intros; discriminate.
Qed.

Lemma findWhere_memo h wellKnownPaths findAllInner predicate st :
  memoInv st ->
  let st' := snd (Darwin.findWhere h wellKnownPaths findAllInner predicate st) in
  memoInv st' /\ (forall q, foundAll st = Some q -> foundAll st' = Some q).
Proof.
  intros Hinv. rewrite findWhere_run. cbv zeta.
  set (st0 := addProbes st _).
  assert (Hinv0 : memoInv st0) by exact Hinv.
  destruct (find _ wellKnownPaths); simpl.
  - split; auto.
  - destruct (findAll_memo findAllInner st0 Hinv0) as (p & st1 & Hrun & Hp & Hinv1 & Hsame).
    rewrite Hrun. simpl. split; [assumption|].
    intros q Hq. destruct (Hsame q Hq) as [-> ->]. exact Hq.
Qed.

Lemma runCall_memo h wellKnownPaths findAllInner c st :
  memoInv st ->
  let r := runCall h wellKnownPaths findAllInner c st in
  memoInv (snd r)
  /\ (forall q, foundAll st = Some q -> foundAll (snd r) = Some q)
  /\ Forall (fun p => foundAll (snd r) = Some p) (fst r)
  /\ List.length (fst r) = (if isFindAll c then 1 else 0).
Proof.
  intros Hinv. destruct c as [|predicate]; simpl.
  - destruct (findAll_memo findAllInner st Hinv) as (p & st1 & Hrun & Hp & Hinv1 & Hsame).
    rewrite Hrun. simpl. repeat split; auto.
    intros q Hq. destruct (Hsame q Hq) as [-> ->]. exact Hq.
  - destruct (findWhere_memo h wellKnownPaths findAllInner predicate st Hinv)
      as [Hinv1 Hkeep].
    repeat split; auto.
Qed.

Lemma runCalls_memo h wellKnownPaths findAllInner cs :
  forall st,
    memoInv st ->
    let r := runCalls h wellKnownPaths findAllInner cs st in
    memoInv (snd r)
    /\ (forall q, foundAll st = Some q -> foundAll (snd r) = Some q)
    /\ Forall (fun p => foundAll (snd r) = Some p) (fst r)
    /\ List.length (fst r) = List.length (filter isFindAll cs).
Proof.
  induction cs as [|c t IH]; intros st Hinv; simpl.
  - repeat split; auto.
  - destruct (runCall_memo h wellKnownPaths findAllInner c st Hinv)
      as (Hinv1 & Hkeep1 & Hall1 & Hlen1).
    destruct (runCall h wellKnownPaths findAllInner c st) as [ps st1].
    simpl in *.
    destruct (IH st1 Hinv1) as (Hinv2 & Hkeep2 & Hall2 & Hlen2).
    destruct (runCalls h wellKnownPaths findAllInner t st1) as [qs st2].
    simpl in *. repeat split; auto.
    + apply Forall_app. split; [|assumption].
      eapply Forall_impl; [|exact Hall1]. simpl. intros p Hp. auto.
    + rewrite length_app, Hlen1, Hlen2.
      destruct (isFindAll c); reflexivity.
Qed.

Lemma runCalls_commands h wellKnownPaths findAllInner :
  (forall w, List.length (commands (snd (findAllInner w)))
             = S (List.length (commands w))) ->
  forall cs st,
    List.length (commands (world (snd (runCalls h wellKnownPaths findAllInner cs st))))
    + scans st
    = List.length (commands (world st))
      + scans (snd (runCalls h wellKnownPaths findAllInner cs st)).
Proof.
  intros Hone cs. induction cs as [|c t IH]; intros st; simpl.
  - lia.
  - assert (Hc : List.length (commands (world (snd (runCall h wellKnownPaths findAllInner c st))))
                 + scans st
                 = List.length (commands (world st))
                   + scans (snd (runCall h wellKnownPaths findAllInner c st))).
    { destruct c as [|predicate]; simpl.
      - unfold Darwin.findAll. destruct (foundAll st); simpl; [lia|].
        specialize (Hone (world st)).
        destruct (findAllInner (world st)) as [r w']; simpl in *. lia.
      - rewrite findWhere_run. cbv zeta.
        destruct (find _ wellKnownPaths); simpl; [lia|].
        unfold Darwin.findAll; simpl.
        destruct (foundAll st); simpl; [lia|].
        match goal with |- context [findAllInner ?w0] =>
          specialize (Hone w0); destruct (findAllInner w0) as [r w'] end.
        simpl in *. lia. }
    destruct (runCall h wellKnownPaths findAllInner c st) as [ps st1].
    simpl in Hc. specialize (IH st1).
    destruct (runCalls h wellKnownPaths findAllInner t st1) as [qs st2].
    simpl in *. lia.
Qed.

Lemma firefox_findAllInner_commands h env sort w :
  commands (snd (Firefox.findAllInner h env sort w))
  = commands w ++ [Darwin.registryCommand Firefox.pattern].
Proof.
  unfold Firefox.findAllInner, bind.
  pose proof (findLaunchRegisteredApps_commands h env Firefox.getPreferredPath
                Firefox.pattern Firefox.defaultPaths Firefox.suffixes w) as Hc.
  destruct (Darwin.findLaunchRegisteredApps _ _ _ _ _ _ w) as [[l|e|] w'];
    simpl in *; try assumption.
  unfold liftR. destruct (Darwin.createPriorities _ _ _); simpl; assumption.
Qed.

(** C1. Whatever calls of [findAll] and [findWhere] a caller makes on a new
    finder, [findAllInner] has run at most once; every call of [findAll] hands
    back the promise held in the memo, so all of them get the same one, and
    as soon as one was handed out exactly one scan has run.  For the Firefox
    finder the commands run are as many as the scans: at most one. *)
Theorem findAll_scans_at_most_once :
  (forall h wellKnownPaths findAllInner w cs,
      let r := runCalls h wellKnownPaths findAllInner cs (newFinder w) in
      scans (snd r) <= 1
      /\ Forall (fun p => foundAll (snd r) = Some p /\ scans (snd r) = 1) (fst r)
      /\ List.length (fst r) = List.length (filter isFindAll cs))
  /\ (forall h env sort w cs,
         let r := runCalls h Firefox.wellKnownPaths
                    (Firefox.findAllInner h env sort) cs (newFinder w) in
         List.length (commands (world (snd r)))
         = List.length (commands w) + scans (snd r)).
Proof.
  split.
  - intros h wellKnownPaths findAllInner w cs r.
    assert (Hnew : memoInv (newFinder w)) by reflexivity.
    destruct (runCalls_memo h wellKnownPaths findAllInner cs (newFinder w) Hnew)
      as (Hinv & _ & Hall & Hlen).
    fold r in Hinv, Hall, Hlen.
    assert (Hle : scans (snd r) <= 1).
    { unfold memoInv in Hinv. destruct (foundAll (snd r)); lia. }
    repeat split; auto.
    eapply Forall_impl; [|exact Hall]. simpl. intros p Hp. split; auto.
    unfold memoInv in Hinv. rewrite Hp in Hinv. exact Hinv.
  - intros h env sort w cs r.
    pose proof (runCalls_commands h Firefox.wellKnownPaths
                  (Firefox.findAllInner h env sort)) as Hc.
    assert (Hone : forall w0,
               List.length (commands (snd (Firefox.findAllInner h env sort w0)))
               = S (List.length (commands w0))).
    { intros w0. rewrite firefox_findAllInner_commands, length_app. simpl. lia. }
    specialize (Hc Hone cs (newFinder w)).
    fold r in Hc. simpl in Hc. lia.
Qed.

Example findAll_thrice_sample :
  let r := runCalls sampleHost Firefox.wellKnownPaths
             (Firefox.findAllInner sampleHost sampleEnv Util.sort)
             [CallFindAll; CallFindAll; CallFindAll] (newFinder emptyWorld) in
  scans (snd r) = 1
  /\ List.length (commands (world (snd r))) = 1
  /\ map pid (fst r) = [0; 0; 0].
Proof. vm_compute. repeat split. Qed.

(** ** A failing command *)

(** C4, as amended. When the promise [findAll] handed out has rejected, the
    next [findAll] hands out that same promise and leaves the finder as it
    is: awaiting it gives the same rejection again, and no new scan runs. *)
Theorem findAll_after_failure_returns_cached_failure
        findAllInner st p st1 e :
  Darwin.findAll findAllInner st = (Ok p, st1) ->
  settled p = Throw e ->
  Darwin.findAll findAllInner st1 = (Ok p, st1)
  /\ (q <- Darwin.findAll findAllInner ;; await q) st1 = (Throw e, st1)
  /\ scans (snd (Darwin.findAll findAllInner st1)) = scans st1
  /\ world (snd (Darwin.findAll findAllInner st1)) = world st1.
Proof.
  intros Hrun Hfail.
  assert (Hmemo : foundAll st1 = Some p).
  { unfold Darwin.findAll in Hrun. destruct (foundAll st) as [q|] eqn:Hq.
    - inversion Hrun; subst. exact Hq.
    - destruct (findAllInner (world st)); inversion Hrun; subst. reflexivity. }
  unfold bind, await, Darwin.findAll. rewrite Hmemo, Hfail. repeat split.
Qed.

Lemma findAll_after_failure_witness :
  let f := Firefox.findAll flakyHost sampleEnv Util.sort in
  let p := {| pid := 0;
              settled := Throw (ExternalCommandFailure (lit "exit code 127")) |} in
  let st1 := snd (f (newFinder emptyWorld)) in
  f st1 = (Ok p, st1)
  /\ (q <- f ;; await q) st1
     = (Throw (ExternalCommandFailure (lit "exit code 127")), st1)
  /\ scans (snd (f st1)) = scans st1
  /\ world (snd (f st1)) = world st1.
Proof.
  apply (findAll_after_failure_returns_cached_failure
           (Firefox.findAllInner flakyHost sampleEnv Util.sort)
           (newFinder emptyWorld)
           {| pid := 0;
              settled := Throw (ExternalCommandFailure (lit "exit code 127")) |}
           (snd (Firefox.findAll flakyHost sampleEnv Util.sort (newFinder emptyWorld)))
           (ExternalCommandFailure (lit "exit code 127"))).
  - vm_compute. reflexivity.
  - reflexivity.
Defined.

(** C4, as stated, fails: on a host whose first command fails and whose
    later commands would answer, the second [findAll] starts no scan. *)
Lemma findAll_after_failure_counterexample :
  (let f := Firefox.findAll flakyHost sampleEnv Util.sort in
   let failure := Throw (ExternalCommandFailure (lit "exit code 127")) in
   let st1 := snd (f (newFinder emptyWorld)) in
   fst (f (newFinder emptyWorld)) = Ok {| pid := 0; settled := failure |}
   /\ execa_command flakyHost 1 (Darwin.registryCommand Firefox.pattern)
      = inr sampleStdout
   /\ fst (f st1) = Ok {| pid := 0; settled := failure |}
   /\ scans st1 = 1
   /\ scans (snd (f st1)) = 1
   /\ List.length (commands (world (snd (f st1)))) = 1)
  /\ ~ retriesAfterFailure.
Proof.
  split; [vm_compute; repeat split|].
  intros Hretry.
  specialize (Hretry flakyHost sampleEnv Util.sort emptyWorld
                {| pid := 0;
                   settled := Throw (ExternalCommandFailure (lit "exit code 127")) |}
                (snd (Firefox.findAll flakyHost sampleEnv Util.sort
                        (newFinder emptyWorld)))
                (ExternalCommandFailure (lit "exit code 127"))).
  assert (Hrun : Firefox.findAll flakyHost sampleEnv Util.sort (newFinder emptyWorld)
                 = (Ok {| pid := 0;
                          settled := Throw (ExternalCommandFailure (lit "exit code 127")) |},
                    snd (Firefox.findAll flakyHost sampleEnv Util.sort
                           (newFinder emptyWorld))))
    by (vm_compute; reflexivity).
  specialize (Hretry Hrun eq_refl).
  vm_compute in Hretry. discriminate.
Qed.

(** ** Strings *)

Lemma startsWith_spec p s :
  JsString.startsWith p s = true <-> exists b, s = p ++ b.
Proof.
  revert s; induction p as [|a p IH]; intros s; simpl.
  - split; [intros _; exists s; reflexivity | reflexivity].
  - destruct s as [|b s].
    + split; [discriminate | intros [t Ht]; discriminate].
    + rewrite andb_true_iff, Ascii.eqb_eq, IH. split.
      * intros [-> [t ->]]. exists t. reflexivity.
      * intros [t Ht]. inversion Ht; subst. split; [reflexivity | eauto].
Qed.

Lemma includes_spec p s :
  JsString.includes p s = true <-> exists a b, s = a ++ p ++ b.
Proof.
  induction s as [|c s IH].
  - simpl. rewrite orb_false_r, startsWith_spec. split.
    + intros [b Hb]. exists [], b. exact Hb.
    + intros (a & b & Hab). destruct a; [eauto|discriminate].
  - cbn [JsString.includes]. rewrite orb_true_iff, startsWith_spec, IH. split.
    + intros [[b Hb] | (a & b & Hab)].
      * exists [], b. exact Hb.
      * exists (c :: a), b. rewrite Hab. reflexivity.
    + intros (a & b & Hab). destruct a as [|x a].
      * left. exists b. exact Hab.
      * right. inversion Hab; subst. eauto.
Qed.

(** ** Reading a pattern *)

(** The parser on sample texts: what [new RegExp] accepts, what it refuses
    with a SyntaxError, and what lies outside the fragment. *)
Example compile_samples :
  Re.compile (lit "a*?") = Ok (Re.Seq (Re.Star (Re.Chr "a")) Re.Eps)
  /\ Re.compile (lit "a**") = Throw SyntaxError
  /\ Re.compile (lit "^*") = Throw SyntaxError
  /\ Re.compile (lit "(a") = Throw SyntaxError
  /\ Re.compile (lit "a)") = Throw SyntaxError
  /\ Re.compile (lit "[z-a]") = Throw SyntaxError
  /\ Re.compile (lit "[a") = Throw SyntaxError
  /\ Re.compile (lit "a\") = Throw SyntaxError
  /\ Re.compile (lit "a{2}") = OutOfModel
  /\ Re.compile (lit "(?:a)") = OutOfModel
  /\ Re.compile (lit "\d") = OutOfModel
  /\ isOk (Re.compile (lit "^/Applications/.*Firefox.app")) = true
  /\ isOk (Re.compile Darwin.pathSuffixSource) = true.
Proof. vm_compute. repeat split. Qed.

(** The matcher on sample subjects: [.] stands for any character but a line
    terminator, [^] anchors at the start, and the search is leftmost. *)
Example test_samples :
  match Re.new_RegExp (lit "^/Applications/.*Firefox.app") with
  | Ok re =>
      Re.testRe re (lit "/Applications/Firefox.app/Contents/MacOS/firefox") = true
      /\ Re.testRe re (lit "/Applications/old/FirefoxXapp") = true
      /\ Re.testRe re (lit "/Volumes/Applications/Firefox.app") = false
      /\ Re.testRe re (lit "/Applications/Firefox Nightly.app") = false
      /\ Re.testRe re (lit "/Applications/" ++ [newline] ++ lit "Firefox.app")
         = false
  | _ => False
  end
  /\ Re.exec (Re.matcher Darwin.pathSuffixRe) (lit "/a (0x1f) (0x2)")
     = Some (2, (9, lit " (0x2)")).
Proof. vm_compute. repeat split. Qed.

Lemma steps_app st a b :
  Re.steps st (a ++ b) = rbind (Re.steps st a) (fun st' => Re.steps st' b).
Proof.
  revert st; induction a as [|c a IH]; intros st; simpl.
  - reflexivity.
  - destruct (Re.step st c); simpl; auto.
Qed.

Lemma pushLits_app st a b : pushLits st (a ++ b) = pushLits (pushLits st a) b.
Proof. apply fold_left_app. Qed.

Lemma pushLits_mode st s :
  Re.pmode st = Re.MNormal -> Re.pmode (pushLits st s) = Re.MNormal.
Proof.
  revert st; induction s as [|c s IH]; intros st Hm; simpl; auto.
Qed.

Lemma step_plain st c :
  Re.pmode st = Re.MNormal -> isPlain c = true ->
  Re.step st c = Ok (Re.pushAtom st (Re.Chr c)).
Proof.
  intros Hm Hc. unfold Re.step, Re.stepNormal. rewrite Hm.
  unfold isPlain in Hc. destruct (Re.classify c); try discriminate; reflexivity.
Qed.

Lemma step_escaped st c :
  Re.pmode st = Re.MNormal -> Re.isIdentityEscape c = true ->
  Re.steps st ["\"%char; c] = Ok (Re.pushAtom st (Re.Chr c)).
Proof.
  intros Hm Hc. cbn [Re.steps]. unfold Re.step at 1. rewrite Hm.
  change (Re.stepNormal st "\"%char) with (Ok (Re.setMode st Re.MEscape)).
  cbn [rbind]. unfold Re.step. cbn [Re.pmode Re.setMode].
  rewrite Hc. reflexivity.
Qed.

Lemma readsAs_plain s : forallb isPlain s = true -> readsAs s s.
Proof.
  induction s as [|c s IH]; intros Hs st Hm; simpl in *.
  - reflexivity.
  - apply andb_true_iff in Hs. destruct Hs as [Hc Hs].
    rewrite (step_plain st c Hm Hc). simpl. apply IH; auto.
Qed.

Lemma readsAs_escape s : readsAs (Util.escapeRegexSpecialChars s) s.
Proof.
  induction s as [|c s IH]; intros st Hm.
  - reflexivity.
  - unfold Util.escapeRegexSpecialChars. cbn [flat_map].
    fold (Util.escapeRegexSpecialChars s).
    rewrite steps_app.
    destruct (Re.isSyntaxChar c || Ascii.eqb c "/")%bool eqn:Hc.
    + rewrite step_escaped; auto.
      * simpl. apply IH. reflexivity.
      * apply orb_true_iff in Hc. destruct Hc as [Hc|Hc].
        -- unfold Re.isSyntaxChar in Hc. unfold Re.isIdentityEscape.
           destruct (Re.classify c); auto; discriminate.
        -- apply Ascii.eqb_eq in Hc. subst c. reflexivity.
    + apply orb_false_iff in Hc. destruct Hc as [Hc _].
      cbn [Re.steps]. rewrite step_plain; auto.
      * simpl. apply IH. reflexivity.
      * unfold Re.isSyntaxChar in Hc. unfold isPlain.
        destruct (Re.classify c); auto; discriminate.
Qed.

Lemma readsAs_app t1 l1 t2 l2 :
  readsAs t1 l1 -> readsAs t2 l2 -> readsAs (t1 ++ t2) (l1 ++ l2).
Proof.
  intros H1 H2 st Hm. rewrite steps_app, (H1 st Hm). simpl.
  rewrite H2 by (apply pushLits_mode; assumption).
  rewrite pushLits_app. reflexivity.
Qed.

Lemma flush_pushAtom st r :
  Re.flush (Re.pushAtom st r)
  = {| Re.alts := Re.alts (Re.flush st); Re.terms := r :: Re.terms (Re.flush st) |}.
Proof. reflexivity. Qed.

Lemma flush_pushLits st s :
  Re.flush (pushLits st s)
  = {| Re.alts := Re.alts (Re.flush st);
       Re.terms := rev (map Re.Chr s) ++ Re.terms (Re.flush st) |}.
Proof.
  revert st; induction s as [|c s IH]; intros st.
  - simpl. destruct (Re.flush st); reflexivity.
  - cbn [pushLits fold_left]. fold (pushLits (Re.pushAtom st (Re.Chr c)) s).
    rewrite IH, flush_pushAtom. cbn [Re.alts Re.terms map rev].
    rewrite <- app_assoc. reflexivity.
Qed.

Lemma stack_pushLits st s : Re.stack (pushLits st s) = Re.stack st.
Proof.
  revert st; induction s as [|c s IH]; intros st; simpl; auto.
  fold (pushLits (Re.pushAtom st (Re.Chr c)) s). rewrite IH. reflexivity.
Qed.

(** A literal text compiles to the sequence of its characters. *)
Lemma compile_literal text l :
  readsAs text l -> Re.compile text = Ok (Re.seqOf (map Re.Chr l)).
Proof.
  intros Hr. unfold Re.compile. rewrite (Hr Re.init eq_refl). simpl.
  unfold Re.finish.
  rewrite pushLits_mode by reflexivity. rewrite stack_pushLits. simpl.
  unfold Re.closeFrame. rewrite flush_pushLits. simpl.
  rewrite app_nil_r, rev_involutive. reflexivity.
Qed.

(** ** Matching *)

Lemma flat_map_flat_map {A B C : Type} (f : B -> list C) (g : A -> list B) l :
  flat_map f (flat_map g l) = flat_map (fun x => flat_map f (g x)) l.
Proof.
  induction l as [|x l IH]; simpl.
  - reflexivity.
  - rewrite flat_map_app, IH. reflexivity.
Qed.

Lemma ends_seqOf_app a b p :
  Re.ends (Re.seqOf (a ++ b)) p
  = flat_map (Re.ends (Re.seqOf b)) (Re.ends (Re.seqOf a) p).
Proof.
  revert p; induction a as [|x a IH]; intros p.
  - simpl. rewrite app_nil_r. reflexivity.
  - cbn [app Re.seqOf fold_right Re.ends].
    fold (Re.seqOf (a ++ b)). fold (Re.seqOf a).
    rewrite flat_map_flat_map. apply flat_map_ext. intros q. apply IH.
Qed.

Lemma ends_literal l i s :
  Re.ends (Re.seqOf (map Re.Chr l)) (i, s)
  = if JsString.startsWith l s
    then [(i + List.length l, skipn (List.length l) s)]
    else [].
Proof.
  revert i s; induction l as [|a l IH]; intros i s.
  - simpl. rewrite Nat.add_0_r. reflexivity.
  - cbn [map Re.seqOf fold_right Re.ends]. fold (Re.seqOf (map Re.Chr l)).
    unfold Re.one. cbn [snd fst].
    destruct s as [|b s]; [reflexivity|].
    cbn [JsString.startsWith]. destruct (Ascii.eqb a b); simpl; [|reflexivity].
    rewrite IH, app_nil_r, Nat.add_succ_r. reflexivity.
Qed.

Lemma execFrom_sound r s :
  forall i k q,
    Re.execFrom r i s = Some (k, q) ->
    exists m, k = i + m /\ In q (Re.ends r (k, skipn m s)).
Proof.
  induction s as [|c s IH]; intros i k q; simpl.
  - destruct (Re.ends r (i, [])) as [|q0 qs] eqn:He;
      [intros Hex; discriminate Hex|].
    intros [= <- <-]. exists 0. rewrite Nat.add_0_r. simpl.
    rewrite He. simpl. auto.
  - destruct (Re.ends r (i, c :: s)) as [|q0 qs] eqn:He.
    + intros Hex. destruct (IH _ _ _ Hex) as (m & -> & Hin).
      exists (S m). split; [lia|]. exact Hin.
    + intros [= <- <-]. exists 0. rewrite Nat.add_0_r. simpl.
      rewrite He. simpl. auto.
Qed.

(** An unanchored literal matches the candidates that contain it. *)
Lemma test_literal l c :
  Re.test (Re.seqOf (map Re.Chr l)) c = JsString.includes l c.
Proof.
  unfold Re.test, Re.exec. generalize 0 as i.
  induction c as [|x c IH]; intros i; simpl.
  - rewrite ends_literal. destruct (JsString.startsWith l []); reflexivity.
  - rewrite ends_literal.
    destruct (JsString.startsWith l (x :: c)); [reflexivity|].
    simpl. apply IH.
Qed.

(** A sequence that begins with [^] and a literal only matches candidates
    that begin with the literal. *)
Lemma test_anchored l Y c :
  Re.test (Re.seqOf ((Re.Bol :: map Re.Chr l) ++ Y)) c = true ->
  JsString.startsWith l c = true.
Proof.
  unfold Re.test, Re.exec.
  destruct (Re.execFrom _ 0 c) as [[k q]|] eqn:Hex; [|discriminate].
  intros _. destruct (execFrom_sound _ _ _ _ _ Hex) as (m & -> & Hin).
  rewrite ends_seqOf_app in Hin. apply in_flat_map in Hin.
  destruct Hin as (q0 & Hq0 & _).
  cbn [Re.seqOf fold_right Re.ends fst] in Hq0.
  destruct (0 + m =? 0) eqn:Hm; [|destruct Hq0].
  apply Nat.eqb_eq in Hm. assert (m = 0) by lia. subst m.
  simpl in Hq0. rewrite app_nil_r in Hq0.
  fold (Re.seqOf (map Re.Chr l)) in Hq0. rewrite ends_literal in Hq0.
  destruct (JsString.startsWith l c); [reflexivity|destruct Hq0].
Qed.

(** ** The outermost group while a pattern is read *)

Lemma last_cons_default {A : Type} (x d d' : A) l :
  last (x :: l) d = last (x :: l) d'.
Proof.
  revert x; induction l as [|y l IH]; intros x.
  - reflexivity.
  - change (last (y :: l) d = last (y :: l) d'). apply IH.
Qed.

Lemma last_cons_cons {A : Type} (x y d d' : A) l :
  last (x :: y :: l) d = last (y :: l) d'.
Proof. change (last (y :: l) d = last (y :: l) d'). apply last_cons_default. Qed.

Lemma beginsWith_grow P st st' :
  Re.stack st' = Re.stack st ->
  Re.alts (Re.cur st') = Re.alts (Re.cur st) ->
  (exists Y, Re.terms (Re.cur st') = Y ++ Re.terms (Re.cur st)) ->
  beginsWith P st -> beginsWith P st'.
Proof.
  unfold beginsWith, bottom. intros Hs Ha [Y Ht] (X & Hx & Hal).
  rewrite Hs. destruct (Re.stack st) as [|f fs].
  - simpl in *. exists (Y ++ X). rewrite Ht, Hx, Ha, app_assoc. auto.
  - rewrite (last_cons_default f (Re.cur st') (Re.cur st)). eauto.
Qed.

Lemma flush_alts st : Re.alts (Re.flush st) = Re.alts (Re.cur st).
Proof. unfold Re.flush. destruct (Re.pend st); reflexivity. Qed.

Lemma flush_terms st :
  exists Y, Re.terms (Re.flush st) = Y ++ Re.terms (Re.cur st).
Proof.
  unfold Re.flush. destruct (Re.pend st); simpl;
    solve [exists []; reflexivity | eexists [_]; reflexivity].
Qed.

Lemma beginsWith_pushAtom P st r :
  beginsWith P st -> beginsWith P (Re.pushAtom st r).
Proof.
  apply beginsWith_grow; simpl; auto using flush_alts, flush_terms.
Qed.

Lemma beginsWith_setMode P st m :
  beginsWith P st -> beginsWith P (Re.setMode st m).
Proof. intros H; exact H. Qed.

Lemma beginsWith_setPend P st p :
  beginsWith P st -> beginsWith P (Re.setPend st p).
Proof. intros H; exact H. Qed.

Lemma beginsWith_classAtom P st neg items cs c dash st' :
  rbind (Re.classAtom neg items cs c dash) (fun m => Ok (Re.setMode st m))
  = Ok st' ->
  beginsWith P st -> beginsWith P st'.
Proof.
  destruct (Re.classAtom neg items cs c dash); simpl; try discriminate.
  intros [= <-]. apply beginsWith_setMode.
Qed.

Lemma beginsWith_stepClass P st neg items cs c st' :
  Re.stepClass st neg items cs c = Ok st' ->
  beginsWith P st -> beginsWith P st'.
Proof.
  unfold Re.stepClass.
  destruct (Re.classify c);
    try (apply beginsWith_classAtom);
    intros [= <-]; auto using beginsWith_pushAtom, beginsWith_setMode.
Qed.

Lemma beginsWith_step P st c st' :
  Re.step st c = Ok st' ->
  Re.classify c <> Re.TBar ->
  beginsWith P st -> beginsWith P st'.
Proof.
  unfold Re.step. intros Hstep Hbar Hinv.
  destruct (Re.pmode st).
  - (* reading a term *)
    unfold Re.stepNormal, Re.quantify in Hstep.
    destruct (Re.classify c); try congruence;
      try (inversion Hstep; subst;
           auto using beginsWith_pushAtom, beginsWith_setMode; fail).
    + (* ( *)
      inversion Hstep; subst. clear Hstep.
      destruct Hinv as (X & Hx & Hal). unfold beginsWith, bottom in *.
      cbn [Re.stack Re.cur].
      destruct (Re.stack st) as [|f fs].
      * simpl in *. destruct (flush_terms st) as [Y HY].
        exists (Y ++ X). rewrite HY, Hx, flush_alts, app_assoc. auto.
      * exists X. rewrite (last_cons_cons (Re.flush st) f _ (Re.cur st) fs).
        auto.
    + (* ) *)
      destruct (Re.stack st) as [|f fs] eqn:Hs; [discriminate|].
      inversion Hstep; subst. clear Hstep.
      destruct Hinv as (X & Hx & Hal). unfold beginsWith, bottom in *.
      cbn [Re.stack Re.cur]. rewrite Hs in Hx, Hal.
      exists X. destruct fs as [|g gs].
      * simpl in *. auto.
      * rewrite (last_cons_cons f g (Re.cur st) f gs) in Hx, Hal. auto.
    + (* * *)
      destruct (Re.pend st); inversion Hstep; subst; apply beginsWith_setPend; auto.
    + destruct (Re.pend st); inversion Hstep; subst; apply beginsWith_setPend; auto.
    + destruct (Re.pend st); inversion Hstep; subst; apply beginsWith_setPend; auto.
    + (* ^ *)
      inversion Hstep; subst. revert Hinv. apply beginsWith_grow; simpl.
      * reflexivity.
      * apply flush_alts.
      * destruct (flush_terms st) as [Y HY]. exists (Re.Bol :: Y).
        rewrite HY. reflexivity.
    + inversion Hstep; subst. revert Hinv. apply beginsWith_grow; simpl.
      * reflexivity.
      * apply flush_alts.
      * destruct (flush_terms st) as [Y HY]. exists (Re.Eol :: Y).
        rewrite HY. reflexivity.
  - destruct (Re.isIdentityEscape c); inversion Hstep; subst.
    apply beginsWith_pushAtom; auto.
  - destruct (Re.classify c) eqn:Hc;
      try (eapply beginsWith_stepClass; eauto; fail).
    inversion Hstep; subst. apply beginsWith_setMode; auto.
  - eapply beginsWith_stepClass; eauto.
  - destruct (Re.isIdentityEscape c); [|discriminate].
    eapply beginsWith_classAtom; eauto.
Qed.

Lemma classify_bar c : Re.classify c = Re.TBar -> c = "|"%char.
Proof.
  unfold Re.classify.
  repeat match goal with
         | |- context [Ascii.eqb c ?x] =>
             let H := fresh "H" in destruct (Ascii.eqb c x) eqn:H
         end; try discriminate.
  intros _. apply Ascii.eqb_eq. assumption.
Qed.

Lemma beginsWith_steps P s :
  forall st st',
    Re.steps st s = Ok st' ->
    noBar s = true ->
    beginsWith P st -> beginsWith P st'.
Proof.
  induction s as [|c s IH]; intros st st'; simpl.
  - intros [= <-] _ H. exact H.
  - destruct (Re.step st c) as [st1| |] eqn:Hstep; simpl; try discriminate.
    intros Hsteps Hnb Hinv. apply andb_true_iff in Hnb. destruct Hnb as [Hc Hnb].
    apply (IH st1 st' Hsteps Hnb).
    apply (beginsWith_step P st c st1 Hstep); [|exact Hinv].
    intros Hbar. apply classify_bar in Hbar. subst c. discriminate.
Qed.

Lemma beginsWith_finish P st m :
  Re.finish st = Ok m ->
  beginsWith P st ->
  exists Y, m = Re.seqOf (rev P ++ Y).
Proof.
  unfold Re.finish, beginsWith, bottom.
  destruct (Re.pmode st); try discriminate.
  destruct (Re.stack st); try discriminate.
  intros [= <-] (X & Hx & Hal). simpl in Hx, Hal.
  unfold Re.closeFrame. rewrite flush_alts, Hal. simpl.
  destruct (flush_terms st) as [Y HY]. rewrite HY, Hx.
  exists (rev (Y ++ X)). rewrite app_assoc, rev_app_distr. reflexivity.
Qed.

Lemma steps_anchor text l :
  readsAs text l ->
  Re.steps Re.init ("^"%char :: text ++ ["."%char]) = Ok (afterAnchor l).
Proof.
  intros Hr.
  change (Re.steps Re.init ("^"%char :: text ++ ["."%char]))
    with (Re.steps (Re.pushAssertion Re.init Re.Bol) (text ++ ["."%char])).
  rewrite steps_app, Hr by reflexivity. simpl.
  unfold Re.step. rewrite pushLits_mode by reflexivity. reflexivity.
Qed.

Lemma compile_anchor text l rest :
  readsAs text l ->
  Re.compile ("^"%char :: text ++ "."%char :: rest)
  = rbind (Re.steps (afterAnchor l) rest) Re.finish.
Proof.
  intros Hr. unfold Re.compile.
  change ("^"%char :: text ++ "."%char :: rest)
    with (("^"%char :: text) ++ ["."%char] ++ rest).
  rewrite app_assoc, steps_app.
  change (("^"%char :: text) ++ ["."%char]) with ("^"%char :: text ++ ["."%char]).
  rewrite (steps_anchor text l Hr). reflexivity.
Qed.

Lemma beginsWith_afterAnchor l :
  beginsWith (rev (Re.Bol :: map Re.Chr l)) (afterAnchor l).
Proof.
  exists []. unfold bottom, afterAnchor. cbn [Re.stack Re.pushAtom Re.cur].
  rewrite stack_pushLits. cbn [Re.stack Re.pushAssertion Re.init last].
  rewrite flush_pushLits. simpl. auto.
Qed.

(** An anchored pattern whose tail has no [|] compiles to a sequence that
    starts with the anchor and the literal. *)
Lemma compile_anchored text l rest m :
  readsAs text l ->
  noBar rest = true ->
  Re.compile ("^"%char :: text ++ "."%char :: rest) = Ok m ->
  exists Y, m = Re.seqOf ((Re.Bol :: map Re.Chr l) ++ Y).
Proof.
  intros Hr Hnb. rewrite (compile_anchor text l rest Hr).
  destruct (Re.steps (afterAnchor l) rest) as [st| |] eqn:Hsteps;
    simpl; try discriminate.
  intros Hfin.
  pose proof (beginsWith_steps _ rest _ _ Hsteps Hnb (beginsWith_afterAnchor l))
    as Hinv.
  destruct (beginsWith_finish _ st m Hfin Hinv) as [Y HY].
  exists Y. rewrite rev_involutive in HY. exact HY.
Qed.

(** ** Whether the rest of a text is accepted *)

Ltac close_shape :=
  simpl in *; try discriminate; unfold shape; simpl;
  first [exact I | reflexivity | congruence].

Lemma sameOutcome_step st1 st2 c :
  shape st1 = shape st2 ->
  sameOutcome (fun a b => shape a = shape b) (Re.step st1 c) (Re.step st2 c).
Proof.
  destruct st1 as [m1 c1 p1 s1], st2 as [m2 c2 p2 s2].
  unfold shape. cbn [Re.pmode Re.pend Re.stack]. intros [= -> Hk Hs].
  unfold Re.step. cbn [Re.pmode].
  destruct m2 as [| | |neg items cs|neg items cs].
  - unfold Re.stepNormal, Re.quantify. cbn [Re.pend Re.stack].
    destruct (Re.classify c); try close_shape.
    + destruct s1, s2; close_shape.
    + destruct p1, p2; close_shape.
    + destruct p1, p2; close_shape.
    + destruct p1, p2; close_shape.
  - destruct (Re.isIdentityEscape c); close_shape.
  - unfold Re.stepClass. destruct (Re.classify c); close_shape.
  - unfold Re.stepClass.
    destruct (Re.classify c); try close_shape;
      destruct (Re.classAtom neg items cs c _); close_shape.
  - destruct (Re.isIdentityEscape c); try close_shape.
    destruct (Re.classAtom neg items cs c false); close_shape.
Qed.

Lemma sameOutcome_steps s :
  forall st1 st2,
    shape st1 = shape st2 ->
    sameOutcome (fun a b => shape a = shape b) (Re.steps st1 s) (Re.steps st2 s).
Proof.
  induction s as [|c s IH]; intros st1 st2 Hsh; simpl.
  - exact Hsh.
  - pose proof (sameOutcome_step st1 st2 c Hsh) as Hstep.
    destruct (Re.step st1 c), (Re.step st2 c); simpl in *;
      try contradiction; auto.
Qed.

Lemma sameOutcome_finish st1 st2 :
  shape st1 = shape st2 ->
  sameOutcome (fun _ _ => True) (Re.finish st1) (Re.finish st2).
Proof.
  unfold shape, Re.finish. intros [= Hm _ Hs]. rewrite Hm.
  destruct (Re.pmode st2); simpl; auto.
  destruct (Re.stack st1), (Re.stack st2); simpl in *; try discriminate; auto.
Qed.

(** Two anchored patterns with the same tail are accepted or refused
    together, whatever their literals. *)
Lemma compile_anchor_same text1 l1 text2 l2 rest :
  readsAs text1 l1 -> readsAs text2 l2 ->
  sameOutcome (fun _ _ => True)
    (Re.compile ("^"%char :: text1 ++ "."%char :: rest))
    (Re.compile ("^"%char :: text2 ++ "."%char :: rest)).
Proof.
  intros H1 H2.
  rewrite (compile_anchor text1 l1 rest H1), (compile_anchor text2 l2 rest H2).
  assert (Hsh : shape (afterAnchor l1) = shape (afterAnchor l2)).
  { unfold shape, afterAnchor. simpl. rewrite !stack_pushLits. reflexivity. }
  pose proof (sameOutcome_steps rest _ _ Hsh) as Hs.
  destruct (Re.steps (afterAnchor l1) rest), (Re.steps (afterAnchor l2) rest);
    simpl in *; try contradiction; auto.
  apply sameOutcome_finish. exact Hs.
Qed.

(** ** The rules [createPriorities] builds *)

Lemma new_RegExp_ok text m :
  Re.compile text = Ok m ->
  Re.new_RegExp text = Ok {| Re.source := text; Re.matcher := m |}.
Proof. unfold Re.new_RegExp. intros ->. reflexivity. Qed.

Lemma readsAs_home env :
  readsAs (Darwin.template (Darwin.escapedHome env)) (homeText env).
Proof.
  unfold Darwin.escapedHome, homeText.
  destruct (env (lit "HOME")) as [v|]; simpl.
  - destruct v as [|c v]; simpl.
    + apply readsAs_plain. reflexivity.
    + apply (readsAs_escape (c :: v)).
  - apply readsAs_plain. reflexivity.
Qed.

Lemma readsAs_home_applications env :
  readsAs (Darwin.template (Darwin.escapedHome env) ++ lit "/Applications/")
          (homeText env ++ lit "/Applications/").
Proof.
  apply readsAs_app; [apply readsAs_home | apply readsAs_plain; reflexivity].
Qed.

Lemma home_pattern_shape env n :
  lit "^" ++ Darwin.template (Darwin.escapedHome env)
    ++ lit "/Applications/.*" ++ n
  = "^"%char :: (Darwin.template (Darwin.escapedHome env) ++ lit "/Applications/")
      ++ "."%char :: "*"%char :: n.
Proof. simpl. rewrite <- app_assoc. reflexivity. Qed.

(** A name accepted in the Applications rule is accepted in the two
    others. *)
Lemma nameOk_patterns env v :
  nameOk v = true ->
  exists m1 m2 m3,
    Re.compile (lit "^/Applications/.*" ++ Darwin.name v) = Ok m1
    /\ Re.compile (lit "^" ++ Darwin.template (Darwin.escapedHome env)
                     ++ lit "/Applications/.*" ++ Darwin.name v) = Ok m2
    /\ Re.compile (lit "^/Volumes/.*" ++ Darwin.name v) = Ok m3.
Proof.
  unfold nameOk. intros Hok.
  destruct (Re.compile (lit "^/Applications/.*" ++ Darwin.name v))
    as [m1| |] eqn:H1; try discriminate.
  assert (Hplain1 : readsAs (lit "/Applications/") (lit "/Applications/"))
    by (apply readsAs_plain; reflexivity).
  assert (Hplain3 : readsAs (lit "/Volumes/") (lit "/Volumes/"))
    by (apply readsAs_plain; reflexivity).
  pose proof (compile_anchor_same _ _ _ _ ("*"%char :: Darwin.name v)
                Hplain1 (readsAs_home_applications env)) as H12.
  pose proof (compile_anchor_same _ _ _ _ ("*"%char :: Darwin.name v)
                Hplain1 Hplain3) as H13.
  rewrite <- home_pattern_shape in H12.
  change ("^"%char :: lit "/Applications/" ++ "."%char :: "*"%char :: Darwin.name v)
    with (lit "^/Applications/.*" ++ Darwin.name v) in H12, H13.
  change ("^"%char :: lit "/Volumes/" ++ "."%char :: "*"%char :: Darwin.name v)
    with (lit "^/Volumes/.*" ++ Darwin.name v) in H13.
  rewrite H1 in H12, H13.
  destruct (Re.compile (lit "^" ++ _ ++ _ ++ Darwin.name v)) as [m2| |];
    try contradiction.
  destruct (Re.compile (lit "^/Volumes/.*" ++ Darwin.name v)) as [m3| |];
    try contradiction.
  exists m1, m2, m3. repeat split; reflexivity.
Qed.

Lemma locationRules_spec env v :
  nameOk v = true ->
  exists t,
    Darwin.locationRules (Darwin.escapedHome env) v = Ok t
    /\ locationTriple env v t.
Proof.
  intros Hok. destruct (nameOk_patterns env v Hok) as (m1 & m2 & m3 & H1 & H2 & H3).
  unfold Darwin.locationRules.
  rewrite (new_RegExp_ok _ m1 H1). cbn [rbind].
  rewrite (new_RegExp_ok _ m2 H2). cbn [rbind].
  rewrite (new_RegExp_ok _ m3 H3). cbn [rbind].
  eexists. split; [reflexivity|].
  unfold locationTriple. do 3 eexists. split; [reflexivity|].
  unfold ruleView, wellFormedRule. cbn [Util.regex Util.weight Util.quality
                                         Re.source Re.matcher].
  repeat split; assumption.
Qed.

Lemma reduce_locationRules env ps :
  forallb nameOk ps = true ->
  forall acc,
  exists triples,
    Darwin.reduce (fun acc p =>
                     rbind (Darwin.locationRules (Darwin.escapedHome env) p)
                           (fun rules => Ok (acc ++ rules))) ps acc
    = Ok (acc ++ List.concat triples)
    /\ Forall2 (locationTriple env) ps triples.
Proof.
  induction ps as [|v ps IH]; intros Hok acc; simpl.
  - exists []. simpl. rewrite app_nil_r. split; [reflexivity|constructor].
  - simpl in Hok. apply andb_true_iff in Hok. destruct Hok as [Hv Hps].
    destruct (locationRules_spec env v Hv) as (t & Ht & Htriple).
    rewrite Ht. cbn [rbind].
    destruct (IH Hps (acc ++ t)) as (triples & Hred & Hall).
    exists (t :: triples). rewrite Hred. simpl. rewrite app_assoc.
    split; [reflexivity|]. constructor; assumption.
Qed.

(** Whatever HOME and the preferred path are, [createPriorities] returns
    normally when the variant names are accepted, with the optional rule of
    the preferred path first and three location rules per variant after it,
    in the order of the variants. *)
Lemma createPriorities_spec env getPreferredPath ps :
  forallb nameOk ps = true ->
  exists o triples,
    Darwin.createPriorities env getPreferredPath ps = Ok (o ++ List.concat triples)
    /\ overrideRule (getPreferredPath env) o
    /\ Forall2 (locationTriple env) ps triples.
Proof.
  intros Hok. unfold Darwin.createPriorities. cbv zeta.
  destruct (reduce_locationRules env ps Hok []) as (triples & Hred & Hall).
  rewrite Hred. cbn [rbind app]. unfold overrideRule.
  destruct (getPreferredPath env) as [p|].
  - destruct (JsString.truthy p).
    + rewrite (new_RegExp_ok _ _ (compile_literal _ _ (readsAs_escape p))).
      cbn [rbind]. eexists [_], triples. split; [reflexivity|].
      split; [|assumption]. eexists. split; [reflexivity|].
      split; [reflexivity|]. unfold wellFormedRule. simpl.
      apply compile_literal, readsAs_escape.
    + exists [], triples. auto.
  - exists [], triples. auto.
Qed.

(** ** What the rules match *)

Lemma override_test r p w q :
  ruleView r = (Util.escapeRegexSpecialChars p, w, q) ->
  wellFormedRule r ->
  forall c, Re.testRe (Util.regex r) c = JsString.includes p c.
Proof.
  unfold ruleView, wellFormedRule, Re.testRe. intros [= Hsrc _ _] Hwf c.
  rewrite Hsrc, (compile_literal _ _ (readsAs_escape p)) in Hwf.
  injection Hwf as <-. apply test_literal.
Qed.

Lemma anchored_rule_sound r text l n w q :
  readsAs text l ->
  ruleView r = ("^"%char :: text ++ "."%char :: "*"%char :: n, w, q) ->
  wellFormedRule r ->
  noBar n = true ->
  forall c, Re.testRe (Util.regex r) c = true -> JsString.startsWith l c = true.
Proof.
  unfold ruleView, wellFormedRule, Re.testRe. intros Hr [= Hsrc _ _] Hwf Hnb c.
  rewrite Hsrc in Hwf.
  destruct (compile_anchored text l ("*"%char :: n) _ Hr Hnb Hwf) as [Y ->].
  apply test_anchored.
Qed.

Lemma triple_sound env v r1 r2 r3 :
  locationTriple env v [r1; r2; r3] ->
  noBar (Darwin.name v) = true ->
  forall c,
    (Re.testRe (Util.regex r1) c = true ->
     JsString.startsWith (lit "/Applications/") c = true)
    /\ (Re.testRe (Util.regex r2) c = true ->
        JsString.startsWith (homeText env ++ lit "/Applications/") c = true)
    /\ (Re.testRe (Util.regex r3) c = true ->
        JsString.startsWith (lit "/Volumes/") c = true).
Proof.
  intros (a1 & a2 & a3 & [= <- <- <-] & V1 & V2 & V3 & W1 & W2 & W3) Hnb c.
  repeat split; intros H.
  - eapply anchored_rule_sound
      with (text := lit "/Applications/") (n := Darwin.name v);
      [apply readsAs_plain; reflexivity | exact V1 | exact W1 | exact Hnb
      | exact H].
  - rewrite home_pattern_shape in V2.
    eapply anchored_rule_sound with (n := Darwin.name v);
      [apply readsAs_home_applications | exact V2 | exact W2 | exact Hnb
      | exact H].
  - eapply anchored_rule_sound
      with (text := lit "/Volumes/") (n := Darwin.name v);
      [apply readsAs_plain; reflexivity | exact V3 | exact W3 | exact Hnb
      | exact H].
Qed.


Lemma overrideRule_misses preferred o c :
  overrideRule preferred o ->
  overrideMisses preferred c = true ->
  forall r, In r o -> Re.testRe (Util.regex r) c = false.
Proof.
  unfold overrideRule, overrideMisses.
  destruct preferred as [p|]; [|intros -> _ r []].
  destruct (JsString.truthy p); [|intros -> _ r []].
  intros (r0 & -> & Hview & Hwf) Hmiss r [<-|[]].
  rewrite (override_test r0 p _ _ Hview Hwf).
  simpl in Hmiss. apply negb_true_iff in Hmiss. exact Hmiss.
Qed.

(** ** The rule of the preferred path *)

(** C2, as amended. When a non-empty preferred path is supplied,
    [createPriorities] puts exactly one rule before the location rules; it is
    [Custom], its pattern is the escaped path and its weight is the constant
    151.  That weight exceeds [weight + 100] of a variant exactly when the
    variant's weight is below 51; when all are, every location rule weighs
    less than the rule of the preferred path. *)
Theorem override_rule_first_with_weight_151 env getPreferredPath ps p :
  getPreferredPath env = Some p ->
  JsString.truthy p = true ->
  forallb nameOk ps = true ->
  exists o triples,
    Darwin.createPriorities env getPreferredPath ps
    = Ok (o :: List.concat triples)
    /\ ruleView o = (Util.escapeRegexSpecialChars p, 151%Z, Custom)
    /\ Forall2 (locationTriple env) ps triples
    /\ (forall v, In v ps ->
                  (Util.weight o > Darwin.weight v + 100 <-> Darwin.weight v < 51)%Z)
    /\ ((forall v, In v ps -> (Darwin.weight v < 51)%Z) ->
        Forall (fun r => (Util.weight r < Util.weight o)%Z) (List.concat triples)).
Proof.
  intros Hp Htruthy Hok.
  destruct (createPriorities_spec env getPreferredPath ps Hok)
    as (o & triples & Hrun & Hover & Hall).
  unfold overrideRule in Hover. rewrite Hp, Htruthy in Hover.
  destruct Hover as (r & -> & Hview & Hwf).
  exists r, triples. split; [exact Hrun|]. split; [exact Hview|].
  split; [exact Hall|].
  assert (Hw : Util.weight r = 151%Z).
  { unfold ruleView in Hview. congruence. }
  split.
  - intros v _. rewrite Hw. lia.
  - intros Hlight. rewrite Hw. clear Hrun.
    induction Hall as [|v t ps' triples' Ht Hall IH]; simpl.
    + constructor.
    + apply Forall_app. split.
      * destruct Ht as (r1 & r2 & r3 & -> & V1 & V2 & V3 & _).
        assert (Hv : (Darwin.weight v < 51)%Z) by (apply Hlight; left; reflexivity).
        unfold ruleView in V1, V2, V3.
        repeat constructor.
        -- replace (Util.weight r1) with (Darwin.weight v + 100)%Z by congruence. lia.
        -- replace (Util.weight r2) with (Darwin.weight v) by congruence. lia.
        -- replace (Util.weight r3) with (Darwin.weight v - 100)%Z by congruence. lia.
      * apply IH.
        -- simpl in Hok. apply andb_true_iff in Hok. apply Hok.
        -- intros v' Hv'. apply Hlight. right. exact Hv'.
Qed.

Lemma override_rule_first_witness :
  exists o triples,
    Darwin.createPriorities
      (envOf (Some (lit "/Users/me")) (Some (lit "/opt/firefox")))
      Firefox.getPreferredPath Firefox.variants
    = Ok (o :: List.concat triples)
    /\ ruleView o = (lit "\/opt\/firefox", 151%Z, Custom)
    /\ Forall (fun r => (Util.weight r < Util.weight o)%Z) (List.concat triples).
Proof.
  destruct (override_rule_first_with_weight_151
              (envOf (Some (lit "/Users/me")) (Some (lit "/opt/firefox")))
              Firefox.getPreferredPath Firefox.variants (lit "/opt/firefox")
              eq_refl eq_refl eq_refl)
    as (o & triples & Hrun & Hview & _ & _ & Hlight).
  exists o, triples. split; [exact Hrun|]. split; [exact Hview|].
  apply Hlight. intros v Hv. simpl in Hv.
  destruct Hv as [<-|[<-|[<-|[]]]]; reflexivity.
Defined.

(** C2, as stated, fails: a variant of weight 100 has an Applications rule
    of weight 200, above the 151 of the preferred path. *)
Lemma override_outranks_counterexample :
  match Darwin.createPriorities (envOf None (Some (lit "/opt/firefox")))
          Firefox.getPreferredPath [heavyVariant] with
  | Ok (o :: r1 :: _) =>
      Util.quality o = Custom
      /\ Util.weight o = 151%Z
      /\ Util.weight r1 = (Darwin.weight heavyVariant + 100)%Z
      /\ Util.weight r1 = 200%Z
  | _ => False
  end
  /\ ~ overrideOutranksEveryVariant.
Proof.
  split; [vm_compute; repeat split|].
  intros Hclaim.
  destruct (Hclaim (envOf None (Some (lit "/opt/firefox")))
              Firefox.getPreferredPath [heavyVariant] (lit "/opt/firefox")
              _ eq_refl eq_refl eq_refl)
    as (o & rest & Hrules & _ & Hw).
  injection Hrules as <- _.
  specialize (Hw heavyVariant (or_introl eq_refl)).
  vm_compute in Hw. discriminate.
Qed.

(** C5, as amended. The rule of a supplied preferred path matches a
    candidate exactly when the candidate contains the preferred path: the
    path itself, and every path that has it as a contiguous part. *)
Theorem override_rule_matches_paths_containing_preferred
        env getPreferredPath ps p :
  getPreferredPath env = Some p ->
  JsString.truthy p = true ->
  forallb nameOk ps = true ->
  exists o rest,
    Darwin.createPriorities env getPreferredPath ps = Ok (o :: rest)
    /\ forall c,
        Re.testRe (Util.regex o) c = true <-> exists a b, c = a ++ p ++ b.
Proof.
  intros Hp Htruthy Hok.
  destruct (createPriorities_spec env getPreferredPath ps Hok)
    as (o & triples & Hrun & Hover & Hall).
  unfold overrideRule in Hover. rewrite Hp, Htruthy in Hover.
  destruct Hover as (r & -> & Hview & Hwf).
  exists r, (List.concat triples). split; [exact Hrun|].
  intros c. rewrite (override_test r p _ _ Hview Hwf). apply includes_spec.
Qed.

Lemma override_rule_matches_witness :
  exists o rest,
    Darwin.createPriorities
      (envOf (Some (lit "/Users/me")) (Some (lit "/opt/Firefox.app")))
      Firefox.getPreferredPath Firefox.variants
    = Ok (o :: rest)
    /\ Re.testRe (Util.regex o) (lit "/opt/Firefox.app/Contents/MacOS/firefox")
       = true.
Proof.
  destruct (override_rule_matches_paths_containing_preferred
              (envOf (Some (lit "/Users/me")) (Some (lit "/opt/Firefox.app")))
              Firefox.getPreferredPath Firefox.variants (lit "/opt/Firefox.app")
              eq_refl eq_refl eq_refl)
    as (o & rest & Hrun & Hmatch).
  exists o, rest. split; [exact Hrun|].
  apply Hmatch. exists [], (lit "/Contents/MacOS/firefox"). reflexivity.
Defined.

(** C5, as stated, fails: the rule of the preferred path
    /opt/Firefox.app also matches the executable inside it. *)
Lemma override_exact_match_counterexample :
  match Darwin.createPriorities (envOf None (Some (lit "/opt/Firefox.app")))
          Firefox.getPreferredPath Firefox.variants with
  | Ok (o :: _) =>
      Re.source (Util.regex o) = lit "\/opt\/Firefox\.app"
      /\ Re.testRe (Util.regex o) (lit "/opt/Firefox.app/Contents/MacOS/firefox")
         = true
      /\ lit "/opt/Firefox.app/Contents/MacOS/firefox" <> lit "/opt/Firefox.app"
  | _ => False
  end
  /\ ~ overrideMatchesOnlyPreferred.
Proof.
  split; [vm_compute; repeat split; discriminate|].
  intros Hclaim.
  pose (env := envOf None (Some (lit "/opt/Firefox.app"))).
  destruct (Darwin.createPriorities env Firefox.getPreferredPath Firefox.variants)
    as [[|o rest]| |] eqn:Hrun; try (vm_compute in Hrun; discriminate).
  pose proof (Hclaim env Firefox.getPreferredPath Firefox.variants
                (lit "/opt/Firefox.app") o rest
                (lit "/opt/Firefox.app/Contents/MacOS/firefox")
                eq_refl eq_refl Hrun) as [Hiff _].
  assert (Hmatch : Re.testRe (Util.regex o)
                     (lit "/opt/Firefox.app/Contents/MacOS/firefox") = true).
  { vm_compute in Hrun. injection Hrun as <- _. vm_compute. reflexivity. }
  specialize (Hiff Hmatch). discriminate Hiff.
Qed.

(** ** Escaping *)

Lemma safeName_split ps :
  forallb safeName ps = true ->
  forallb nameOk ps = true
  /\ Forall (fun v => noBar (Darwin.name v) = true) ps.
Proof.
  induction ps as [|v ps IH]; simpl.
  - intros _. split; [reflexivity|constructor].
  - unfold safeName at 1. rewrite !andb_true_iff.
    intros [[Hok Hnb] Hps]. destruct (IH Hps) as [Hoks Hnbs].
    repeat split; auto.
Qed.

Lemma Forall2_with_left {A B : Type} (P : A -> Prop) (R S : A -> B -> Prop) l l' :
  (forall a b, P a -> R a b -> S a b) ->
  Forall P l -> Forall2 R l l' -> Forall2 S l l'.
Proof.
  intros Himp HP HR. induction HR as [|a b l l' Hab HR IH].
  - constructor.
  - inversion HP; subst. constructor; auto.
Qed.

(** ** Independence of the outcome from HOME and the preferred path *)

Lemma sameOutcome_new_RegExp t1 t2 :
  sameOutcome (fun _ _ => True) (Re.compile t1) (Re.compile t2) ->
  sameOutcome (fun _ _ => True) (Re.new_RegExp t1) (Re.new_RegExp t2).
Proof.
  unfold Re.new_RegExp.
  destruct (Re.compile t1), (Re.compile t2); simpl; auto.
Qed.

Lemma sameOutcome_refl {A : Type} (r : result A) :
  sameOutcome (fun _ _ => True) r r.
Proof. destruct r; simpl; auto. Qed.

Lemma locationRules_same_outcome env1 env2 v :
  sameOutcome (fun _ _ => True)
    (Darwin.locationRules (Darwin.escapedHome env1) v)
    (Darwin.locationRules (Darwin.escapedHome env2) v).
Proof.
  unfold Darwin.locationRules.
  pose proof (compile_anchor_same _ _ _ _ ("*"%char :: Darwin.name v)
                (readsAs_home_applications env1)
                (readsAs_home_applications env2)) as Hhome.
  rewrite <- !home_pattern_shape in Hhome.
  apply sameOutcome_new_RegExp in Hhome.
  destruct (Re.new_RegExp (lit "^/Applications/.*" ++ Darwin.name v))
    as [r1| |]; [|reflexivity|exact I].
  cbn [rbind].
  destruct (Re.new_RegExp
              (lit "^" ++ Darwin.template (Darwin.escapedHome env1) ++ _))
    as [a1| |],
           (Re.new_RegExp
              (lit "^" ++ Darwin.template (Darwin.escapedHome env2) ++ _))
    as [a2| |];
    cbn [rbind sameOutcome] in *; try contradiction; auto.
  destruct (Re.new_RegExp (lit "^/Volumes/.*" ++ Darwin.name v));
    cbn [rbind sameOutcome]; auto.
Qed.

Lemma reduce_same_outcome env1 env2 ps :
  forall acc1 acc2,
    sameOutcome (fun _ _ => True)
      (Darwin.reduce (fun acc p =>
                        rbind (Darwin.locationRules (Darwin.escapedHome env1) p)
                              (fun rules => Ok (acc ++ rules))) ps acc1)
      (Darwin.reduce (fun acc p =>
                        rbind (Darwin.locationRules (Darwin.escapedHome env2) p)
                              (fun rules => Ok (acc ++ rules))) ps acc2).
Proof.
  induction ps as [|v ps IH]; intros acc1 acc2; simpl; auto.
  pose proof (locationRules_same_outcome env1 env2 v) as Hv.
  destruct (Darwin.locationRules (Darwin.escapedHome env1) v),
           (Darwin.locationRules (Darwin.escapedHome env2) v);
    simpl in *; try contradiction; auto.
Qed.

(** Whether [createPriorities] returns or throws depends on the variant
    names only, not on HOME and not on the preferred path. *)
Lemma createPriorities_same_outcome env1 gp1 env2 gp2 ps :
  sameOutcome (fun _ _ => True)
    (Darwin.createPriorities env1 gp1 ps)
    (Darwin.createPriorities env2 gp2 ps).
Proof.
  unfold Darwin.createPriorities. cbv zeta.
  pose proof (reduce_same_outcome env1 env2 ps [] []) as Hred.
  destruct (Darwin.reduce _ ps []) as [m1| |],
           (Darwin.reduce _ ps []) as [m2| |];
    simpl in *; try contradiction; auto.
  assert (Hover : forall (o : option (list ascii)) (m : list Util.IPriority),
             exists rules,
               match o with
               | Some p =>
                   if JsString.truthy p
                   then rbind (Re.new_RegExp (Util.escapeRegexSpecialChars p))
                          (fun re =>
                             Ok ({| Util.regex := re; Util.weight := 151;
                                    Util.quality := Custom |} :: m))
                   else Ok m
               | None => Ok m
               end = Ok rules).
  { intros [p|] m; [|eauto]. destruct (JsString.truthy p); [|eauto].
    rewrite (new_RegExp_ok _ _ (compile_literal _ _ (readsAs_escape p))).
    simpl. eauto. }
  destruct (Hover (gp1 env1) m1) as [x1 ->].
  destruct (Hover (gp2 env2) m2) as [x2 ->]. exact I.
Qed.

(** C6. Whatever the home directory [h] and the preferred path [p] are,
    they cannot make [createPriorities] throw: it returns or throws exactly as
    it does in any other environment with any other preferred path.  For
    variant names that are accepted and have no alternation it returns, the
    patterns it builds from [h] and [p] are the escaped texts, the rule of
    the preferred path only matches candidates that contain [p], and every
    home rule only matches candidates that begin with [h] followed by
    /Applications/. *)
Theorem escaped_home_and_preferred_match_literally
        env getPreferredPath ps h p :
  env (lit "HOME") = Some h ->
  getPreferredPath env = Some p ->
  (forall env' getPreferredPath',
      sameOutcome (fun _ _ => True)
        (Darwin.createPriorities env getPreferredPath ps)
        (Darwin.createPriorities env' getPreferredPath' ps))
  /\ (forallb safeName ps = true ->
  exists o triples,
    Darwin.createPriorities env getPreferredPath ps = Ok (o ++ List.concat triples)
    /\ overrideRule (Some p) o
    /\ (forall r c, In r o -> Re.testRe (Util.regex r) c = true ->
                    JsString.includes p c = true)
    /\ Forall2 (fun v t =>
                  exists r1 r2 r3,
                    t = [r1; r2; r3]
                    /\ Re.source (Util.regex r2)
                       = lit "^" ++ Util.escapeRegexSpecialChars h
                           ++ lit "/Applications/.*" ++ Darwin.name v
                    /\ forall c,
                        Re.testRe (Util.regex r2) c = true ->
                        JsString.startsWith (h ++ lit "/Applications/") c = true)
               ps triples).
Proof.
  intros Hh Hp. split.
  { intros env' getPreferredPath'. apply createPriorities_same_outcome. }
  intros Hsafe. destruct (safeName_split ps Hsafe) as [Hok Hnb].
  destruct (createPriorities_spec env getPreferredPath ps Hok)
    as (o & triples & Hrun & Hover & Hall).
  rewrite Hp in Hover.
  exists o, triples. split; [exact Hrun|]. split; [exact Hover|]. split.
  - intros r c Hr Hmatch. unfold overrideRule in Hover.
    destruct (JsString.truthy p); [|subst o; destruct Hr].
    destruct Hover as (r0 & -> & Hview & Hwf). destruct Hr as [<-|[]].
    rewrite (override_test r0 p _ _ Hview Hwf) in Hmatch. exact Hmatch.
  - eapply Forall2_with_left; [|exact Hnb|exact Hall].
    intros v t Hv Ht. cbv beta in Hv.
    pose proof Ht as (r1 & r2 & r3 & -> & V1 & V2 & V3 & W).
    exists r1, r2, r3. split; [reflexivity|].
    assert (Htext : Darwin.template (Darwin.escapedHome env)
                    = Util.escapeRegexSpecialChars h).
    { unfold Darwin.escapedHome. rewrite Hh. destruct h; reflexivity. }
    assert (Hhome : homeText env = h).
    { unfold homeText. rewrite Hh. reflexivity. }
    split.
    + unfold ruleView in V2. rewrite Htext in V2. congruence.
    + intros c. rewrite <- Hhome. apply (triple_sound env v r1 r2 r3 Ht Hv c).
Qed.

Lemma escaped_home_and_preferred_witness :
  exists o triples,
    Darwin.createPriorities trickyEnv Firefox.getPreferredPath Firefox.variants
    = Ok (o ++ List.concat triples)
    /\ overrideRule (Some (lit "/opt/fire.fox[1]+")) o
    /\ List.length triples = 3.
Proof.
  destruct (proj2 (escaped_home_and_preferred_match_literally
                     trickyEnv Firefox.getPreferredPath Firefox.variants
                     (lit "/Users/a.b (c)*") (lit "/opt/fire.fox[1]+")
                     eq_refl eq_refl) eq_refl)
    as (o & triples & Hrun & Hover & _ & Hall).
  exists o, triples. split; [exact Hrun|]. split; [exact Hover|].
  symmetry. exact (Forall2_length Hall).
Defined.

Example tricky_home_rule_sample :
  match Darwin.createPriorities trickyEnv Firefox.getPreferredPath [stableVariant] with
  | Ok [o; r1; r2; r3] =>
      Re.source (Util.regex o) = lit "\/opt\/fire\.fox\[1\]\+"
      /\ Re.source (Util.regex r2)
         = lit "^\/Users\/a\.b \(c\)\*/Applications/.*Firefox.app"
      /\ Re.testRe (Util.regex r2) (lit "/Users/a.b (c)*/Applications/Firefox.app") = true
      /\ Re.testRe (Util.regex r2) (lit "/Users/aXb (c)/Applications/Firefox.app") = false
      /\ Re.testRe (Util.regex o) (lit "/opt/fire.fox[1]+/Contents/MacOS/firefox") = true
      /\ Re.testRe (Util.regex o) (lit "/opt/fireYfox1/Contents/MacOS/firefox") = false
  | _ => False
  end.
Proof. vm_compute. repeat split. Qed.

(** C10. Leaving HOME unset cannot make [createPriorities] throw: it
    returns or throws exactly as it does in any environment where HOME is
    set.  For variant names that are accepted and have no alternation it
    returns the optional rule of the preferred path, then exactly three
    location rules per variant in the order of the variants.  The home rule
    of a variant has the pattern [^undefined/Applications/.*] followed by the
    name, and only matches candidates that begin with
    undefined/Applications/. *)
Theorem createPriorities_without_home env getPreferredPath ps :
  env (lit "HOME") = None ->
  (forall env' getPreferredPath',
      sameOutcome (fun _ _ => True)
        (Darwin.createPriorities env getPreferredPath ps)
        (Darwin.createPriorities env' getPreferredPath' ps))
  /\ (forallb safeName ps = true ->
  exists o triples,
    Darwin.createPriorities env getPreferredPath ps = Ok (o ++ List.concat triples)
    /\ overrideRule (getPreferredPath env) o
    /\ List.length (List.concat triples) = 3 * List.length ps
    /\ Forall2 (fun v t =>
                  locationTriple env v t
                  /\ exists r1 r2 r3,
                      t = [r1; r2; r3]
                      /\ Re.source (Util.regex r2)
                         = lit "^undefined/Applications/.*" ++ Darwin.name v
                      /\ forall c,
                          Re.testRe (Util.regex r2) c = true ->
                          JsString.startsWith (lit "undefined/Applications/") c = true)
               ps triples).
Proof.
  intros Hh. split.
  { intros env' getPreferredPath'. apply createPriorities_same_outcome. }
  intros Hsafe. destruct (safeName_split ps Hsafe) as [Hok Hnb].
  destruct (createPriorities_spec env getPreferredPath ps Hok)
    as (o & triples & Hrun & Hover & Hall).
  exists o, triples. split; [exact Hrun|]. split; [exact Hover|]. split.
  - clear Hrun Hnb Hsafe.
    induction Hall as [|v t ps' triples' Ht Hall IH]; simpl.
    + reflexivity.
    + destruct Ht as (r1 & r2 & r3 & -> & _).
      rewrite length_app, IH; [simpl; lia|].
      simpl in Hok. apply andb_true_iff in Hok. apply Hok.
  - eapply Forall2_with_left; [|exact Hnb|exact Hall].
    intros v t Hv Ht. cbv beta in Hv. split; [exact Ht|].
    pose proof Ht as (r1 & r2 & r3 & -> & V1 & V2 & V3 & W).
    exists r1, r2, r3. split; [reflexivity|].
    assert (Hhome : homeText env = lit "undefined").
    { unfold homeText. rewrite Hh. reflexivity. }
    split.
    + unfold ruleView, Darwin.escapedHome in V2. rewrite Hh in V2.
      simpl in V2. injection V2 as -> _ _. reflexivity.
    + intros c Hc.
      pose proof (triple_sound env v r1 r2 r3 Ht Hv c) as (_ & Hsound & _).
      rewrite Hhome in Hsound. exact (Hsound Hc).
Qed.

Lemma createPriorities_without_home_witness :
  exists o triples,
    Darwin.createPriorities (envOf None None) Firefox.getPreferredPath
      Firefox.variants
    = Ok (o ++ List.concat triples)
    /\ o = []
    /\ List.length (List.concat triples) = 9.
Proof.
  destruct (proj2 (createPriorities_without_home
                     (envOf None None) Firefox.getPreferredPath
                     Firefox.variants eq_refl) eq_refl)
    as (o & triples & Hrun & Hover & Hlen & _).
  exists o, triples. split; [exact Hrun|]. split; [exact Hover|exact Hlen].
Defined.

Example undefined_home_rule_sample :
  match Darwin.createPriorities (envOf None None) Firefox.getPreferredPath
          [stableVariant] with
  | Ok [r1; r2; r3] =>
      Re.source (Util.regex r2) = lit "^undefined/Applications/.*Firefox.app"
      /\ Re.testRe (Util.regex r2) (lit "undefined/Applications/Firefox.app") = true
      /\ Re.testRe (Util.regex r2) (lit "/Users/me/Applications/Firefox.app") = false
  | _ => False
  end.
Proof. vm_compute. repeat split. Qed.

(** ** Location rules *)


Example firefox_location_order_sample :
  match Darwin.createPriorities sampleEnv Firefox.getPreferredPath [stableVariant] with
  | Ok rules =>
      map (fun c => option_map Util.weight (Util.findPriority rules c))
          [ lit "/Applications/Firefox.app/Contents/MacOS/firefox";
            lit "/Users/me/Applications/Firefox.app/Contents/MacOS/firefox";
            lit "/Volumes/Disk/Firefox.app/Contents/MacOS/firefox" ]
      = [Some 100%Z; Some 0%Z; Some (-100)%Z]
  | _ => False
  end.
Proof. vm_compute. reflexivity. Qed.

(** ** The disambiguation marker *)

Lemma pathSuffixRe_matcher :
  Re.matcher Darwin.pathSuffixRe
  = Re.Seq (Re.seqOf (map Re.Chr (lit " (0x")
                      ++ [Re.Plus hexClass; Re.Chr ")"])) Re.Eps.
Proof. reflexivity. Qed.

Lemma ends_hexClass j r :
  Re.ends hexClass (j, r)
  = match r with
    | c :: t => if isLowerHex c then [(S j, t)] else []
    | [] => []
    end.
Proof. reflexivity. Qed.

Lemma ends_close j r :
  Re.ends (Re.seqOf [Re.Chr ")"]) (j, r)
  = match r with
    | d :: t => if Ascii.eqb ")" d then [(S j, t)] else []
    | [] => []
    end.
Proof.
  destruct r as [|d t]; [reflexivity|].
  cbn [Re.seqOf fold_right Re.ends Re.one snd fst].
  destruct (Ascii.eqb ")" d); reflexivity.
Qed.

Lemma lowerHex_not_close c : isLowerHex c = true -> Ascii.eqb ")" c = false.
Proof.
  intros Hc. destruct (Ascii.eqb ")" c) eqn:E; [|reflexivity].
  apply Ascii.eqb_eq in E. subst c. discriminate.
Qed.

Lemma star_hex_then_close fuel :
  forall j r,
    List.length r < fuel ->
    flat_map (Re.ends (Re.seqOf [Re.Chr ")"]))
             (Re.star (Re.ends hexClass) fuel (j, r))
    = match skipn (hexRun r) r with
      | d :: _ =>
          if Ascii.eqb ")" d
          then [(j + S (hexRun r), skipn (S (hexRun r)) r)]
          else []
      | [] => []
      end.
Proof.
  induction fuel as [|fuel IH]; intros j r Hlen; [lia|].
  cbn [Re.star]. rewrite flat_map_app, ends_hexClass.
  destruct r as [|c r].
  - reflexivity.
  - cbn [hexRun]. destruct (isLowerHex c) eqn:Hc.
    + cbn [flat_map fst]. rewrite app_nil_r.
      replace (S j =? j) with false by (symmetry; apply Nat.eqb_neq; lia).
      rewrite IH by (simpl in Hlen; lia).
      rewrite ends_close, (lowerHex_not_close c Hc). cbn [flat_map skipn].
      rewrite app_nil_r.
      replace (S j + S (hexRun r)) with (j + S (S (hexRun r))) by lia.
      reflexivity.
    + cbn [flat_map app skipn]. rewrite ends_close, app_nil_r.
      destruct (Ascii.eqb ")" c); [|reflexivity].
      replace (j + 1) with (S j) by lia. reflexivity.
Qed.

Lemma ends_pathSuffix i s :
  Re.ends (Re.matcher Darwin.pathSuffixRe) (i, s)
  = match markerAt s with
    | Some n => [(i + n, skipn n s)]
    | None => []
    end.
Proof.
  rewrite pathSuffixRe_matcher. cbn [Re.ends].
  rewrite ends_seqOf_app, ends_literal. unfold markerAt.
  destruct (JsString.startsWith (lit " (0x") s); [|reflexivity].
  cbn [flat_map]. rewrite !app_nil_r.
  change (List.length (lit " (0x")) with 4.
  change (Re.seqOf [Re.Plus hexClass; Re.Chr ")"])
    with (Re.Seq (Re.Seq hexClass (Re.Star hexClass)) (Re.seqOf [Re.Chr ")"])).
  cbn [Re.ends]. rewrite ends_hexClass.
  destruct (skipn _ s) as [|c r] eqn:Hs; [reflexivity|].
  destruct (isLowerHex c); [|reflexivity].
  cbn [flat_map snd]. rewrite !app_nil_r.
  rewrite star_hex_then_close by lia.
  destruct (skipn (hexRun r) r) as [|d t]; [reflexivity|].
  destruct (Ascii.eqb ")" d); [|reflexivity].
  cbn [flat_map Re.ends app].
  replace (S (i + 4) + S (hexRun r)) with (i + (6 + hexRun r)) by lia.
  assert (Hsk : skipn (6 + hexRun r) s = skipn (S (hexRun r)) r).
  { replace (6 + hexRun r) with (S (hexRun r) + (1 + 4)) by lia.
    rewrite <- !skipn_skipn, Hs. reflexivity. }
  rewrite Hsk. reflexivity.
Qed.

Lemma execFrom_pathSuffix s :
  forall i,
    match Re.execFrom (Re.matcher Darwin.pathSuffixRe) i s with
    | Some (k, (_, rest)) => firstn (k - i) s ++ rest
    | None => s
    end = stripMarker s.
Proof.
  induction s as [|c t IH]; intros i.
  - cbn [Re.execFrom]. rewrite ends_pathSuffix. reflexivity.
  - cbn [Re.execFrom stripMarker]. rewrite ends_pathSuffix.
    destruct (markerAt (c :: t)) as [n|].
    + rewrite Nat.sub_diag. reflexivity.
    + specialize (IH (S i)).
      destruct (Re.execFrom (Re.matcher Darwin.pathSuffixRe) (S i) t)
        as [[k [j rest]]|] eqn:Hex.
      * destruct (execFrom_sound _ _ _ _ _ Hex) as (m & -> & _).
        replace (S i + m - i) with (S m) by lia.
        replace (S i + m - S i) with m in IH by lia.
        cbn [firstn app]. f_equal. exact IH.
      * f_equal. exact IH.
Qed.

Lemma replace_pathSuffix s :
  Re.replaceRe Darwin.pathSuffixRe s [] = stripMarker s.
Proof.
  unfold Re.replaceRe, Re.replace, Re.exec.
  rewrite <- (execFrom_pathSuffix s 0).
  destruct (Re.execFrom _ 0 s) as [[k [j rest]]|]; [|reflexivity].
  rewrite Nat.sub_0_r. reflexivity.
Qed.

Lemma execFrom_none r s :
  forall i, Re.execFrom r i s = None ->
            forall k, k <= List.length s -> Re.ends r (i + k, skipn k s) = [].
Proof.
  induction s as [|c t IH]; intros i; cbn [Re.execFrom].
  - destruct (Re.ends r (i, [])) eqn:He; [|discriminate].
    intros _ k Hk. simpl in Hk. assert (k = 0) by lia. subst k.
    rewrite Nat.add_0_r. exact He.
  - destruct (Re.ends r (i, c :: t)) eqn:He; [|discriminate].
    intros Hex k Hk. destruct k as [|k].
    + rewrite Nat.add_0_r. exact He.
    + replace (i + S k) with (S i + k) by lia.
      apply (IH (S i) Hex k). simpl in Hk. lia.
Qed.

Lemma markerAt_nil : markerAt [] = None.
Proof. reflexivity. Qed.

Lemma test_false_noMarker s :
  Re.testRe Darwin.pathSuffixRe s = false -> noMarker s.
Proof.
  unfold Re.testRe, Re.test, Re.exec. intros Ht i.
  destruct (Re.execFrom (Re.matcher Darwin.pathSuffixRe) 0 s) eqn:Hex;
    [discriminate|].
  destruct (Nat.le_gt_cases i (List.length s)) as [Hle|Hgt].
  - pose proof (execFrom_none _ _ _ Hex i Hle) as He.
    rewrite ends_pathSuffix in He.
    destruct (markerAt (skipn i s)); [discriminate|reflexivity].
  - rewrite skipn_all2 by lia. reflexivity.
Qed.

Lemma noMarker_skipn s j : noMarker s -> noMarker (skipn j s).
Proof. intros H i. rewrite skipn_skipn. apply H. Qed.

Lemma noMarker_tail c s : noMarker (c :: s) -> noMarker s.
Proof. intros H i. exact (H (S i)). Qed.

Lemma stripMarker_noMarker s : noMarker s -> stripMarker s = s.
Proof.
  induction s as [|c t IH]; intros H.
  - reflexivity.
  - cbn [stripMarker]. rewrite (H 0 : markerAt (c :: t) = None).
    f_equal. apply IH. exact (noMarker_tail c t H).
Qed.

(** *** Hexadecimal runs *)

Lemma hexRun_le r : hexRun r <= List.length r.
Proof.
  induction r as [|c r IH]; simpl; [lia|]. destruct (isLowerHex c); simpl; lia.
Qed.

Lemma hexRun_app_stop r d t b :
  skipn (hexRun r) r = d :: t ->
  hexRun (r ++ b) = hexRun r /\ skipn (hexRun r) (r ++ b) = d :: t ++ b.
Proof.
  induction r as [|c r IH]; cbn [hexRun app].
  - discriminate.
  - destruct (isLowerHex c) eqn:Hc.
    + cbn [skipn]. intros H. destruct (IH H) as [-> ->]. auto.
    + cbn [skipn]. intros [= <- <-]. auto.
Qed.

Lemma hexRun_app_nonhex r c m :
  isLowerHex c = false ->
  hexRun (r ++ c :: m) = hexRun r
  /\ skipn (hexRun r) (r ++ c :: m) = skipn (hexRun r) r ++ c :: m.
Proof.
  intros Hc. induction r as [|x r IH]; cbn [hexRun app].
  - rewrite Hc. auto.
  - destruct (isLowerHex x); cbn [skipn]; auto.
    destruct IH as [-> ->]. auto.
Qed.

Lemma hexRun_all hex :
  forallb isLowerHex hex = true ->
  hexRun hex = List.length hex.
Proof.
  induction hex as [|c r IH]; simpl; [reflexivity|].
  intros H. apply andb_true_iff in H. destruct H as [-> H]. rewrite IH; auto.
Qed.

(** *** Markers and concatenation *)

Lemma startsWith_app p s b :
  JsString.startsWith p s = true -> JsString.startsWith p (s ++ b) = true.
Proof.
  rewrite !startsWith_spec. intros [t ->]. exists (t ++ b).
  rewrite app_assoc. reflexivity.
Qed.

Lemma startsWith_length p s :
  JsString.startsWith p s = true -> List.length p <= List.length s.
Proof.
  rewrite startsWith_spec. intros [t ->]. rewrite length_app. lia.
Qed.

(** A marker at the head of [x] is still there when text follows. *)
Lemma markerAt_app x b n : markerAt x = Some n -> markerAt (x ++ b) = Some n.
Proof.
  unfold markerAt.
  destruct (JsString.startsWith (lit " (0x") x) eqn:Hs; [|discriminate].
  rewrite (startsWith_app _ _ b Hs).
  apply startsWith_length in Hs. change (List.length (lit " (0x")) with 4 in Hs.
  rewrite skipn_app. replace (4 - List.length x) with 0 by lia.
  change (skipn 0 b) with b.
  destruct (skipn 4 x) as [|c r]; [intros H; discriminate H|]. cbn [app].
  destruct (isLowerHex c); [|intros H; discriminate H].
  destruct (skipn (hexRun r) r) as [|d t] eqn:Hd; [intros H; discriminate H|].
  destruct (hexRun_app_stop r d t b Hd) as [-> ->]. auto.
Qed.

(** A marker at the head of a non-empty [u] followed by a space lies within
    [u]. *)
Lemma markerAt_before_space u m n :
  u <> [] ->
  markerAt (u ++ " "%char :: m) = Some n -> markerAt u = Some n.
Proof.
  intros Hu. unfold markerAt.
  destruct u as [|c0 [|c1 [|c2 [|c3 u4]]]]; [congruence| | | |].
  - cbn [app JsString.startsWith lit list_ascii_of_string].
    change (Ascii.eqb "(" " ") with false. cbn [andb].
    rewrite !andb_false_r. intros H; discriminate H.
  - cbn [app JsString.startsWith lit list_ascii_of_string].
    change (Ascii.eqb "0" " ") with false. cbn [andb].
    rewrite !andb_false_r. intros H; discriminate H.
  - cbn [app JsString.startsWith lit list_ascii_of_string].
    change (Ascii.eqb "x" " ") with false. cbn [andb].
    rewrite !andb_false_r. intros H; discriminate H.
  - change (JsString.startsWith (lit " (0x") ((c0 :: c1 :: c2 :: c3 :: u4) ++ " "%char :: m))
      with (JsString.startsWith (lit " (0x") (c0 :: c1 :: c2 :: c3 :: u4)).
    destruct (JsString.startsWith (lit " (0x") (c0 :: c1 :: c2 :: c3 :: u4));
      [|intros H; discriminate H].
    cbn [app skipn].
    destruct u4 as [|c r].
    { cbn [app]. change (isLowerHex " ") with false. intros H; discriminate H. }
    cbn [app]. destruct (isLowerHex c); [|intros H; discriminate H].
    destruct (hexRun_app_nonhex r " "%char m eq_refl) as [-> ->].
    destruct (skipn (hexRun r) r) as [|d t]; [|auto].
    cbn [app]. change (Ascii.eqb ")" " ") with false. intros H; discriminate H.
Qed.

Lemma markerAt_marker hex :
  hex <> [] -> forallb isLowerHex hex = true ->
  markerAt (marker hex) = Some (List.length (marker hex)).
Proof.
  intros Hne Hhex. destruct hex as [|c r]; [congruence|].
  simpl in Hhex. apply andb_true_iff in Hhex. destruct Hhex as [Hc Hr].
  unfold markerAt, marker.
  change (JsString.startsWith (lit " (0x") (lit " (0x" ++ (c :: r) ++ lit ")"))
    with true. cbn [lit list_ascii_of_string app skipn]. rewrite Hc.
  destruct (hexRun_app_nonhex r ")"%char [] eq_refl) as [-> ->].
  rewrite (hexRun_all r Hr), skipn_all. cbn [app].
  change (Ascii.eqb ")" ")") with true.
  cbn iota. f_equal. cbn [List.length]. rewrite length_app. simpl. lia.
Qed.

Lemma stripMarker_app_marker t hex :
  hex <> [] -> forallb isLowerHex hex = true ->
  noMarker t ->
  stripMarker (t ++ marker hex) = t.
Proof.
  intros Hne Hhex. induction t as [|c t IH]; intros Hno.
  - cbn [app]. destruct (marker hex) as [|x y] eqn:Hm.
    + reflexivity.
    + cbn [stripMarker]. rewrite <- Hm, (markerAt_marker hex Hne Hhex).
      apply skipn_all.
  - cbn [app stripMarker].
    destruct (markerAt (c :: t ++ marker hex)) as [n|] eqn:Hmk.
    + apply (markerAt_before_space (c :: t) (tl (marker hex)) n) in Hmk;
        [|discriminate].
      rewrite (Hno 0 : markerAt (c :: t) = None) in Hmk. discriminate.
    + f_equal. apply IH. exact (noMarker_tail c t Hno).
Qed.

(** *** Trimming *)

Lemma trimStart_idem l : JsString.trimStart (JsString.trimStart l) = JsString.trimStart l.
Proof.
  induction l as [|c l IH]; [reflexivity|].
  cbn [JsString.trimStart]. destruct (JsString.isWhiteSpace c) eqn:Hc; [exact IH|].
  cbn [JsString.trimStart]. rewrite Hc. reflexivity.
Qed.

Lemma trimStart_head l c t :
  JsString.trimStart l = c :: t -> JsString.isWhiteSpace c = false.
Proof.
  induction l as [|x l IH]; cbn [JsString.trimStart]; [discriminate|].
  destruct (JsString.isWhiteSpace x) eqn:Hx; [exact IH|].
  intros [= <- _]. exact Hx.
Qed.

Lemma trimStart_suffix l : exists j, JsString.trimStart l = skipn j l.
Proof.
  induction l as [|c l [j IH]].
  - exists 0. reflexivity.
  - cbn [JsString.trimStart]. destruct (JsString.isWhiteSpace c).
    + exists (S j). exact IH.
    + exists 0. reflexivity.
Qed.

Lemma trimStart_app l x :
  JsString.trimStart l <> [] ->
  JsString.trimStart (l ++ x) = JsString.trimStart l ++ x.
Proof.
  induction l as [|c l IH]; cbn [JsString.trimStart app]; [congruence|].
  destruct (JsString.isWhiteSpace c); auto.
Qed.

Lemma trimStart_snoc a c :
  JsString.isWhiteSpace c = false ->
  JsString.trimStart (a ++ [c]) = JsString.trimStart a ++ [c].
Proof.
  intros Hc. induction a as [|x a IH]; cbn [JsString.trimStart app].
  - rewrite Hc. reflexivity.
  - destruct (JsString.isWhiteSpace x); auto.
Qed.

Lemma trimEnd_cons c t :
  JsString.isWhiteSpace c = false ->
  JsString.trimEnd (c :: t) = c :: JsString.trimEnd t.
Proof.
  intros Hc. unfold JsString.trimEnd. cbn [rev].
  rewrite (trimStart_snoc _ c Hc), rev_unit. reflexivity.
Qed.

Lemma trimEnd_snoc a c :
  JsString.isWhiteSpace c = false ->
  JsString.trimEnd (a ++ [c]) = a ++ [c].
Proof.
  intros Hc. unfold JsString.trimEnd. rewrite rev_unit.
  cbn [JsString.trimStart]. rewrite Hc. cbn [rev]. rewrite rev_involutive.
  reflexivity.
Qed.

Lemma trimEnd_idem l : JsString.trimEnd (JsString.trimEnd l) = JsString.trimEnd l.
Proof.
  unfold JsString.trimEnd. rewrite rev_involutive, trimStart_idem. reflexivity.
Qed.

Lemma trimEnd_prefix l : exists w, l = JsString.trimEnd l ++ w.
Proof.
  unfold JsString.trimEnd. destruct (trimStart_suffix (rev l)) as [j Hj].
  exists (rev (firstn j (rev l))). rewrite Hj, <- rev_app_distr.
  rewrite firstn_skipn, rev_involutive. reflexivity.
Qed.

(** Trimming what starts with a visible character only cuts at the end. *)
Lemma trim_of_trimStart l :
  JsString.trim (JsString.trimStart l) = JsString.trim l.
Proof. unfold JsString.trim. rewrite trimStart_idem. reflexivity. Qed.

Lemma trimStart_trim l :
  JsString.trimStart (JsString.trim l) = JsString.trim l.
Proof.
  unfold JsString.trim. destruct (JsString.trimStart l) as [|c t] eqn:Hl.
  - reflexivity.
  - pose proof (trimStart_head l c t Hl) as Hc.
    rewrite (trimEnd_cons c t Hc). cbn [JsString.trimStart]. rewrite Hc.
    reflexivity.
Qed.

Lemma trim_idem l : JsString.trim (JsString.trim l) = JsString.trim l.
Proof.
  unfold JsString.trim at 1. rewrite trimStart_trim.
  unfold JsString.trim. apply trimEnd_idem.
Qed.

Lemma trim_truthy l :
  JsString.truthy (JsString.trim l) = JsString.truthy (JsString.trimStart l).
Proof.
  unfold JsString.trim. destruct (JsString.trimStart l) as [|c t] eqn:Hl.
  - reflexivity.
  - rewrite (trimEnd_cons c t (trimStart_head l c t Hl)). reflexivity.
Qed.

Lemma trim_app_marker l hex :
  JsString.truthy (JsString.trim l) = true ->
  JsString.trim (l ++ marker hex) = JsString.trimStart l ++ marker hex.
Proof.
  rewrite trim_truthy. intros Hl. unfold JsString.trim.
  rewrite trimStart_app by (destruct (JsString.trimStart l); [discriminate|congruence]).
  unfold marker. rewrite !app_assoc. apply trimEnd_snoc. reflexivity.
Qed.

Lemma noMarker_trimStart l : noMarker l -> noMarker (JsString.trimStart l).
Proof.
  destruct (trimStart_suffix l) as [j ->]. apply noMarker_skipn.
Qed.

Lemma noMarker_trimEnd l : noMarker l -> noMarker (JsString.trimEnd l).
Proof.
  intros Hno i. destruct (trimEnd_prefix l) as [w Hw].
  destruct (markerAt (skipn i (JsString.trimEnd l))) as [n|] eqn:Hm;
    [|reflexivity].
  destruct (Nat.le_gt_cases i (List.length (JsString.trimEnd l))) as [Hle|Hgt].
  - apply (markerAt_app _ w) in Hm.
    specialize (Hno i). rewrite Hw, skipn_app in Hno.
    replace (i - List.length (JsString.trimEnd l)) with 0 in Hno by lia.
    change (skipn 0 w) with w in Hno. congruence.
  - rewrite skipn_all2 in Hm by lia. discriminate.
Qed.

Lemma noMarker_trim l : noMarker l -> noMarker (JsString.trim l).
Proof. intros H. apply noMarker_trimEnd, noMarker_trimStart, H. Qed.

(** What a registry line becomes, with and without its marker. *)
Lemma registry_line_with_marker l hex :
  hex <> [] -> forallb isLowerHex hex = true ->
  JsString.truthy (JsString.trim l) = true ->
  Re.testRe Darwin.pathSuffixRe l = false ->
  Re.replaceRe Darwin.pathSuffixRe (JsString.trim (l ++ marker hex)) []
  = JsString.trimStart l.
Proof.
  intros Hne Hhex Hvis Hno. rewrite replace_pathSuffix, trim_app_marker by assumption.
  apply stripMarker_app_marker; auto.
  apply noMarker_trimStart, test_false_noMarker, Hno.
Qed.

Lemma registry_line_without_marker l :
  Re.testRe Darwin.pathSuffixRe l = false ->
  Re.replaceRe Darwin.pathSuffixRe (JsString.trim l) [] = JsString.trim l.
Proof.
  intros Hno. rewrite replace_pathSuffix. apply stripMarker_noMarker.
  apply noMarker_trim, test_false_noMarker, Hno.
Qed.

(** *** Lines *)

Lemma split_line x : noNewline x = true -> JsString.split newline x = [x].
Proof.
  induction x as [|c x IH]; cbn [noNewline forallb JsString.split].
  - reflexivity.
  - intros H. apply andb_true_iff in H. destruct H as [Hc Hx].
    apply negb_true_iff in Hc. rewrite Hc, (IH Hx). reflexivity.
Qed.

Lemma split_line_sep x rest :
  noNewline x = true ->
  JsString.split newline (x ++ newline :: rest) = x :: JsString.split newline rest.
Proof.
  induction x as [|c x IH]; cbn [noNewline forallb JsString.split app].
  - intros _. rewrite Ascii.eqb_refl. reflexivity.
  - intros H. apply andb_true_iff in H. destruct H as [Hc Hx].
    apply negb_true_iff in Hc. rewrite Hc, (IH Hx). reflexivity.
Qed.

Lemma split_join lines :
  lines <> [] -> forallb noNewline lines = true ->
  JsString.split newline (JsString.join newline lines) = lines.
Proof.
  induction lines as [|x r IH]; [congruence|]. intros _ H.
  cbn [forallb] in H. apply andb_true_iff in H. destruct H as [Hx Hr].
  destruct r as [|y r].
  - apply split_line. exact Hx.
  - change (JsString.join newline (x :: y :: r))
      with (x ++ newline :: JsString.join newline (y :: r)).
    rewrite (split_line_sep x _ Hx), IH; [reflexivity|discriminate|exact Hr].
Qed.

Lemma forOf_map {S A B T : Type} (f : A -> B) (body : T -> B -> ST S T) l :
  forall acc st,
    forOf l (fun acc x => body acc (f x)) acc st = forOf (map f l) body acc st.
Proof.
  induction l as [|x l IH]; intros acc st; cbn [forOf map]; [reflexivity|].
  unfold bind. destruct (body acc (f x) st) as [[a|e|] st']; auto.
Qed.

Lemma map_app_same {A B : Type} (f : A -> B) x1 x2 l :
  map f x1 = map f x2 -> map f (x1 ++ l) = map f (x2 ++ l).
Proof. intros H. rewrite !map_app, H. reflexivity. Qed.

Lemma installationsOf_trimmed h env getPreferredPath stdout defaultPaths suffixes w :
  Darwin.installationsOf h env getPreferredPath stdout defaultPaths suffixes w
  = forOf
      (map JsString.trim
           (let paths :=
              filter JsString.truthy
                     (defaultPaths ++ Darwin.registryPaths stdout) in
            match getPreferredPath env with
            | Some p => if JsString.truthy p then paths ++ [p] else paths
            | None => paths
            end))
      (fun installations inst =>
         forOf suffixes
           (fun installations suffix =>
              bind (fsAccess h (posix_join h inst suffix))
                   (fun ok =>
                      ret (if ok
                           then Darwin.setAdd (posix_join h inst suffix) installations
                           else installations)))
           installations)
      [] w.
Proof.
  unfold Darwin.installationsOf. cbv zeta.
  rewrite <- forOf_map. reflexivity.
Qed.

Lemma noNewline_marker line hex :
  forallb isLowerHex hex = true ->
  noNewline line = true -> noNewline (line ++ marker hex) = true.
Proof.
  intros Hhex Hl. unfold noNewline, marker in *.
  rewrite !forallb_app, Hl. cbn [andb].
  apply andb_true_iff. split; [reflexivity|].
  apply andb_true_iff. split; [|reflexivity].
  clear Hl. induction hex as [|c r IH]; [reflexivity|].
  cbn [forallb] in *. apply andb_true_iff in Hhex. destruct Hhex as [Hc Hr].
  rewrite (IH Hr), andb_true_r. apply negb_true_iff.
  destruct (Ascii.eqb c newline) eqn:E; [|reflexivity].
  apply Ascii.eqb_eq in E. subst c. discriminate.
Qed.

(** C8, as amended. Take a line of the command's output that has a visible
    character and no marker of its own, and put after it a marker [ (0x...)]
    of one or more digits among 0-9 and a-f: the scan finds the installations
    it finds for the line without the marker. *)
Theorem marker_of_lower_hex_is_stripped
        h env getPreferredPath defaultPaths suffixes before after line hex w :
  hex <> [] ->
  forallb isLowerHex hex = true ->
  forallb noNewline (before ++ line :: after) = true ->
  JsString.truthy (JsString.trim line) = true ->
  Re.testRe Darwin.pathSuffixRe line = false ->
  Darwin.installationsOf h env getPreferredPath
    (JsString.join newline (before ++ (line ++ marker hex) :: after))
    defaultPaths suffixes w
  = Darwin.installationsOf h env getPreferredPath
      (JsString.join newline (before ++ line :: after))
      defaultPaths suffixes w.
Proof.
  intros Hne Hhex Hlines Hvis Hno.
  rewrite !installationsOf_trimmed. f_equal.
  assert (Hparts : forallb noNewline before = true
                   /\ noNewline line = true /\ forallb noNewline after = true).
  { rewrite forallb_app in Hlines. cbn [forallb] in Hlines.
    apply andb_true_iff in Hlines. destruct Hlines as [Hb Hla].
    apply andb_true_iff in Hla. tauto. }
  destruct Hparts as (Hb & Hl & Ha).
  unfold Darwin.registryPaths.
  rewrite !split_join;
    try (destruct before; discriminate);
    try (rewrite forallb_app; cbn [forallb];
         rewrite Hb, Ha, ?Hl, ?(noNewline_marker line hex Hhex Hl); reflexivity).
  cbv zeta.
  assert (Hmid :
    map JsString.trim
        (filter JsString.truthy
           (defaultPaths
            ++ map (fun l => Re.replaceRe Darwin.pathSuffixRe (JsString.trim l) [])
                   (before ++ (line ++ marker hex) :: after)))
    = map JsString.trim
        (filter JsString.truthy
           (defaultPaths
            ++ map (fun l => Re.replaceRe Darwin.pathSuffixRe (JsString.trim l) [])
                   (before ++ line :: after)))).
  { rewrite !map_app, !filter_app, !map_app. cbn [map filter].
    rewrite (registry_line_with_marker line hex Hne Hhex Hvis Hno).
    rewrite (registry_line_without_marker line Hno).
    rewrite <- trim_truthy, Hvis. cbn [map].
    rewrite trim_of_trimStart, trim_idem. reflexivity. }
  destruct (getPreferredPath env) as [p|]; [|exact Hmid].
  destruct (JsString.truthy p); [|exact Hmid].
  apply map_app_same. exact Hmid.
Qed.

(** C8, as stated, fails: the marker (0x1A2B3C), with capital digits, is
    left on the line, and the path with the marker in it becomes a candidate
    of its own. *)
Lemma marker_upper_hex_counterexample :
  (fst (Darwin.installationsOf openHost (envOf None None) Firefox.getPreferredPath
          (lit " /Applications/Firefox.app (0x1A2B3C)")
          Firefox.defaultPaths Firefox.suffixes emptyWorld)
   = Ok [ lit "/Applications/Firefox.app/Contents/MacOS/firefox";
          lit "/Applications/Firefox.app (0x1A2B3C)/Contents/MacOS/firefox" ]
   /\ fst (Darwin.installationsOf openHost (envOf None None)
             Firefox.getPreferredPath
             (lit " /Applications/Firefox.app")
             Firefox.defaultPaths Firefox.suffixes emptyWorld)
      = Ok [ lit "/Applications/Firefox.app/Contents/MacOS/firefox" ])
  /\ ~ markerAlwaysStripped.
Proof.
  split; [vm_compute; split; reflexivity|].
  intros Hclaim.
  specialize (Hclaim openHost (envOf None None) Firefox.getPreferredPath
                Firefox.defaultPaths Firefox.suffixes [] []
                (lit " /Applications/Firefox.app") (lit "1A2B3C") emptyWorld).
  assert (Hne : lit "1A2B3C" <> []) by discriminate.
  specialize (Hclaim Hne eq_refl eq_refl).
  vm_compute in Hclaim. discriminate Hclaim.
Qed.

Lemma marker_of_lower_hex_witness :
  Darwin.installationsOf openHost (envOf None None) Firefox.getPreferredPath
    (JsString.join newline
       ([] ++ (lit " /Applications/Firefox Nightly.app" ++ marker (lit "1a2b3c")) :: []))
    Firefox.defaultPaths Firefox.suffixes emptyWorld
  = Darwin.installationsOf openHost (envOf None None) Firefox.getPreferredPath
      (JsString.join newline ([] ++ lit " /Applications/Firefox Nightly.app" :: []))
      Firefox.defaultPaths Firefox.suffixes emptyWorld.
Proof.
  apply marker_of_lower_hex_is_stripped.
  - discriminate.
  - reflexivity.
  - reflexivity.
  - reflexivity.
  - vm_compute. reflexivity.
Defined.

(** The first marker of a line is the one removed, wherever it stands, and a
    line that is only a marker keeps it. *)
Example marker_inside_line_sample :
  Darwin.registryPaths (lit " /Volumes/a (0x1)/Firefox.app (0x2)")
  = [lit "/Volumes/a/Firefox.app (0x2)"]
  /\ Darwin.registryPaths (lit " (0x1a2b3c)") = [lit "(0x1a2b3c)"]
  /\ Darwin.registryPaths (lit " /Applications/Firefox.app (0x1a2b3c)")
     = [lit "/Applications/Firefox.app"].
Proof. vm_compute. repeat split. Qed.

(** ** The registry scan in closed form *)

Lemma str_eqb_spec a b : JsString.eqb a b = true <-> a = b.
Proof.
  unfold JsString.eqb. destruct (list_eq_dec ascii_dec a b); split; auto.
  discriminate.
Qed.

Lemma str_eqb_refl a : JsString.eqb a a = true.
Proof. apply str_eqb_spec. reflexivity. Qed.

Lemma probed_nil w : probed w [] = w.
Proof. unfold probed. rewrite app_nil_r. destruct w; reflexivity. Qed.

Lemma probed_probed w a b : probed (probed w a) b = probed w (a ++ b).
Proof. unfold probed. simpl. rewrite app_assoc. reflexivity. Qed.

Lemma forOf_probe {A : Type} h (f : A -> list ascii) l :
  forall acc w,
    forOf l
      (fun installations x =>
         ok <- fsAccess h (f x) ;;
         ret (if ok then Darwin.setAdd (f x) installations else installations))
      acc w
    = (Ok (fold_left (probeAdd h) (map f l) acc), probed w (map f l)).
Proof.
  induction l as [|x l IH]; intros acc w.
  - cbn [forOf map fold_left]. unfold ret. rewrite probed_nil. reflexivity.
  - cbn [forOf map fold_left]. unfold bind at 1.
    unfold bind, fsAccess, ret. rewrite IH.
    fold (probed w [f x]). rewrite probed_probed. reflexivity.
Qed.

Lemma forOf_candidates h suffixes paths :
  forall acc w,
    forOf paths
      (fun installations inst =>
         forOf suffixes
           (fun installations suffix =>
              let execPath := posix_join h (JsString.trim inst) suffix in
              ok <- fsAccess h execPath ;;
              ret (if ok then Darwin.setAdd execPath installations
                   else installations))
           installations)
      acc w
    = (Ok (fold_left (probeAdd h) (candidates h paths suffixes) acc),
       probed w (candidates h paths suffixes)).
Proof.
  induction paths as [|inst paths IH]; intros acc w.
  - cbn [forOf candidates flat_map fold_left]. unfold ret.
    rewrite probed_nil. reflexivity.
  - cbn [forOf]. unfold bind at 1. cbv zeta.
    rewrite (forOf_probe h (fun suffix => posix_join h (JsString.trim inst) suffix)).
    rewrite IH. unfold candidates. cbn [flat_map].
    rewrite fold_left_app, probed_probed. reflexivity.
Qed.

Lemma fold_probeAdd h l :
  forall acc,
    fold_left (probeAdd h) l acc
    = fold_left (fun installations p => Darwin.setAdd p installations)
                (filter (fs_access h) l) acc.
Proof.
  induction l as [|p l IH]; intros acc; cbn [fold_left filter]; [reflexivity|].
  unfold probeAdd at 2. destruct (fs_access h p); cbn [fold_left]; apply IH.
Qed.

Lemma filter_filter_implied {A : Type} (f g : A -> bool) l :
  (forall x, f x = true -> g x = true) ->
  filter f (filter g l) = filter f l.
Proof.
  intros Himp. induction l as [|x l IH]; cbn [filter]; [reflexivity|].
  destruct (g x) eqn:Hg; cbn [filter].
  - rewrite IH. reflexivity.
  - destruct (f x) eqn:Hf; [|exact IH].
    rewrite (Himp x Hf) in Hg. discriminate.
Qed.

Lemma filter_filter {A : Type} (f g : A -> bool) l :
  filter f (filter g l) = filter (fun x => g x && f x) l.
Proof.
  induction l as [|x l IH]; cbn [filter]; [reflexivity|].
  destruct (g x); cbn [filter andb]; rewrite IH; reflexivity.
Qed.

(** Adding the elements of a list to a set, one after the other, appends
    those that are new, each where it first occurs. *)
Lemma fold_setAdd l :
  forall acc,
    fold_left (fun installations p => Darwin.setAdd p installations) l acc
    = acc ++ filter (fun y => negb (existsb (JsString.eqb y) acc))
                    (firstOccurrences l).
Proof.
  induction l as [|x l IH]; intros acc; cbn [fold_left firstOccurrences filter].
  - rewrite app_nil_r. reflexivity.
  - rewrite IH. unfold Darwin.setAdd.
    destruct (existsb (JsString.eqb x) acc) eqn:Hx; cbn [negb].
    + f_equal. symmetry. apply filter_filter_implied.
      intros y Hy. apply negb_true_iff. apply negb_true_iff in Hy.
      destruct (JsString.eqb x y) eqn:E; [|reflexivity].
      apply str_eqb_spec in E. subst y. congruence.
    + rewrite <- app_assoc. cbn [app]. f_equal. f_equal.
      rewrite filter_filter. apply filter_ext. intros y.
      rewrite existsb_app. cbn [existsb]. rewrite orb_false_r, negb_orb.
      rewrite andb_comm. f_equal. f_equal.
      destruct (JsString.eqb y x) eqn:E1, (JsString.eqb x y) eqn:E2;
        try reflexivity.
      * apply str_eqb_spec in E1. subst y. rewrite str_eqb_refl in E2. discriminate.
      * apply str_eqb_spec in E2. subst y. rewrite str_eqb_refl in E1. discriminate.
Qed.

Lemma firstOccurrences_In l p : In p (firstOccurrences l) <-> In p l.
Proof.
  induction l as [|x l IH]; cbn [firstOccurrences In]; [tauto|].
  rewrite filter_In, IH. split.
  - intros [H|[H _]]; auto.
  - intros [H|H]; [auto|].
    destruct (JsString.eqb x p) eqn:E.
    + left. apply str_eqb_spec. exact E.
    + right. split; [exact H|reflexivity].
Qed.

Lemma NoDup_filter {A : Type} (f : A -> bool) l : NoDup l -> NoDup (filter f l).
Proof.
  induction 1 as [|x l Hx Hl IH]; cbn [filter]; [constructor|].
  destruct (f x); [|exact IH]. constructor; [|exact IH].
  rewrite filter_In. tauto.
Qed.

Lemma firstOccurrences_NoDup l : NoDup (firstOccurrences l).
Proof.
  induction l as [|x l IH]; cbn [firstOccurrences]; constructor.
  - rewrite filter_In. intros [_ H]. rewrite str_eqb_refl in H. discriminate.
  - apply NoDup_filter, IH.
Qed.

Lemma installationsOf_run h env getPreferredPath stdout defaultPaths suffixes w :
  Darwin.installationsOf h env getPreferredPath stdout defaultPaths suffixes w
  = let cs :=
      candidates h (scanPaths env getPreferredPath stdout defaultPaths)
                 suffixes in
    (Ok (firstOccurrences (filter (fs_access h) cs)), probed w cs).
Proof.
  unfold Darwin.installationsOf. cbv zeta.
  rewrite forOf_candidates, fold_probeAdd, fold_setAdd. cbn [app existsb negb].
  assert (Hall : forall l : list (list ascii), filter (fun _ => true) l = l).
  { intros l. induction l as [|x l IH]; cbn [filter]; congruence. }
  rewrite Hall. reflexivity.
Qed.

Lemma findLaunchRegisteredApps_run
      h env getPreferredPath pattern defaultPaths suffixes w :
  Darwin.findLaunchRegisteredApps h env getPreferredPath
    pattern defaultPaths suffixes w
  = let cmd := Darwin.registryCommand pattern in
    match execa_command h (List.length (commands w)) cmd with
    | inl e => (Throw e, ran w cmd)
    | inr stdout =>
        let cs :=
          candidates h (scanPaths env getPreferredPath stdout defaultPaths)
                     suffixes in
        (Ok (firstOccurrences (filter (fs_access h) cs)),
         probed (ran w cmd) cs)
    end.
Proof.
  unfold Darwin.findLaunchRegisteredApps, bind, execaCommand. cbv zeta.
  destruct (execa_command h _ _) as [e|stdout]; [reflexivity|].
  rewrite installationsOf_run. reflexivity.
Qed.

Lemma truthy_spec (s : list ascii) : JsString.truthy s = true <-> s <> [].
Proof. destruct s; simpl; split; congruence. Qed.

Lemma scanPaths_In env getPreferredPath stdout defaultPaths inst :
  In inst (scanPaths env getPreferredPath stdout defaultPaths)
  <-> inst <> []
      /\ (In inst defaultPaths \/ In inst (Darwin.registryPaths stdout)
          \/ getPreferredPath env = Some inst).
Proof.
  unfold scanPaths. cbv zeta.
  assert (Hbase : In inst (filter JsString.truthy
                             (defaultPaths ++ Darwin.registryPaths stdout))
                  <-> inst <> []
                      /\ (In inst defaultPaths
                          \/ In inst (Darwin.registryPaths stdout))).
  { rewrite filter_In, in_app_iff, truthy_spec. tauto. }
  destruct (getPreferredPath env) as [p|].
  - destruct (JsString.truthy p) eqn:Hp.
    + rewrite in_app_iff, Hbase. cbn [In]. split.
      * intros [[Hne H]|[<-|[]]].
        -- split; [exact Hne|tauto].
        -- split; [apply truthy_spec; exact Hp|auto].
      * intros [Hne [H|[H|[= ->]]]]; auto.
    + rewrite Hbase. split.
      * intros [Hne H]. split; [exact Hne|tauto].
      * intros [Hne [H|[H|[= ->]]]]; auto.
        apply truthy_spec in Hne. congruence.
  - rewrite Hbase. split.
    + intros [Hne H]. split; [exact Hne|tauto].
    + intros [Hne [H|[H|H]]]; auto. discriminate H.
Qed.

Lemma candidates_In h paths suffixes p :
  In p (candidates h paths suffixes)
  <-> exists inst suffix,
      In inst paths /\ In suffix suffixes
      /\ p = posix_join h (JsString.trim inst) suffix.
Proof.
  unfold candidates. rewrite in_flat_map. split.
  - intros (inst & Hinst & Hp). apply in_map_iff in Hp.
    destruct Hp as (suffix & <- & Hs). eauto.
  - intros (inst & suffix & Hinst & Hs & ->). exists inst. split; [exact Hinst|].
    apply in_map_iff. eauto.
Qed.

Lemma candidates_length h paths suffixes :
  List.length (candidates h paths suffixes)
  = List.length paths * List.length suffixes.
Proof.
  unfold candidates. induction paths as [|inst paths IH]; cbn [flat_map].
  - reflexivity.
  - rewrite length_app, length_map, IH. reflexivity.
Qed.

(** X1. The installations [findLaunchRegisteredApps] returns are the
    candidates [posix.join(inst.trim(), suffix)] that are accessible, each
    once, in the order in which the loops first meet them: paths in the order
    default paths, registry lines, preferred path, and for each path the
    suffixes in their order.  A failing command is rethrown. *)
Theorem scan_result_in_discovery_order
        h env getPreferredPath pattern defaultPaths suffixes w :
  fst (Darwin.findLaunchRegisteredApps h env getPreferredPath
         pattern defaultPaths suffixes w)
  = match execa_command h (List.length (commands w))
            (Darwin.registryCommand pattern) with
    | inl e => Throw e
    | inr stdout =>
        Ok (firstOccurrences
              (filter (fs_access h)
                 (candidates h
                    (scanPaths env getPreferredPath stdout defaultPaths)
                    suffixes)))
    end.
Proof.
  rewrite findLaunchRegisteredApps_run. cbv zeta.
  destruct (execa_command h _ _); reflexivity.
Qed.

(** X2. [findLaunchRegisteredApps] runs one command.  When the command
    fails no path is probed; when it answers, [fs.access] is called once for
    every pair of a path and a suffix, in loop order, whether or not the same
    executable path was met before: as many probes as there are paths times
    suffixes. *)
Theorem scan_probes_every_candidate
        h env getPreferredPath pattern defaultPaths suffixes w :
  let cmd := Darwin.registryCommand pattern in
  snd (Darwin.findLaunchRegisteredApps h env getPreferredPath
         pattern defaultPaths suffixes w)
  = match execa_command h (List.length (commands w)) cmd with
    | inl e => ran w cmd
    | inr stdout =>
        probed (ran w cmd)
          (candidates h (scanPaths env getPreferredPath stdout defaultPaths)
                      suffixes)
    end
  /\ forall stdout,
      List.length
        (candidates h (scanPaths env getPreferredPath stdout defaultPaths)
                    suffixes)
      = List.length (scanPaths env getPreferredPath stdout defaultPaths)
        * List.length suffixes.
Proof.
  cbv zeta. split.
  - rewrite findLaunchRegisteredApps_run. cbv zeta.
    destruct (execa_command h _ _); reflexivity.
  - intros stdout. apply candidates_length.
Qed.

Lemma scan_ok_answered h env getPreferredPath pattern defaultPaths suffixes w l :
  fst (Darwin.findLaunchRegisteredApps h env getPreferredPath
         pattern defaultPaths suffixes w) = Ok l ->
  exists stdout,
    execa_command h (List.length (commands w))
      (Darwin.registryCommand pattern) = inr stdout
    /\ l = firstOccurrences
             (filter (fs_access h)
                (candidates h
                   (scanPaths env getPreferredPath stdout defaultPaths)
                   suffixes)).
Proof.
  rewrite findLaunchRegisteredApps_run. cbv zeta.
  destruct (execa_command h _ _) as [e|stdout]; cbn [fst].
  - intros H; discriminate H.
  - intros [= <-]. exists stdout. split; reflexivity.
Qed.

(** X3. An executable path is among the installations the scan returns
    exactly when [fs.access] resolves for it and it is
    [posix.join(inst.trim(), suffix)] for one of the suffixes and a non-empty
    [inst] that is a default path, a cleaned line of the command's output, or
    the preferred path. *)
Theorem scan_finds_exactly_the_accessible_candidates
        h env getPreferredPath pattern defaultPaths suffixes w l :
  fst (Darwin.findLaunchRegisteredApps h env getPreferredPath
         pattern defaultPaths suffixes w) = Ok l ->
  exists stdout,
    execa_command h (List.length (commands w))
      (Darwin.registryCommand pattern) = inr stdout
    /\ forall p,
        In p l
        <-> fs_access h p = true
            /\ exists inst suffix,
                inst <> []
                /\ (In inst defaultPaths
                    \/ In inst (Darwin.registryPaths stdout)
                    \/ getPreferredPath env = Some inst)
                /\ In suffix suffixes
                /\ p = posix_join h (JsString.trim inst) suffix.
Proof.
  intros Hrun.
  destruct (scan_ok_answered _ _ _ _ _ _ _ _ Hrun) as (stdout & Hcmd & ->).
  exists stdout. split; [exact Hcmd|]. intros p.
  rewrite firstOccurrences_In, filter_In, candidates_In. split.
  - intros [(inst & suffix & Hinst & Hs & Hp) Hacc]. split; [exact Hacc|].
    apply scanPaths_In in Hinst. destruct Hinst as [Hne Hfrom].
    exists inst, suffix. auto.
  - intros [Hacc (inst & suffix & Hne & Hfrom & Hs & Hp)]. split; [|exact Hacc].
    exists inst, suffix. split; [|auto].
    apply scanPaths_In. auto.
Qed.

Lemma scan_finds_exactly_the_accessible_candidates_witness :
  exists stdout,
    execa_command sampleHost 0 (Darwin.registryCommand Firefox.pattern)
    = inr stdout
    /\ forall p,
        In p [ lit "/Applications/Firefox.app/Contents/MacOS/firefox";
               lit "/Volumes/Disk/Firefox Nightly.app/Contents/MacOS/firefox" ]
        <-> fs_access sampleHost p = true
            /\ exists inst suffix,
                inst <> []
                /\ (In inst Firefox.defaultPaths
                    \/ In inst (Darwin.registryPaths stdout)
                    \/ Firefox.getPreferredPath sampleEnv = Some inst)
                /\ In suffix Firefox.suffixes
                /\ p = posix_join sampleHost (JsString.trim inst) suffix.
Proof.
  apply (scan_finds_exactly_the_accessible_candidates
           sampleHost sampleEnv Firefox.getPreferredPath Firefox.pattern
           Firefox.defaultPaths Firefox.suffixes emptyWorld).
  vm_compute. reflexivity.
Defined.

(** X4. The installations the scan returns hold no path twice, however
    often the registry lists an application and whether or not it is also a
    default path or the preferred path. *)
Theorem scan_result_has_no_duplicates
        h env getPreferredPath pattern defaultPaths suffixes w l :
  fst (Darwin.findLaunchRegisteredApps h env getPreferredPath
         pattern defaultPaths suffixes w) = Ok l ->
  NoDup l.
Proof.
  intros Hrun.
  destruct (scan_ok_answered _ _ _ _ _ _ _ _ Hrun) as (stdout & _ & ->).
  apply firstOccurrences_NoDup.
Qed.

Lemma scan_result_has_no_duplicates_witness :
  NoDup [ lit "/Applications/Firefox.app/Contents/MacOS/firefox";
          lit "/Volumes/Disk/Firefox Nightly.app/Contents/MacOS/firefox" ].
Proof.
  apply (scan_result_has_no_duplicates
           sampleHost sampleEnv Firefox.getPreferredPath Firefox.pattern
           Firefox.defaultPaths Firefox.suffixes emptyWorld).
  vm_compute. reflexivity.
Defined.

(** ** Lines of the command's output *)

Lemma visible_head_not_space c t :
  JsString.isWhiteSpace c = false -> markerAt (c :: t) = None.
Proof.
  intros Hc. unfold markerAt.
  cbn [JsString.startsWith lit list_ascii_of_string].
  destruct (Ascii.eqb " " c) eqn:E; [|reflexivity].
  apply Ascii.eqb_eq in E. subst c. discriminate Hc.
Qed.

Lemma trim_head l c t :
  JsString.trim l = c :: t -> JsString.isWhiteSpace c = false.
Proof.
  intros H. apply (trimStart_head (JsString.trim l) c t).
  rewrite trimStart_trim. exact H.
Qed.

(** X5. A line of the command's output is dropped exactly when it has no
    visible character: removing the marker never empties a line, and the
    directory name [inst.trim()] given to [posix.join] for a line that is kept
    is never empty. *)
Theorem registry_line_kept_iff_visible l :
  let inst := Re.replaceRe Darwin.pathSuffixRe (JsString.trim l) [] in
  JsString.truthy inst = visible l
  /\ JsString.truthy (JsString.trim inst) = visible l.
Proof.
  cbv zeta. unfold visible. rewrite replace_pathSuffix.
  destruct (JsString.trim l) as [|c t] eqn:Hl.
  - split; reflexivity.
  - pose proof (trim_head l c t Hl) as Hc.
    cbn [stripMarker]. rewrite (visible_head_not_space c t Hc).
    split; [reflexivity|].
    rewrite trim_truthy. cbn [JsString.trimStart]. rewrite Hc. reflexivity.
Qed.

Lemma markerAt_marker_app hex b :
  hex <> [] -> forallb isLowerHex hex = true ->
  markerAt (marker hex ++ b) = Some (List.length (marker hex)).
Proof.
  intros Hne Hhex. apply markerAt_app, markerAt_marker; assumption.
Qed.

Lemma stripMarker_app_marker_app a hex b :
  hex <> [] -> forallb isLowerHex hex = true ->
  noMarker a ->
  stripMarker (a ++ marker hex ++ b) = a ++ b.
Proof.
  intros Hne Hhex. induction a as [|c a IH]; intros Hno.
  - cbn [app]. destruct (marker hex ++ b) as [|x y] eqn:Hm.
    + destruct (marker hex) eqn:Hmk; [|discriminate Hm].
      unfold marker in Hmk. discriminate Hmk.
    + cbn [stripMarker]. rewrite <- Hm, (markerAt_marker_app hex b Hne Hhex).
      rewrite skipn_app, skipn_all, Nat.sub_diag. reflexivity.
  - cbn [app stripMarker].
    destruct (markerAt (c :: a ++ marker hex ++ b)) as [n|] eqn:Hmk.
    + change (c :: a ++ marker hex ++ b)
        with ((c :: a) ++ " "%char :: (tl (marker hex) ++ b)) in Hmk.
      apply markerAt_before_space in Hmk; [|discriminate].
      rewrite (Hno 0 : markerAt (c :: a) = None) in Hmk. discriminate.
    + f_equal. apply IH. exact (noMarker_tail c a Hno).
Qed.

(** X6. [replace(pathSuffixRe, "")] removes the first marker of a text
    wherever it stands, not only at the end: for a text [a] without a marker,
    [a] followed by a marker and any text [b] becomes [a] followed by [b], so
    a second marker in [b] stays. *)
Theorem first_marker_is_removed_wherever_it_stands a hex b :
  hex <> [] ->
  forallb isLowerHex hex = true ->
  Re.testRe Darwin.pathSuffixRe a = false ->
  Re.replaceRe Darwin.pathSuffixRe (a ++ marker hex ++ b) [] = a ++ b.
Proof.
  intros Hne Hhex Hno. rewrite replace_pathSuffix.
  apply stripMarker_app_marker_app; auto.
  apply test_false_noMarker, Hno.
Qed.

Lemma first_marker_is_removed_witness :
  Re.replaceRe Darwin.pathSuffixRe
    (lit "/Volumes/a" ++ marker (lit "1") ++ lit "/Firefox.app (0x2)") []
  = lit "/Volumes/a" ++ lit "/Firefox.app (0x2)".
Proof.
  apply first_marker_is_removed_wherever_it_stands.
  - discriminate.
  - reflexivity.
  - vm_compute. reflexivity.
Defined.

(** ** An output without applications *)

Lemma cleaned_line_truthy l :
  JsString.truthy (Re.replaceRe Darwin.pathSuffixRe (JsString.trim l) [])
  = visible l.
Proof.
  unfold visible. rewrite replace_pathSuffix.
  destruct (JsString.trim l) as [|c t] eqn:Hl; [reflexivity|].
  cbn [stripMarker]. rewrite (visible_head_not_space c t (trim_head l c t Hl)).
  reflexivity.
Qed.

Lemma registryPaths_blank stdout :
  forallb (fun l => negb (visible l)) (JsString.split newline stdout) = true ->
  filter JsString.truthy (Darwin.registryPaths stdout) = [].
Proof.
  unfold Darwin.registryPaths. change "010"%char with newline.
  induction (JsString.split newline stdout) as [|l ls IH];
    cbn [forallb map filter]; [reflexivity|].
  intros H. apply andb_true_iff in H. destruct H as [Hl Hls].
  rewrite cleaned_line_truthy. apply negb_true_iff in Hl. rewrite Hl.
  apply IH, Hls.
Qed.

(** X18. When the command answers with nothing, or with blank lines only,
    the scan still goes through the default paths and the preferred path: it
    returns those of their candidates that are accessible. *)
Theorem scan_of_blank_output_keeps_default_and_preferred_paths
        h env getPreferredPath pattern defaultPaths suffixes w stdout :
  execa_command h (List.length (commands w)) (Darwin.registryCommand pattern)
  = inr stdout ->
  forallb (fun l => negb (visible l)) (JsString.split newline stdout) = true ->
  fst (Darwin.findLaunchRegisteredApps h env getPreferredPath
         pattern defaultPaths suffixes w)
  = Ok (firstOccurrences
          (filter (fs_access h)
             (candidates h
                (filter JsString.truthy defaultPaths
                 ++ match given (getPreferredPath env) with
                    | Some p => [p]
                    | None => []
                    end)
                suffixes))).
Proof.
  intros Hcmd Hblank. rewrite findLaunchRegisteredApps_run. cbv zeta.
  rewrite Hcmd. cbn [fst]. do 4 f_equal.
  unfold scanPaths, given. cbv zeta.
  rewrite filter_app, (registryPaths_blank stdout Hblank), app_nil_r.
  destruct (getPreferredPath env) as [p|]; [|rewrite app_nil_r; reflexivity].
  destruct (JsString.truthy p); [reflexivity|rewrite app_nil_r; reflexivity].
Qed.

Lemma scan_of_blank_output_witness :
  fst (Darwin.findLaunchRegisteredApps openHost
         (envOf None (Some (lit "/opt/firefox"))) Firefox.getPreferredPath
         Firefox.pattern Firefox.defaultPaths Firefox.suffixes emptyWorld)
  = Ok [ lit "/Applications/Firefox.app/Contents/MacOS/firefox";
         lit "/opt/firefox/Contents/MacOS/firefox" ].
Proof.
  rewrite (scan_of_blank_output_keeps_default_and_preferred_paths
             openHost (envOf None (Some (lit "/opt/firefox")))
             Firefox.getPreferredPath Firefox.pattern Firefox.defaultPaths
             Firefox.suffixes emptyWorld [] eq_refl eq_refl).
  vm_compute. reflexivity.
Defined.

(** ** Errors and edge cases of [createPriorities] *)

Lemma locationRules_isOk env v :
  isOk (Darwin.locationRules (Darwin.escapedHome env) v) = nameOk v.
Proof.
  destruct (nameOk v) eqn:Hok.
  - destruct (locationRules_spec env v Hok) as (t & -> & _). reflexivity.
  - unfold nameOk in Hok. unfold Darwin.locationRules, Re.new_RegExp.
    destruct (Re.compile (lit "^/Applications/.*" ++ Darwin.name v));
      [discriminate Hok| |]; reflexivity.
Qed.

Lemma reduce_locationRules_isOk env ps :
  forall acc,
    isOk (Darwin.reduce
            (fun acc p =>
               rbind (Darwin.locationRules (Darwin.escapedHome env) p)
                     (fun rules => Ok (acc ++ rules))) ps acc)
    = forallb nameOk ps.
Proof.
  induction ps as [|v ps IH]; intros acc; cbn [Darwin.reduce forallb].
  - reflexivity.
  - rewrite <- (locationRules_isOk env v).
    destruct (Darwin.locationRules (Darwin.escapedHome env) v) as [t| |];
      cbn [rbind isOk andb]; [apply IH|reflexivity|reflexivity].
Qed.

Lemma createPriorities_isOk env getPreferredPath ps :
  isOk (Darwin.createPriorities env getPreferredPath ps) = forallb nameOk ps.
Proof.
  destruct (forallb nameOk ps) eqn:Hok.
  - destruct (createPriorities_spec env getPreferredPath ps Hok)
      as (o & triples & -> & _). reflexivity.
  - unfold Darwin.createPriorities. cbv zeta.
    rewrite <- (reduce_locationRules_isOk env ps []) in Hok.
    destruct (Darwin.reduce _ ps []); [discriminate Hok| |]; reflexivity.
Qed.

Lemma locationTriples_length env ps triples :
  Forall2 (locationTriple env) ps triples ->
  List.length (List.concat triples) = 3 * List.length ps.
Proof.
  induction 1 as [|v t ps triples Ht Hall IH]; cbn [List.concat List.length].
  - reflexivity.
  - destruct Ht as (r1 & r2 & r3 & -> & _).
    rewrite length_app, IH. cbn [List.length]. lia.
Qed.

Lemma overrideRule_length preferred o :
  overrideRule preferred o ->
  List.length o = match given preferred with Some _ => 1 | None => 0 end.
Proof.
  unfold overrideRule, given. destruct preferred as [p|]; [|intros ->; reflexivity].
  destruct (JsString.truthy p); [|intros ->; reflexivity].
  intros (r & -> & _). reflexivity.
Qed.

Lemma regExp_eq (a b : Re.RegExp) :
  Re.source a = Re.source b -> Re.matcher a = Re.matcher b -> a = b.
Proof. destruct a, b; simpl; intros -> ->; reflexivity. Qed.

(** X8. With HOME set to the empty string, [this.env.HOME && ...] is the
    empty string itself and the pattern of every home rule is
    [^/Applications/.*] followed by the name: the home rule is the
    Applications rule over again, so it matches the same candidates and,
    standing after it, is never the first rule to match. *)
Theorem empty_home_rule_repeats_the_applications_rule
        env getPreferredPath ps rules :
  env (lit "HOME") = Some [] ->
  Darwin.createPriorities env getPreferredPath ps = Ok rules ->
  exists o triples,
    rules = o ++ List.concat triples
    /\ List.length o <= 1
    /\ Forall2 (fun v t =>
                  exists r1 r2 r3,
                    t = [r1; r2; r3]
                    /\ Re.source (Util.regex r1)
                       = lit "^/Applications/.*" ++ Darwin.name v
                    /\ Util.regex r2 = Util.regex r1)
               ps triples.
Proof.
  intros Hh Hrun.
  assert (Hok : forallb nameOk ps = true).
  { rewrite <- (createPriorities_isOk env getPreferredPath ps), Hrun.
    reflexivity. }
  destruct (createPriorities_spec env getPreferredPath ps Hok)
    as (o & triples & Hrun' & Hover & Hall).
  rewrite Hrun in Hrun'. injection Hrun' as ->.
  exists o, triples. split; [reflexivity|]. split.
  - rewrite (overrideRule_length _ o Hover).
    destruct (given (getPreferredPath env)); lia.
  - eapply Forall2_impl; [|exact Hall].
    intros v t (r1 & r2 & r3 & -> & V1 & V2 & _ & W1 & W2 & _).
    exists r1, r2, r3. split; [reflexivity|].
    unfold ruleView in V1, V2.
    assert (Htext : Darwin.template (Darwin.escapedHome env) = []).
    { unfold Darwin.escapedHome. rewrite Hh. reflexivity. }
    rewrite Htext in V2. cbn [app] in V2.
    injection V1 as S1 _ _. injection V2 as S2 _ _.
    split; [exact S1|].
    apply regExp_eq.
    + rewrite S2, S1. reflexivity.
    + unfold wellFormedRule in W1, W2. rewrite S1 in W1. rewrite S2 in W2.
      change (lit "^" ++ lit "/Applications/.*" ++ Darwin.name v)
        with (lit "^/Applications/.*" ++ Darwin.name v) in W2.
      congruence.
Qed.

Lemma empty_home_rule_witness :
  exists o triples,
    match Darwin.createPriorities (envOf (Some []) None)
            Firefox.getPreferredPath Firefox.variants with
    | Ok rules => rules = o ++ List.concat triples
    | _ => False
    end
    /\ List.length o <= 1
    /\ List.length triples = 3.
Proof.
  destruct (Darwin.createPriorities (envOf (Some []) None)
              Firefox.getPreferredPath Firefox.variants) as [rules| |] eqn:Hrun;
    [|vm_compute in Hrun; discriminate Hrun
     |vm_compute in Hrun; discriminate Hrun].
  destruct (empty_home_rule_repeats_the_applications_rule
              (envOf (Some []) None) Firefox.getPreferredPath Firefox.variants
              rules eq_refl Hrun) as (o & triples & Heq & Hlen & Hall).
  exists o, triples. split; [exact Heq|]. split; [exact Hlen|].
  symmetry. exact (Forall2_length Hall).
Defined.

(** ** What the Firefox scan depends on *)

Lemma scanPaths_given env1 env2 getPreferredPath stdout defaultPaths :
  given (getPreferredPath env1) = given (getPreferredPath env2) ->
  scanPaths env1 getPreferredPath stdout defaultPaths
  = scanPaths env2 getPreferredPath stdout defaultPaths.
Proof.
  unfold scanPaths, given. cbv zeta.
  destruct (getPreferredPath env1) as [p1|], (getPreferredPath env2) as [p2|];
    try destruct (JsString.truthy p1); try destruct (JsString.truthy p2);
    intros H; try discriminate H; try reflexivity.
  injection H as ->. reflexivity.
Qed.

Lemma createPriorities_given env1 env2 getPreferredPath ps :
  env1 (lit "HOME") = env2 (lit "HOME") ->
  given (getPreferredPath env1) = given (getPreferredPath env2) ->
  Darwin.createPriorities env1 getPreferredPath ps
  = Darwin.createPriorities env2 getPreferredPath ps.
Proof.
  intros Hh Hp. unfold Darwin.createPriorities, Darwin.escapedHome. cbv zeta.
  rewrite Hh.
  destruct (Darwin.reduce _ ps []) as [mapped| |]; cbn [rbind]; try reflexivity.
  unfold given in Hp.
  destruct (getPreferredPath env1) as [p1|], (getPreferredPath env2) as [p2|];
    try destruct (JsString.truthy p1) eqn:H1;
    try destruct (JsString.truthy p2) eqn:H2;
    try discriminate Hp; try reflexivity.
  injection Hp as ->. reflexivity.
Qed.

(** X9. The Firefox scan reads the environment at HOME and FIREFOX_PATH
    only, and an empty FIREFOX_PATH counts as none: two environments with the
    same HOME whose FIREFOX_PATH agree, or are both empty or unset, give the
    same scan, with the same probes and the same promise. *)
Theorem firefox_scan_reads_home_and_preferred_path_only h env1 env2 sort w :
  env1 (lit "HOME") = env2 (lit "HOME") ->
  given (env1 (lit "FIREFOX_PATH")) = given (env2 (lit "FIREFOX_PATH")) ->
  Firefox.findAllInner h env1 sort w = Firefox.findAllInner h env2 sort w.
Proof.
  intros Hh Hp. unfold Firefox.findAllInner, bind.
  rewrite !findLaunchRegisteredApps_run. cbv zeta.
  destruct (execa_command h _ _) as [e|stdout]; [reflexivity|].
  rewrite (scanPaths_given env1 env2 Firefox.getPreferredPath stdout _ Hp).
  rewrite (createPriorities_given env1 env2 Firefox.getPreferredPath
             Firefox.variants Hh Hp).
  reflexivity.
Qed.

Lemma firefox_scan_empty_preferred_witness :
  Firefox.findAllInner sampleHost (envOf (Some (lit "/Users/me")) (Some []))
    Util.sort emptyWorld
  = Firefox.findAllInner sampleHost sampleEnv Util.sort emptyWorld.
Proof.
  apply firefox_scan_reads_home_and_preferred_path_only; reflexivity.
Defined.

Lemma firefox_names_accepted : forallb nameOk Firefox.variants = true.
Proof. vm_compute. reflexivity. Qed.

(** X10. The scan of the Firefox finder fails only when the command fails:
    whatever the environment holds, [createPriorities] accepts the three
    Firefox names and returns nine rules, ten with a non-empty FIREFOX_PATH;
    when the command answers, the scan ends with [sort] applied to the
    installations found and these rules, and when it fails, with the
    command's failure. *)
Theorem firefox_scan_fails_only_with_the_command h env sort w :
  exists priorities,
    Darwin.createPriorities env Firefox.getPreferredPath Firefox.variants
    = Ok priorities
    /\ List.length priorities
       = 9 + match given (env (lit "FIREFOX_PATH")) with
             | Some _ => 1
             | None => 0
             end
    /\ fst (Firefox.findAllInner h env sort w)
       = match execa_command h (List.length (commands w))
                 (Darwin.registryCommand Firefox.pattern) with
         | inl e => Throw e
         | inr stdout =>
             Ok (sort
                   (firstOccurrences
                      (filter (fs_access h)
                         (candidates h
                            (scanPaths env Firefox.getPreferredPath stdout
                                       Firefox.defaultPaths)
                            Firefox.suffixes)))
                   priorities)
         end.
Proof.
  destruct (createPriorities_spec env Firefox.getPreferredPath Firefox.variants
              firefox_names_accepted) as (o & triples & Hrun & Hover & Hall).
  exists (o ++ List.concat triples). split; [exact Hrun|]. split.
  - rewrite length_app, (locationTriples_length env _ triples Hall),
      (overrideRule_length _ o Hover).
    unfold Firefox.getPreferredPath. cbn [Firefox.variants List.length]. lia.
  - unfold Firefox.findAllInner, bind.
    rewrite findLaunchRegisteredApps_run. cbv zeta.
    destruct (execa_command h _ _) as [e|stdout]; [reflexivity|].
    rewrite Hrun. reflexivity.
Qed.

(** ** Answers and probes of [findWhere] *)

(** X11. [findWhere] never answers with an executable that fails the
    predicate.  What it answers with is either a well-known path for which
    the accessibility check succeeded, or an element of the list the memoized
    scan gave; and it answers with nothing only when the scan gave a list no
    element of which satisfies the predicate. *)
Theorem findWhere_answers_satisfy_the_predicate
        h wellKnownPaths findAllInner predicate st r st' :
  Darwin.findWhere h wellKnownPaths findAllInner predicate st = (Ok r, st') ->
  match r with
  | Some exe =>
      predicate exe = true
      /\ ((In exe wellKnownPaths /\ fs_access h (path exe) = true)
          \/ exists p all,
              foundAll st' = Some p /\ settled p = Ok all /\ In exe all)
  | None =>
      exists p all,
        foundAll st' = Some p /\ settled p = Ok all
        /\ Forall (fun exe => predicate exe = false) all
  end.
Proof.
  rewrite findWhere_run. cbv zeta.
  destruct (find _ wellKnownPaths) as [t|] eqn:Hfast.
  - intros [= <- <-]. apply find_some in Hfast. destruct Hfast as [Hin Hq].
    apply andb_true_iff in Hq. tauto.
  - set (st0 := addProbes st _).
    assert (Hmemo : exists p, Darwin.findAll findAllInner st0
                              = (Ok p, snd (Darwin.findAll findAllInner st0))
                              /\ foundAll (snd (Darwin.findAll findAllInner st0))
                                 = Some p).
    { unfold Darwin.findAll. destruct (foundAll st0) as [p|] eqn:Hp.
      - exists p. split; [reflexivity|exact Hp].
      - destruct (findAllInner (world st0)) as [res w1].
        eexists. split; reflexivity. }
    destruct Hmemo as (p & Hrun & Hp). rewrite Hrun. cbn [rbind].
    destruct (settled p) as [all| |] eqn:Hall; cbn [rbind];
      intros H; try discriminate H.
    injection H as <- <-.
    destruct (find predicate all) as [exe|] eqn:Hfind.
    + apply find_some in Hfind. destruct Hfind as [Hin Hpred].
      split; [exact Hpred|]. right. exists p, all. auto.
    + exists p, all. split; [exact Hp|]. split; [exact Hall|].
      apply Forall_forall. intros exe Hin.
      exact (find_none _ _ Hfind exe Hin).
Qed.

Lemma findWhere_answers_witness :
  let nightly :=
    {| path := lit "/Volumes/Disk/Firefox Nightly.app/Contents/MacOS/firefox";
       quality := Canary |} in
  let isCanary := fun exe =>
    match quality exe with Canary => true | _ => false end in
  isCanary nightly = true
  /\ ((In nightly Firefox.wellKnownPaths
       /\ fs_access sampleHost (path nightly) = true)
      \/ exists p all,
          foundAll (snd (Firefox.findWhere sampleHost sampleEnv Util.sort
                           isCanary (newFinder emptyWorld))) = Some p
          /\ settled p = Ok all /\ In nightly all).
Proof.
  cbv zeta.
  apply (findWhere_answers_satisfy_the_predicate
           sampleHost Firefox.wellKnownPaths
           (Firefox.findAllInner sampleHost sampleEnv Util.sort)
           (fun exe => match quality exe with Canary => true | _ => false end)
           (newFinder emptyWorld)
           (Some {| path := lit "/Volumes/Disk/Firefox Nightly.app/Contents/MacOS/firefox";
                    quality := Canary |})).
  vm_compute. reflexivity.
Defined.

Lemma probedWellKnown_spec h predicate l :
  Forall (fun p => exists t, In t l /\ predicate t = true /\ path t = p)
         (probedWellKnown h predicate l)
  /\ filter (fs_access h) (probedWellKnown h predicate l)
     = match find (fun t => predicate t && fs_access h (path t)) l with
       | Some t => [path t]
       | None => []
       end
  /\ List.length (probedWellKnown h predicate l)
     <= List.length (filter predicate l).
Proof.
  induction l as [|t l (IH1 & IH2 & IH3)]; cbn [probedWellKnown find filter].
  - split; [constructor|]. split; [reflexivity|]. cbn [List.length]. lia.
  - assert (Hweak : Forall (fun p => exists t0, In t0 (t :: l)
                                        /\ predicate t0 = true /\ path t0 = p)
                           (probedWellKnown h predicate l)).
    { eapply Forall_impl; [|exact IH1].
      intros p (t0 & Hin & Hpred & Hpath). exists t0. simpl. tauto. }
    destruct (predicate t) eqn:Hpred; cbn [andb List.length].
    + destruct (fs_access h (path t)) eqn:Hacc; cbn [filter List.length].
      * rewrite Hacc. split; [|split; [reflexivity|lia]].
        constructor; [|constructor]. exists t. simpl. tauto.
      * rewrite Hacc. split; [|split; [exact IH2|lia]].
        constructor; [|exact Hweak]. exists t. simpl. tauto.
    + split; [exact Hweak|]. split; [exact IH2|exact IH3].
Qed.

(** X12. The loop of [findWhere] evaluates [canAccess] only for well-known
    paths that satisfy the predicate, in their order, and stops at the first
    that is accessible: every probe is the path of such an entry, a probe
    that succeeded is the last one and its entry is the answer, and there are
    at most as many probes as entries satisfying the predicate.  No command
    is run. *)
Theorem findWhere_loop_probes_only_what_the_predicate_accepts
        h predicate wellKnownPaths w :
  exists known ps,
    Darwin.findWellKnown h predicate wellKnownPaths w = (Ok known, probed w ps)
    /\ known = find (fun t => predicate t && fs_access h (path t)) wellKnownPaths
    /\ Forall (fun p => exists t,
                   In t wellKnownPaths /\ predicate t = true /\ path t = p) ps
    /\ filter (fs_access h) ps
       = match known with Some t => [path t] | None => [] end
    /\ List.length ps <= List.length (filter predicate wellKnownPaths).
Proof.
  destruct (probedWellKnown_spec h predicate wellKnownPaths) as (H1 & H2 & H3).
  exists (find (fun t => predicate t && fs_access h (path t)) wellKnownPaths),
         (probedWellKnown h predicate wellKnownPaths).
  split; [apply findWellKnown_run|]. auto.
Qed.

(** ** Location rules of simple names *)

Lemma pushAtoms_mode st rs :
  Re.pmode st = Re.MNormal -> Re.pmode (pushAtoms st rs) = Re.MNormal.
Proof.
  revert st; induction rs as [|r rs IH]; intros st Hm; simpl; auto.
Qed.

Lemma stack_pushAtoms st rs : Re.stack (pushAtoms st rs) = Re.stack st.
Proof.
  revert st; induction rs as [|r rs IH]; intros st; simpl; auto.
  fold (pushAtoms (Re.pushAtom st r) rs). rewrite IH. reflexivity.
Qed.

Lemma flush_pushAtoms st rs :
  Re.flush (pushAtoms st rs)
  = {| Re.alts := Re.alts (Re.flush st);
       Re.terms := rev rs ++ Re.terms (Re.flush st) |}.
Proof.
  revert st; induction rs as [|r rs IH]; intros st.
  - simpl. destruct (Re.flush st); reflexivity.
  - cbn [pushAtoms fold_left]. fold (pushAtoms (Re.pushAtom st r) rs).
    rewrite IH, flush_pushAtom. cbn [Re.alts Re.terms rev].
    rewrite <- app_assoc. reflexivity.
Qed.

Lemma steps_simpleName n :
  forall st,
    Re.pmode st = Re.MNormal ->
    simpleName n = true ->
    Re.steps st n = Ok (pushAtoms st (map atomOf n)).
Proof.
  induction n as [|c n IH]; intros st Hm Hn.
  - reflexivity.
  - cbn [simpleName forallb] in Hn. apply andb_true_iff in Hn.
    destruct Hn as [Hc Hn]. cbn [Re.steps map pushAtoms fold_left].
    assert (Hstep : Re.step st c = Ok (Re.pushAtom st (atomOf c))).
    { unfold atomOf. destruct (Ascii.eqb c ".") eqn:Hdot.
      - apply Ascii.eqb_eq in Hdot. subst c.
        unfold Re.step. rewrite Hm. reflexivity.
      - rewrite orb_false_r in Hc. apply step_plain; assumption. }
    rewrite Hstep. cbn [rbind]. apply IH; [reflexivity|exact Hn].
Qed.

(** The pattern [^], a literal text, [.*] and a simple name compiles to the
    sequence of the anchor, the literal, the iteration and the atoms of the
    name. *)
Lemma compile_anchored_simple text l n :
  readsAs text l ->
  simpleName n = true ->
  Re.compile ("^"%char :: text ++ "."%char :: "*"%char :: n)
  = Ok (Re.seqOf ((Re.Bol :: map Re.Chr l)
                  ++ Re.Star Re.Any :: map atomOf n)).
Proof.
  intros Hr Hn. rewrite (compile_anchor text l _ Hr).
  cbn [Re.steps]. unfold Re.step at 1.
  assert (Hm : Re.pmode (afterAnchor l) = Re.MNormal) by reflexivity.
  rewrite Hm. unfold Re.stepNormal.
  change (Re.classify "*") with Re.TStar. cbv iota.
  unfold Re.quantify. change (Re.pend (afterAnchor l)) with (Re.PAtom Re.Any).
  cbv iota. cbn [rbind].
  rewrite steps_simpleName by (auto; reflexivity). cbn [rbind].
  unfold Re.finish. rewrite pushAtoms_mode by reflexivity.
  rewrite stack_pushAtoms. cbn [Re.stack Re.setPend afterAnchor Re.pushAtom].
  rewrite stack_pushLits. cbn [Re.stack Re.pushAssertion Re.init].
  unfold Re.closeFrame. rewrite flush_pushAtoms.
  cbn [Re.alts Re.terms Re.flush Re.setPend Re.pend Re.cur afterAnchor
       Re.pushAtom].
  rewrite flush_pushLits.
  cbn [Re.alts Re.terms Re.flush Re.pushAssertion Re.pend Re.cur Re.init
       rev app Re.altOf].
  f_equal. f_equal.
  rewrite !rev_app_distr, !rev_involutive. cbn [rev app].
  rewrite rev_app_distr, rev_involutive. cbn [rev app].
  rewrite <- !app_assoc. reflexivity.
Qed.

Lemma ends_atoms n :
  forall i s,
    Re.ends (Re.seqOf (map atomOf n)) (i, s)
    = if fitsName n s
      then [(i + List.length n, skipn (List.length n) s)]
      else [].
Proof.
  induction n as [|a n IH]; intros i s.
  - simpl. rewrite Nat.add_0_r. reflexivity.
  - cbn [map Re.seqOf fold_right Re.ends]. fold (Re.seqOf (map atomOf n)).
    destruct s as [|b s].
    + unfold atomOf. destruct (Ascii.eqb a "."); reflexivity.
    + cbn [fitsName List.length skipn]. unfold atomOf.
      destruct (Ascii.eqb a ".").
      * cbn [Re.ends]. unfold Re.one. cbn [snd fst].
        destruct (negb (Re.isLineTerminator b)); cbn [flat_map andb];
          [|reflexivity].
        rewrite IH, app_nil_r, Nat.add_succ_r. reflexivity.
      * cbn [Re.ends]. unfold Re.one. cbn [snd fst].
        destruct (Ascii.eqb a b); cbn [flat_map andb]; [|reflexivity].
        rewrite IH, app_nil_r, Nat.add_succ_r. reflexivity.
Qed.

(** Whether a list of positions holds one the name fits at. *)
Lemma flat_map_atoms_nil n (ps : list (nat * list ascii)) :
  match flat_map (Re.ends (Re.seqOf (map atomOf n))) ps with
  | [] => false
  | _ :: _ => true
  end = existsb (fun q => fitsName n (snd q)) ps.
Proof.
  induction ps as [|[i s] ps IH]; cbn [flat_map existsb snd]; [reflexivity|].
  rewrite ends_atoms. destruct (fitsName n s); cbn [app orb]; [reflexivity|].
  exact IH.
Qed.

Lemma star_any_reaches n fuel :
  forall i s,
    List.length s < fuel ->
    existsb (fun q => fitsName n (snd q))
            (Re.star (Re.ends Re.Any) fuel (i, s))
    = reachesName n s.
Proof.
  induction fuel as [|fuel IH]; intros i s Hlen; [lia|].
  cbn [Re.star]. rewrite existsb_app. cbn [existsb snd]. rewrite orb_false_r.
  destruct s as [|c t].
  - cbn [Re.ends Re.one snd flat_map existsb reachesName].
    rewrite orb_false_r. reflexivity.
  - cbn [Re.ends Re.one snd fst reachesName].
    destruct (negb (Re.isLineTerminator c)); cbn [flat_map andb existsb fst].
    + rewrite app_nil_r.
      replace (S i =? i) with false by (symmetry; apply Nat.eqb_neq; lia).
      rewrite IH by (simpl in Hlen; lia). apply orb_comm.
    + rewrite orb_false_r. reflexivity.
Qed.

Lemma ends_anchored_later X i s :
  i <> 0 -> Re.ends (Re.seqOf (Re.Bol :: X)) (i, s) = [].
Proof.
  intros Hi. cbn [Re.seqOf fold_right Re.ends fst].
  replace (i =? 0) with false by (symmetry; apply Nat.eqb_neq; exact Hi).
  reflexivity.
Qed.

Lemma execFrom_anchored_later X s :
  forall i, i <> 0 -> Re.execFrom (Re.seqOf (Re.Bol :: X)) i s = None.
Proof.
  induction s as [|c s IH]; intros i Hi; cbn [Re.execFrom];
    rewrite (ends_anchored_later X i _ Hi); [reflexivity|].
  apply IH. lia.
Qed.

(** An anchored sequence matches a candidate when it matches it from its
    first character. *)
Lemma test_anchored_at_start X c :
  Re.test (Re.seqOf (Re.Bol :: X)) c
  = match Re.ends (Re.seqOf (Re.Bol :: X)) (0, c) with
    | [] => false
    | _ :: _ => true
    end.
Proof.
  unfold Re.test, Re.exec. destruct c as [|x c]; cbn [Re.execFrom].
  - destruct (Re.ends _ (0, [])); reflexivity.
  - destruct (Re.ends _ (0, x :: c)); [|reflexivity].
    rewrite execFrom_anchored_later by lia. reflexivity.
Qed.

Lemma test_anchored_simple l n c :
  Re.test (Re.seqOf ((Re.Bol :: map Re.Chr l)
                     ++ Re.Star Re.Any :: map atomOf n)) c
  = belowRoot l n c.
Proof.
  change ((Re.Bol :: map Re.Chr l) ++ Re.Star Re.Any :: map atomOf n)
    with (Re.Bol :: (map Re.Chr l ++ Re.Star Re.Any :: map atomOf n)).
  rewrite test_anchored_at_start.
  cbn [Re.seqOf fold_right Re.ends fst Nat.eqb flat_map].
  rewrite app_nil_r.
  fold (Re.seqOf (map Re.Chr l ++ Re.Star Re.Any :: map atomOf n)).
  rewrite ends_seqOf_app, ends_literal. unfold belowRoot.
  destruct (JsString.startsWith l c); cbn [andb flat_map]; [|reflexivity].
  rewrite app_nil_r.
  cbn [Re.seqOf fold_right Re.ends snd]. fold (Re.seqOf (map atomOf n)).
  rewrite flat_map_atoms_nil. apply star_any_reaches. lia.
Qed.

(** The name itself fits, whatever follows it. *)
Lemma fitsName_self n z :
  forallb (fun c => negb (Re.isLineTerminator c)) n = true ->
  fitsName n (n ++ z) = true.
Proof.
  induction n as [|a n IH]; cbn [forallb app fitsName]; [reflexivity|].
  intros H. apply andb_true_iff in H. destruct H as [Ha Hn].
  rewrite (IH Hn), andb_true_r.
  destruct (Ascii.eqb a "."); [exact Ha|apply Ascii.eqb_refl].
Qed.

Lemma reachesName_spec n s :
  reachesName n s = true
  <-> exists x rest,
      s = x ++ rest
      /\ forallb (fun c => negb (Re.isLineTerminator c)) x = true
      /\ fitsName n rest = true.
Proof.
  induction s as [|c t IH]; cbn [reachesName].
  - rewrite orb_false_r. split.
    + intros H. exists [], []. auto.
    + intros (x & rest & Hs & _ & Hfit).
      symmetry in Hs. apply app_eq_nil in Hs. destruct Hs as [_ ->]. exact Hfit.
  - rewrite orb_true_iff, andb_true_iff, IH. split.
    + intros [H|[Hc (x & rest & -> & Hx & Hfit)]].
      * exists [], (c :: t). auto.
      * exists (c :: x), rest. cbn [forallb app]. rewrite Hc, Hx. auto.
    + intros (x & rest & Hs & Hx & Hfit). destruct x as [|c0 x].
      * left. cbn [app] in Hs. subst rest. exact Hfit.
      * right. cbn [app forallb] in Hs, Hx. injection Hs as <- ->.
        apply andb_true_iff in Hx. destruct Hx as [Hc Hx].
        split; [exact Hc|]. exists x, rest. auto.
Qed.

(** [belowRoot] in words: the candidate is the root, then characters none of
    which is a line terminator, then a text the name fits. *)
Lemma belowRoot_spec root n c :
  belowRoot root n c = true
  <-> exists x rest,
      c = root ++ x ++ rest
      /\ forallb (fun ch => negb (Re.isLineTerminator ch)) x = true
      /\ fitsName n rest = true.
Proof.
  unfold belowRoot. rewrite andb_true_iff, startsWith_spec. split.
  - intros [[b ->] Hreach].
    rewrite skipn_app, skipn_all, Nat.sub_diag in Hreach. cbn [app skipn] in Hreach.
    apply reachesName_spec in Hreach.
    destruct Hreach as (x & rest & -> & Hx & Hfit). exists x, rest. auto.
  - intros (x & rest & -> & Hx & Hfit). split; [eauto|].
    rewrite skipn_app, skipn_all, Nat.sub_diag. cbn [app skipn].
    apply reachesName_spec. exists x, rest. auto.
Qed.

Lemma rule_matches_simple r text l n w q :
  readsAs text l ->
  simpleName n = true ->
  ruleView r = ("^"%char :: text ++ "."%char :: "*"%char :: n, w, q) ->
  wellFormedRule r ->
  forall c, Re.testRe (Util.regex r) c = belowRoot l n c.
Proof.
  unfold ruleView, wellFormedRule, Re.testRe. intros Hr Hn [= Hsrc _ _] Hwf c.
  rewrite Hsrc, (compile_anchored_simple text l n Hr Hn) in Hwf.
  injection Hwf as <-. apply test_anchored_simple.
Qed.

Lemma simpleName_nameOk v :
  simpleName (Darwin.name v) = true -> nameOk v = true.
Proof.
  intros Hn. unfold nameOk.
  change (lit "^/Applications/.*" ++ Darwin.name v)
    with ("^"%char :: lit "/Applications/" ++ "."%char :: "*"%char :: Darwin.name v).
  rewrite (compile_anchored_simple (lit "/Applications/") (lit "/Applications/")
             (Darwin.name v)); [reflexivity| |exact Hn].
  apply readsAs_plain. reflexivity.
Qed.

Lemma simpleNames_nameOk ps :
  forallb (fun v => simpleName (Darwin.name v)) ps = true ->
  forallb nameOk ps = true.
Proof.
  induction ps as [|v ps IH]; cbn [forallb]; [reflexivity|].
  intros H. apply andb_true_iff in H. destruct H as [Hv Hps].
  rewrite (simpleName_nameOk v Hv), (IH Hps). reflexivity.
Qed.

(** X13. For variants whose names are made of dots and of characters that
    stand for themselves, as the Firefox names are, [createPriorities]
    returns, and each location rule matches exactly the candidates that begin
    with its root (/Applications/, HOME followed by /Applications/, or
    /Volumes/) and hold the name further on, after characters none of which
    is a line terminator; a dot of the name stands for any one such
    character, and anything may follow the name. *)
Theorem location_rules_match_the_name_below_their_root
        env getPreferredPath ps :
  forallb (fun v => simpleName (Darwin.name v)) ps = true ->
  exists o triples,
    Darwin.createPriorities env getPreferredPath ps
    = Ok (o ++ List.concat triples)
    /\ List.length o <= 1
    /\ Forall2 (fun v t =>
                  exists r1 r2 r3,
                    t = [r1; r2; r3]
                    /\ forall c,
                        Re.testRe (Util.regex r1) c
                        = belowRoot (lit "/Applications/") (Darwin.name v) c
                        /\ Re.testRe (Util.regex r2) c
                           = belowRoot (homeText env ++ lit "/Applications/")
                                       (Darwin.name v) c
                        /\ Re.testRe (Util.regex r3) c
                           = belowRoot (lit "/Volumes/") (Darwin.name v) c)
               ps triples.
Proof.
  intros Hsimple.
  destruct (createPriorities_spec env getPreferredPath ps
              (simpleNames_nameOk ps Hsimple))
    as (o & triples & Hrun & Hover & Hall).
  exists o, triples. split; [exact Hrun|]. split.
  - rewrite (overrideRule_length _ o Hover).
    destruct (given (getPreferredPath env)); lia.
  - apply (Forall2_with_left
             (fun v => simpleName (Darwin.name v) = true)
             (locationTriple env));
      [|apply Forall_forall, forallb_forall; exact Hsimple|exact Hall].
    intros v t Hv (r1 & r2 & r3 & -> & V1 & V2 & V3 & W1 & W2 & W3).
    exists r1, r2, r3. split; [reflexivity|]. intros c.
    rewrite home_pattern_shape in V2.
    split; [|split].
    + apply (rule_matches_simple r1 (lit "/Applications/") _ (Darwin.name v)
               _ _ (readsAs_plain (lit "/Applications/") eq_refl) Hv V1 W1).
    + apply (rule_matches_simple r2 _ _ (Darwin.name v)
               _ _ (readsAs_home_applications env) Hv V2 W2).
    + apply (rule_matches_simple r3 (lit "/Volumes/") _ (Darwin.name v)
               _ _ (readsAs_plain (lit "/Volumes/") eq_refl) Hv V3 W3).
Qed.

Lemma location_rules_match_witness :
  exists o triples,
    Darwin.createPriorities sampleEnv Firefox.getPreferredPath Firefox.variants
    = Ok (o ++ List.concat triples)
    /\ List.length o <= 1
    /\ List.length triples = 3.
Proof.
  destruct (location_rules_match_the_name_below_their_root
              sampleEnv Firefox.getPreferredPath Firefox.variants eq_refl)
    as (o & triples & Hrun & Hlen & Hall).
  exists o, triples. split; [exact Hrun|]. split; [exact Hlen|].
  symmetry. exact (Forall2_length Hall).
Defined.

(** X14. A candidate that lies under none of the three roots and does not
    contain the preferred path is matched by no rule of [createPriorities]:
    an application the registry lists elsewhere is not ranked by its
    location. *)
Theorem candidate_outside_the_roots_matches_no_rule
        env getPreferredPath ps c :
  forallb safeName ps = true ->
  overrideMisses (getPreferredPath env) c = true ->
  JsString.startsWith (lit "/Applications/") c = false ->
  JsString.startsWith (homeText env ++ lit "/Applications/") c = false ->
  JsString.startsWith (lit "/Volumes/") c = false ->
  exists rules,
    Darwin.createPriorities env getPreferredPath ps = Ok rules
    /\ Forall (fun r => Re.testRe (Util.regex r) c = false) rules.
Proof.
  intros Hsafe Hmiss HA HH HV.
  destruct (safeName_split ps Hsafe) as [Hok Hnb].
  destruct (createPriorities_spec env getPreferredPath ps Hok)
    as (o & triples & Hrun & Hover & Hall).
  exists (o ++ List.concat triples). split; [exact Hrun|].
  apply Forall_app. split.
  - apply Forall_forall. intros r Hr.
    exact (overrideRule_misses _ o c Hover Hmiss r Hr).
  - clear Hrun Hok Hsafe Hover.
    induction Hall as [|v t ps' triples' Ht Hall IH]; cbn [List.concat].
    + constructor.
    + inversion Hnb as [|v0 ps0 Hv Hnb']; subst.
      apply Forall_app. split; [|exact (IH Hnb')].
      pose proof Ht as (r1 & r2 & r3 & -> & _).
      destruct (triple_sound env v r1 r2 r3 Ht Hv c) as (S1 & S2 & S3).
      repeat constructor.
      * destruct (Re.testRe (Util.regex r1) c); [|reflexivity].
        rewrite (S1 eq_refl) in HA. discriminate HA.
      * destruct (Re.testRe (Util.regex r2) c); [|reflexivity].
        rewrite (S2 eq_refl) in HH. discriminate HH.
      * destruct (Re.testRe (Util.regex r3) c); [|reflexivity].
        rewrite (S3 eq_refl) in HV. discriminate HV.
Qed.

Lemma candidate_outside_the_roots_witness :
  exists rules,
    Darwin.createPriorities sampleEnv Firefox.getPreferredPath Firefox.variants
    = Ok rules
    /\ Forall (fun r =>
                 Re.testRe (Util.regex r)
                   (lit "/opt/Firefox.app/Contents/MacOS/firefox") = false)
              rules.
Proof.
  apply candidate_outside_the_roots_matches_no_rule; reflexivity.
Defined.

(** ** White space around paths *)

Lemma candidates_trimmed h paths suffixes :
  candidates h paths suffixes
  = flat_map (fun inst => map (fun suffix => posix_join h inst suffix) suffixes)
             (map JsString.trim paths).
Proof.
  unfold candidates. induction paths as [|inst paths IH]; cbn [flat_map map].
  - reflexivity.
  - rewrite IH. reflexivity.
Qed.

Lemma visible_truthy l : visible l = true -> JsString.truthy l = true.
Proof.
  unfold visible. rewrite trim_truthy. destruct l as [|c l]; [discriminate|].
  reflexivity.
Qed.

Lemma filter_truthy_visible l :
  forallb visible l = true ->
  filter JsString.truthy l = l
  /\ filter JsString.truthy (map JsString.trim l) = map JsString.trim l.
Proof.
  induction l as [|x l IH]; cbn [forallb filter map]; [auto|].
  intros H. apply andb_true_iff in H. destruct H as [Hx Hl].
  destruct (IH Hl) as [-> ->]. rewrite (visible_truthy x Hx).
  unfold visible in Hx. rewrite Hx. auto.
Qed.

(** X15. White space around a default path or around the preferred path
    does not matter to the scan, since every path is trimmed when it is
    joined with a suffix: with default paths and a preferred path that have a
    visible character, the scan does what it does with their trimmed
    forms. *)
Theorem scan_trims_default_and_preferred_paths
        h env getPreferredPath getPreferredPath'
        pattern defaultPaths suffixes w :
  forallb visible defaultPaths = true ->
  match getPreferredPath env with
  | Some p =>
      visible p = true /\ getPreferredPath' env = Some (JsString.trim p)
  | None => getPreferredPath' env = None
  end ->
  Darwin.findLaunchRegisteredApps h env getPreferredPath
    pattern defaultPaths suffixes w
  = Darwin.findLaunchRegisteredApps h env getPreferredPath'
      pattern (map JsString.trim defaultPaths) suffixes w.
Proof.
  intros Hdef Hpref. rewrite !findLaunchRegisteredApps_run. cbv zeta.
  destruct (execa_command h _ _) as [e|stdout]; [reflexivity|].
  assert (Hsame :
            candidates h (scanPaths env getPreferredPath stdout defaultPaths)
                       suffixes
            = candidates h
                (scanPaths env getPreferredPath' stdout
                           (map JsString.trim defaultPaths))
                suffixes).
  { rewrite !candidates_trimmed. f_equal. unfold scanPaths. cbv zeta.
    rewrite !filter_app.
    destruct (filter_truthy_visible defaultPaths Hdef) as [-> ->].
    destruct (getPreferredPath env) as [p|].
    - destruct Hpref as [Hp ->].
      rewrite (visible_truthy p Hp). unfold visible in Hp. rewrite Hp.
      rewrite !map_app, map_map. cbn [map]. rewrite trim_idem.
      f_equal. f_equal. apply map_ext. intros d. symmetry. apply trim_idem.
    - rewrite Hpref. rewrite !map_app, map_map.
      f_equal. apply map_ext. intros d. symmetry. apply trim_idem. }
  rewrite Hsame. reflexivity.
Qed.

Lemma scan_trims_paths_witness :
  Darwin.findLaunchRegisteredApps sampleHost sampleEnv
    (fun _ => Some (lit "  /opt/firefox ")) Firefox.pattern
    [lit " /Applications/Firefox.app"] Firefox.suffixes emptyWorld
  = Darwin.findLaunchRegisteredApps sampleHost sampleEnv
      (fun _ => Some (JsString.trim (lit "  /opt/firefox "))) Firefox.pattern
      (map JsString.trim [lit " /Applications/Firefox.app"])
      Firefox.suffixes emptyWorld.
Proof.
  apply scan_trims_default_and_preferred_paths.
  - reflexivity.
  - split; reflexivity.
Defined.

(** ** The well-known paths and the rules *)

Lemma reachesName_holdsName n s :
  reachesName n s = true -> holdsName n s = true.
Proof.
  induction s as [|c t IH]; cbn [reachesName holdsName]; [auto|].
  destruct (fitsName n (c :: t)); [reflexivity|]. cbn [orb].
  intros H. apply andb_true_iff in H. apply IH, H.
Qed.

Lemma holdsName_skipn n k :
  forall s, holdsName n (skipn k s) = true -> holdsName n s = true.
Proof.
  induction k as [|k IH]; intros s; [auto|].
  destruct s as [|c t]; [auto|]. cbn [skipn holdsName].
  intros H. rewrite (IH t H). apply orb_true_r.
Qed.

Lemma belowRoot_holdsName root n c :
  belowRoot root n c = true -> holdsName n c = true.
Proof.
  unfold belowRoot. intros H. apply andb_true_iff in H. destruct H as [_ H].
  apply (holdsName_skipn n (List.length root)), reachesName_holdsName, H.
Qed.

(** A well-known path holds the name of the variant of its quality and of
    no other. *)
Lemma firefox_names_in_wellKnownPaths v exe :
  In v Firefox.variants -> In exe Firefox.wellKnownPaths ->
  holdsName (Darwin.name v) (path exe) = true ->
  Darwin.quality v = quality exe.
Proof.
  intros Hv Hexe.
  repeat (destruct Hv as [<-|Hv]); try destruct Hv;
    repeat (destruct Hexe as [<-|Hexe]); try destruct Hexe;
    vm_compute; intros H; try reflexivity; discriminate H.
Qed.

Lemma firefox_wellKnownPaths_below_applications exe :
  In exe Firefox.wellKnownPaths ->
  exists v,
    In v Firefox.variants
    /\ Darwin.quality v = quality exe
    /\ belowRoot (lit "/Applications/") (Darwin.name v) (path exe) = true.
Proof.
  intros Hexe. repeat (destruct Hexe as [<-|Hexe]); try destruct Hexe.
  - exists {| Darwin.name := lit "Firefox.app"; Darwin.weight := 0;
              Darwin.quality := Stable |}.
    split; [simpl; auto|]. split; vm_compute; reflexivity.
  - exists {| Darwin.name := lit "Firefox Developer Edition.app";
              Darwin.weight := 2; Darwin.quality := Dev |}.
    split; [simpl; auto|]. split; vm_compute; reflexivity.
  - exists {| Darwin.name := lit "Firefox Nightly.app"; Darwin.weight := 1;
              Darwin.quality := Canary |}.
    split; [simpl; auto|]. split; vm_compute; reflexivity.
Qed.

Lemma Forall2_In_left {A B : Type} (R : A -> B -> Prop) l l' a :
  Forall2 R l l' -> In a l -> exists b, In b l' /\ R a b.
Proof.
  induction 1 as [|x y l l' Hxy Hall IH]; intros Hin; [destruct Hin|].
  destruct Hin as [<-|Hin].
  - exists y. simpl. auto.
  - destruct (IH Hin) as (b & Hb & Hab). exists b. simpl. auto.
Qed.

Lemma Forall2_In_right {A B : Type} (R : A -> B -> Prop) l l' b :
  Forall2 R l l' -> In b l' -> exists a, In a l /\ R a b.
Proof.
  induction 1 as [|x y l l' Hxy Hall IH]; intros Hin; [destruct Hin|].
  destruct Hin as [<-|Hin].
  - exists x. simpl. auto.
  - destruct (IH Hin) as (a & Ha & Hab). exists a. simpl. auto.
Qed.

(** X16. The two tables of the Firefox finder agree.  In every environment
    the rules of [createPriorities] hold, for each well-known path, a rule
    that matches it and carries the quality the path is listed with; and
    every rule that matches a well-known path carries that quality, or is the
    rule of the preferred path ([Custom]). *)
Theorem firefox_wellKnownPaths_agree_with_the_rules env :
  exists rules,
    Darwin.createPriorities env Firefox.getPreferredPath Firefox.variants
    = Ok rules
    /\ forall exe,
        In exe Firefox.wellKnownPaths ->
        (exists r,
            In r rules
            /\ Re.testRe (Util.regex r) (path exe) = true
            /\ Util.quality r = quality exe)
        /\ (forall r,
               In r rules ->
               Re.testRe (Util.regex r) (path exe) = true ->
               Util.quality r = quality exe \/ Util.quality r = Custom).
Proof.
  destruct (createPriorities_spec env Firefox.getPreferredPath Firefox.variants
              firefox_names_accepted) as (o & triples & Hrun & Hover & Hall).
  exists (o ++ List.concat triples). split; [exact Hrun|].
  assert (Hsimple : forall v, In v Firefox.variants ->
                              simpleName (Darwin.name v) = true).
  { intros v Hv. repeat (destruct Hv as [<-|Hv]); try destruct Hv; reflexivity. }
  assert (Hmatch : forall v t r c,
             In v Firefox.variants -> locationTriple env v t -> In r t ->
             Util.quality r = Darwin.quality v
             /\ (Re.testRe (Util.regex r) c = true ->
                 holdsName (Darwin.name v) c = true)).
  { intros v t r c Hv (r1 & r2 & r3 & -> & V1 & V2 & V3 & W1 & W2 & W3) Hr.
    rewrite home_pattern_shape in V2. pose proof (Hsimple v Hv) as Hn.
    pose proof (rule_matches_simple r1 (lit "/Applications/") _ (Darwin.name v)
                  _ _ (readsAs_plain (lit "/Applications/") eq_refl) Hn V1 W1 c)
      as M1.
    pose proof (rule_matches_simple r2 _ _ (Darwin.name v)
                  _ _ (readsAs_home_applications env) Hn V2 W2 c) as M2.
    pose proof (rule_matches_simple r3 (lit "/Volumes/") _ (Darwin.name v)
                  _ _ (readsAs_plain (lit "/Volumes/") eq_refl) Hn V3 W3 c)
      as M3.
    unfold ruleView in V1, V2, V3.
    destruct Hr as [<-|[<-|[<-|[]]]].
    - split; [congruence|]. rewrite M1. apply belowRoot_holdsName.
    - split; [congruence|]. rewrite M2. apply belowRoot_holdsName.
    - split; [congruence|]. rewrite M3. apply belowRoot_holdsName. }
  intros exe Hexe. split.
  - destruct (firefox_wellKnownPaths_below_applications exe Hexe)
      as (v & Hv & Hq & Hbelow).
    destruct (Forall2_In_left _ _ _ v Hall Hv) as (t & Ht & Htriple).
    pose proof Htriple as (r1 & r2 & r3 & -> & V1 & _ & _ & W1 & _).
    exists r1. split; [|split].
    + apply in_or_app. right. apply in_concat. exists [r1; r2; r3].
      simpl. auto.
    + rewrite (rule_matches_simple r1 (lit "/Applications/") _ (Darwin.name v)
                 _ _ (readsAs_plain (lit "/Applications/") eq_refl)
                 (Hsimple v Hv) V1 W1).
      exact Hbelow.
    + unfold ruleView in V1. congruence.
  - intros r Hr Htest. apply in_app_or in Hr. destruct Hr as [Hr|Hr].
    + right. unfold overrideRule in Hover.
      destruct (Firefox.getPreferredPath env) as [p|]; [|subst o; destruct Hr].
      destruct (JsString.truthy p); [|subst o; destruct Hr].
      destruct Hover as (r0 & -> & Hview & _). destruct Hr as [<-|[]].
      unfold ruleView in Hview. congruence.
    + left. apply in_concat in Hr. destruct Hr as (t & Ht & Hr).
      destruct (Forall2_In_right _ _ _ t Hall Ht) as (v & Hv & Htriple).
      destruct (Hmatch v t r (path exe) Hv Htriple Hr) as [Hq Hholds].
      rewrite Hq. apply (firefox_names_in_wellKnownPaths v exe Hv Hexe).
      apply Hholds, Htest.
Qed.

Lemma firefox_wellKnownPaths_agree_witness :
  exists rules r,
    Darwin.createPriorities sampleEnv Firefox.getPreferredPath Firefox.variants
    = Ok rules
    /\ In r rules
    /\ Re.testRe (Util.regex r)
         (lit "/Applications/Firefox Nightly.app/Contents/MacOS/firefox") = true
    /\ Util.quality r = Canary.
Proof.
  destruct (firefox_wellKnownPaths_agree_with_the_rules sampleEnv)
    as (rules & Hrun & Hall).
  destruct (Hall {| path := lit "/Applications/Firefox Nightly.app/Contents/MacOS/firefox";
                    quality := Canary |}) as [(r & Hin & Htest & Hq) _].
  { simpl. auto. }
  exists rules, r. auto.
Defined.

(** ** Location and variant *)

(** X17. When the weights of the variants are at least 0 and below 100, as
    0, 1 and 2 of the Firefox variants are, location weighs more than
    variant: the Applications rule of any variant weighs more than the home
    rule of any variant, which weighs more than the Volumes rule of any
    variant. *)
Theorem location_outweighs_variant env getPreferredPath ps :
  forallb nameOk ps = true ->
  forallb (fun v => (0 <=? Darwin.weight v)%Z && (Darwin.weight v <? 100)%Z) ps
  = true ->
  exists o triples,
    Darwin.createPriorities env getPreferredPath ps
    = Ok (o ++ List.concat triples)
    /\ List.length o <= 1
    /\ forall ta tb tc,
        In ta triples -> In tb triples -> In tc triples ->
        exists a1 a2 a3 b1 b2 b3 c1 c2 c3,
          ta = [a1; a2; a3] /\ tb = [b1; b2; b3] /\ tc = [c1; c2; c3]
          /\ (Util.weight a1 > Util.weight b2)%Z
          /\ (Util.weight b2 > Util.weight c3)%Z.
Proof.
  intros Hok Hband.
  destruct (createPriorities_spec env getPreferredPath ps Hok)
    as (o & triples & Hrun & Hover & Hall).
  exists o, triples. split; [exact Hrun|]. split.
  - rewrite (overrideRule_length _ o Hover).
    destruct (given (getPreferredPath env)); lia.
  - assert (Hw : forall t, In t triples ->
                   exists v r1 r2 r3,
                     t = [r1; r2; r3]
                     /\ (0 <= Darwin.weight v < 100)%Z
                     /\ Util.weight r1 = (Darwin.weight v + 100)%Z
                     /\ Util.weight r2 = Darwin.weight v
                     /\ Util.weight r3 = (Darwin.weight v - 100)%Z).
    { intros t Ht.
      destruct (Forall2_In_right _ _ _ t Hall Ht) as (v & Hv & Htriple).
      destruct Htriple as (r1 & r2 & r3 & -> & V1 & V2 & V3 & _).
      exists v, r1, r2, r3. split; [reflexivity|].
      pose proof (proj1 (forallb_forall _ ps) Hband v Hv) as Hb.
      apply andb_true_iff in Hb. destruct Hb as [Hlo Hhi].
      apply Z.leb_le in Hlo. apply Z.ltb_lt in Hhi.
      unfold ruleView in V1, V2, V3.
      repeat split; try lia; congruence. }
    intros ta tb tc Ha Hb Hc.
    destruct (Hw ta Ha) as (va & a1 & a2 & a3 & -> & Ba & A1 & A2 & A3).
    destruct (Hw tb Hb) as (vb & b1 & b2 & b3 & -> & Bb & B1 & B2 & B3).
    destruct (Hw tc Hc) as (vc & c1 & c2 & c3 & -> & Bc & C1 & C2 & C3).
    exists a1, a2, a3, b1, b2, b3, c1, c2, c3.
    repeat split; lia.
Qed.

Lemma location_outweighs_variant_witness :
  exists o triples,
    Darwin.createPriorities sampleEnv Firefox.getPreferredPath Firefox.variants
    = Ok (o ++ List.concat triples)
    /\ List.length o <= 1.
Proof.
  destruct (location_outweighs_variant sampleEnv Firefox.getPreferredPath
              Firefox.variants eq_refl eq_refl)
    as (o & triples & Hrun & Hlen & _).
  exists o, triples. split; [exact Hrun|exact Hlen].
Defined.

(** ** How [createPriorities] ends *)

Lemma locationRules_outcome env v :
  sameOutcome (fun t _ => locationTriple env v t)
    (Darwin.locationRules (Darwin.escapedHome env) v)
    (Re.compile (lit "^/Applications/.*" ++ Darwin.name v)).
Proof.
  destruct (Re.compile (lit "^/Applications/.*" ++ Darwin.name v))
    as [m| e |] eqn:Hc.
  - assert (Hok : nameOk v = true) by (unfold nameOk; rewrite Hc; reflexivity).
    destruct (locationRules_spec env v Hok) as (t & -> & Ht). exact Ht.
  - unfold Darwin.locationRules, Re.new_RegExp. rewrite Hc. reflexivity.
  - unfold Darwin.locationRules, Re.new_RegExp. rewrite Hc. exact I.
Qed.

Lemma reduce_outcome env ps :
  forall acc,
    sameOutcome
      (fun mapped _ =>
         exists triples,
           mapped = acc ++ List.concat triples
           /\ Forall2 (locationTriple env) ps triples)
      (Darwin.reduce
         (fun acc p =>
            rbind (Darwin.locationRules (Darwin.escapedHome env) p)
                  (fun rules => Ok (acc ++ rules))) ps acc)
      (namesOutcome ps).
Proof.
  induction ps as [|v ps IH]; intros acc; cbn [Darwin.reduce namesOutcome].
  - exists []. cbn [List.concat]. rewrite app_nil_r. split; [reflexivity|constructor].
  - pose proof (locationRules_outcome env v) as Hv.
    destruct (Darwin.locationRules (Darwin.escapedHome env) v) as [t| e |],
             (Re.compile (lit "^/Applications/.*" ++ Darwin.name v)) as [m| e' |];
      cbn [sameOutcome rbind] in *; try contradiction; auto.
    specialize (IH (acc ++ t)).
    destruct (Darwin.reduce _ ps (acc ++ t)) as [mapped| e |],
             (namesOutcome ps) as [u| e' |];
      cbn [sameOutcome] in *; try contradiction; auto.
    destruct IH as (triples & -> & Hall). exists (t :: triples).
    cbn [List.concat]. rewrite app_assoc. split; [reflexivity|].
    constructor; assumption.
Qed.

Lemma createPriorities_outcome env getPreferredPath ps :
  sameOutcome
    (fun rules _ =>
       exists o triples,
         rules = o ++ List.concat triples
         /\ overrideRule (getPreferredPath env) o
         /\ Forall2 (locationTriple env) ps triples)
    (Darwin.createPriorities env getPreferredPath ps)
    (namesOutcome ps).
Proof.
  pose proof (reduce_outcome env ps []) as Hred.
  destruct (namesOutcome ps) as [u| e |] eqn:Hnames.
  - assert (Hok : forallb nameOk ps = true).
    { rewrite <- (reduce_locationRules_isOk env ps []).
      destruct (Darwin.reduce _ ps []); cbn [sameOutcome] in Hred;
        [reflexivity|contradiction|contradiction]. }
    destruct (createPriorities_spec env getPreferredPath ps Hok)
      as (o & triples & -> & Hover & Hall).
    exists o, triples. auto.
  - unfold Darwin.createPriorities. cbv zeta.
    destruct (Darwin.reduce _ ps []); cbn [sameOutcome rbind] in *;
      [contradiction|exact Hred|contradiction].
  - unfold Darwin.createPriorities. cbv zeta.
    destruct (Darwin.reduce _ ps []); cbn [sameOutcome rbind] in *;
      [contradiction|contradiction|exact I].
Qed.

Lemma namesOutcome_accepted ps :
  forallb nameOk ps = true -> namesOutcome ps = Ok tt.
Proof.
  induction ps as [|v ps IH]; cbn [forallb namesOutcome]; [reflexivity|].
  intros H. apply andb_true_iff in H. destruct H as [Hv Hps].
  unfold nameOk in Hv.
  destruct (Re.compile (lit "^/Applications/.*" ++ Darwin.name v));
    [|discriminate Hv|discriminate Hv].
  cbn [rbind]. exact (IH Hps).
Qed.

Lemma namesOutcome_rejected before v after e :
  forallb nameOk before = true ->
  Re.compile (lit "^/Applications/.*" ++ Darwin.name v) = Throw e ->
  namesOutcome (before ++ v :: after) = Throw e.
Proof.
  intros Hbefore Hv. induction before as [|u before IH];
    cbn [app namesOutcome].
  - rewrite Hv. reflexivity.
  - cbn [forallb] in Hbefore. apply andb_true_iff in Hbefore.
    destruct Hbefore as [Hu Hbefore]. unfold nameOk in Hu.
    destruct (Re.compile (lit "^/Applications/.*" ++ Darwin.name u));
      [|discriminate Hu|discriminate Hu].
    cbn [rbind]. exact (IH Hbefore).
Qed.

(** X7. [createPriorities] ends the way reading the Applications pattern of
    each variant name, in the order of the variants, ends: HOME and the
    preferred path never decide it.  When [new RegExp] accepts every one of
    these patterns it returns three rules for each variant, and one more when
    a non-empty preferred path is given; when the first name that is not
    accepted is rejected with a [SyntaxError], it throws that error.  For a
    name that uses pattern syntax outside the fragment of [Re], nothing is
    stated. *)
Theorem createPriorities_ends_as_its_names_are_read env getPreferredPath ps :
  sameOutcome
    (fun rules _ =>
       List.length rules
       = 3 * List.length ps
         + match given (getPreferredPath env) with Some _ => 1 | None => 0 end)
    (Darwin.createPriorities env getPreferredPath ps)
    (namesOutcome ps)
  /\ (forallb nameOk ps = true ->
      exists rules,
        Darwin.createPriorities env getPreferredPath ps = Ok rules)
  /\ (forall before v after e,
         ps = before ++ v :: after ->
         forallb nameOk before = true ->
         Re.compile (lit "^/Applications/.*" ++ Darwin.name v) = Throw e ->
         Darwin.createPriorities env getPreferredPath ps = Throw e).
Proof.
  pose proof (createPriorities_outcome env getPreferredPath ps) as Hend.
  split; [|split].
  - destruct (Darwin.createPriorities env getPreferredPath ps) as [rules| e |],
             (namesOutcome ps) as [u| e' |];
      cbn [sameOutcome] in *; try contradiction; auto.
    destruct Hend as (o & triples & -> & Hover & Hall).
    rewrite length_app, (locationTriples_length env ps triples Hall),
      (overrideRule_length _ o Hover). lia.
  - intros Hok. rewrite (namesOutcome_accepted ps Hok) in Hend.
    destruct (Darwin.createPriorities env getPreferredPath ps) as [rules| e |];
      cbn [sameOutcome] in Hend; [eauto|contradiction|contradiction].
  - intros before v after e -> Hbefore Hv.
    rewrite (namesOutcome_rejected before v after e Hbefore Hv) in Hend.
    destruct (Darwin.createPriorities env getPreferredPath _) as [rules| e' |];
      cbn [sameOutcome] in Hend; [contradiction|congruence|contradiction].
Qed.

Lemma createPriorities_ends_witness :
  (exists rules,
      Darwin.createPriorities trickyEnv Firefox.getPreferredPath
        Firefox.variants = Ok rules)
  /\ Darwin.createPriorities trickyEnv Firefox.getPreferredPath
       (Firefox.variants ++ unbalancedVariant :: [stableVariant])
     = Throw SyntaxError.
Proof.
  split.
  - apply (proj1 (proj2 (createPriorities_ends_as_its_names_are_read
                           trickyEnv Firefox.getPreferredPath
                           Firefox.variants))).
    reflexivity.
  - apply (proj2 (proj2 (createPriorities_ends_as_its_names_are_read
                           trickyEnv Firefox.getPreferredPath
                           (Firefox.variants ++ unbalancedVariant :: [stableVariant])))
             Firefox.variants unbalancedVariant [stableVariant] SyntaxError);
      reflexivity.
Defined.

(** ** A failing command, a failing dump *)





(** On the sample machine the scan finds the two installations, whether the
    dump ends with status 0 or not. *)
Example dump_status_sample :
  map (fun code =>
         fst (Firefox.findAllInner
                (pipelineHost (withDumpStatus (sampleMachine 0) (fun _ => code)))
                sampleEnv Util.sort emptyWorld))
      [0; 1; 127]
  = let found :=
      Ok [ {| path := lit "/Applications/Firefox.app/Contents/MacOS/firefox";
              quality := Stable |};
           {| path := lit "/Volumes/Disk/Firefox Nightly.app/Contents/MacOS/firefox";
              quality := Canary |} ] in
    [found; found; found].
Proof. vm_compute. reflexivity. Qed.

(** ** Ranking by location *)









(** Each condition of the amended sentence is needed.  With HOME empty the
    home Applications folder is /Applications/ itself and its candidates
    weigh as much as those of /Applications/; with a name that holds [|] the
    Applications rule matches a candidate under /Volumes/. *)
Example location_conditions_sample :
  match Darwin.createPriorities (envOf (Some []) None)
          Firefox.getPreferredPath [stableVariant],
        Darwin.createPriorities sampleEnv Firefox.getPreferredPath
          [ {| Darwin.name := lit "Firefox.app|Firefox"; Darwin.weight := 0;
               Darwin.quality := Stable |} ] with
  | Ok plain, Ok barred =>
      homeApart (envOf (Some []) None) = false
      /\ belowRoot (homeText (envOf (Some []) None) ++ lit "/Applications/")
           (lit "Firefox.app")
           (lit "/Applications/Firefox.app/Contents/MacOS/firefox") = true
      /\ option_map Util.weight
           (Util.findPriority plain
              (lit "/Applications/Firefox.app/Contents/MacOS/firefox"))
         = Some 100%Z
      /\ option_map Util.weight
           (Util.findPriority barred
              (lit "/Volumes/Disk/Firefox.app/Contents/MacOS/firefox"))
         = Some 100%Z
  | _, _ => False
  end.
Proof. vm_compute. repeat split. Qed.
